(** * Shortest-path visualizer: grid model, traversal engine and edit handlers

    A shallow embedding of [src/App.tsx].  The component keeps a grid of cell
    objects, a start and an end reference, an edit mode and a running flag;
    [bfs] and [dfs] search the grid, the click and clear handlers edit it.

    Numbers are integers ([Z]); the [Set<string>] of visited keys is a
    [gset string] over the very keys the source builds with its template
    literal; arrays are lists.  Reading a property of [undefined] is the
    outcome [TypeError]. *)

From Stdlib Require Import Ascii.
From stdpp Require Import base numbers list gmap sets strings pretty.

Local Open Scope Z_scope.

(** ** Data model *)

Inductive CellType := Empty | Start | End | Wall | Path | Visited.

#[global] Instance CellType_eq_dec : EqDecision CellType.
Proof. solve_decision. Defined.

Record Cell := mkCell { row : Z; col : Z; type : CellType }.

#[global] Instance Cell_eq_dec : EqDecision Cell.
Proof. solve_decision. Defined.

Record PathResult := mkResult {
  path : list Cell;
  visited : list Cell;
  found : bool }.

(** What a call can do: return, throw on [undefined], or exceed the number
    of loop iterations the model was given. *)
Inductive Outcome (A : Type) :=
  | Returned (a : A)
  | TypeError
  | OutOfFuel.
Arguments Returned {A} a.
Arguments TypeError {A}.
Arguments OutOfFuel {A}.

Abbreviation Grid := (list (list Cell)).

Definition coord (c : Cell) : Z * Z := (row c, col c).

(** [grid[r][c]]: [undefined] outside the arrays, negative indices included. *)
Definition cellAt (grid : Grid) (r c : Z) : option Cell :=
  if bool_decide (0 ≤ r) && bool_decide (0 ≤ c)
  then rw ← grid !! Z.to_nat r; rw !! Z.to_nat c
  else None.

(** The cells [initializeGrid] creates, as values. *)
Definition blankGrid (rows cols : Z) : Grid :=
  (λ i, (λ j, mkCell i j Empty) <$> seqZ 0 cols) <$> seqZ 0 rows.

(** ** Traversal engine *)

(** The template literal [`${r},${c}`]. *)
Definition key (r c : Z) : string := pretty r +:+ "," +:+ pretty c.

Definition keyOf (c : Cell) : string := key (row c) (col c).

Definition directions : list (Z * Z) := [(0, 1); (1, 0); (0, -1); (-1, 0)].

(** [queue.shift()] and [stack.pop()] on a non-empty array; [None] is the
    empty array, on which the loop condition fails. *)
Definition shift {A} (q : list A) : option (A * list A) :=
  match q with
  | [] => None
  | x :: q' => Some (x, q')
  end.

Definition pop {A} (s : list A) : option (A * list A) :=
  match reverse s with
  | [] => None
  | x :: r => Some (x, reverse r)
  end.

(** The three mutable locals of a search: the queue or stack of
    [{cell, path}] entries, the [visited] key set and [visitedCells]. *)
Record SearchState := mkState {
  frontier : list (Cell * list Cell);
  visitedSet : gset string;
  visitedCells : list Cell }.

(** [bfs] and [dfs] are the same text up to the way an entry is taken from
    the frontier, so the loop is written once over [take]. *)
Section Search.
Variables (rows cols : Z) (grid : Grid).
Variable take :
  list (Cell * list Cell) → option ((Cell * list Cell) * list (Cell * list Cell)).

(** One round of [for (const [dr, dc] of directions)]. *)
Definition visit (cell : Cell) (p : list Cell) (st : SearchState) (d : Z * Z)
    : option SearchState :=
  let newRow := row cell + d.1 in
  let newCol := col cell + d.2 in
  let k := key newRow newCol in
  if bool_decide (0 ≤ newRow) && bool_decide (newRow < rows) &&
     bool_decide (0 ≤ newCol) && bool_decide (newCol < cols) &&
     negb (bool_decide (k ∈ visitedSet st))
  then newCell ← cellAt grid newRow newCol;
       if bool_decide (type newCell ≠ Wall)
       then Some (mkState (frontier st ++ [(newCell, p ++ [newCell])])
                          ({[k]} ∪ visitedSet st)
                          (visitedCells st ++ [newCell]))
       else Some st
  else Some st.

Fixpoint expand (cell : Cell) (p : list Cell) (ds : list (Z * Z))
    (st : SearchState) : option SearchState :=
  match ds with
  | [] => Some st
  | d :: ds' => st' ← visit cell p st d; expand cell p ds' st'
  end.

(** The [while] loop, at most [fuel] iterations. *)
Fixpoint loop (fuel : nat) (endCell : Cell) (st : SearchState)
    : Outcome PathResult :=
  match fuel with
  | O => OutOfFuel
  | S fuel' =>
    match take (frontier st) with
    | None => Returned (mkResult [] (visitedCells st) false)
    | Some ((cell, p), rest) =>
      if bool_decide (row cell = row endCell) &&
         bool_decide (col cell = col endCell)
      then Returned (mkResult p (visitedCells st) true)
      else match expand cell p directions
                   (mkState rest (visitedSet st) (visitedCells st)) with
           | None => TypeError
           | Some st' => loop fuel' endCell st'
           end
    end
  end.

Definition search (fuel : nat) (startCell endCell : Cell) : Outcome PathResult :=
  loop fuel endCell
    (mkState [(startCell, [startCell])]
             {[key (row startCell) (col startCell)]} []).
End Search.

Definition bfs_upto (fuel : nat) (rows cols : Z) (grid : Grid) :=
  search rows cols grid shift fuel.
Definition dfs_upto (fuel : nat) (rows cols : Z) (grid : Grid) :=
  search rows cols grid pop fuel.

(** One iteration per entry taken, one entry per cell of the grid and one for
    the start: [rows * cols + 2] rounds are never used up (lemmas
    [potential_init] and [loop_rule] below). *)
Definition enough (rows cols : Z) : nat := (Z.to_nat (rows * cols) + 2)%nat.

Definition bfs (rows cols : Z) (grid : Grid) (startCell endCell : Cell) :=
  bfs_upto (enough rows cols) rows cols grid startCell endCell.
Definition dfs (rows cols : Z) (grid : Grid) (startCell endCell : Cell) :=
  dfs_upto (enough rows cols) rows cols grid startCell endCell.

(** ** Vocabulary of the properties *)

(** A grid of [rows] by [cols] cells, each carrying its own coordinates. *)
Definition wf_grid (rows cols : Z) (grid : Grid) : Prop :=
  (fmap coord <$> grid) = ((λ i, (λ j, (i, j)) <$> seqZ 0 cols) <$> seqZ 0 rows).

Definition insideb (rows cols : Z) (u : Z * Z) : bool :=
  bool_decide (0 ≤ u.1) && bool_decide (u.1 < rows) &&
  bool_decide (0 ≤ u.2) && bool_decide (u.2 < cols).

(** A coordinate of the grid whose cell is not a wall. *)
Definition openb (rows cols : Z) (grid : Grid) (u : Z * Z) : bool :=
  insideb rows cols u &&
  match cellAt grid u.1 u.2 with
  | Some c => bool_decide (type c ≠ Wall)
  | None => false
  end.

Definition manhattan (u v : Z * Z) : Z := Z.abs (u.1 - v.1) + Z.abs (u.2 - v.2).

Fixpoint stepwise (p : list (Z * Z)) : Prop :=
  match p with
  | u :: (v :: _) as t => manhattan u v = 1 ∧ stepwise t
  | _ => True
  end.

(** A wall-free orthogonal path from [s] to [e]: it starts at [s], ends at
    [e], every coordinate on it is a cell of the grid that is not a wall,
    and consecutive coordinates are neighbours. *)
Definition wall_free_path (rows cols : Z) (grid : Grid) (s e : Z * Z)
    (p : list (Z * Z)) : Prop :=
  head p = Some s ∧ last p = Some e ∧
  Forall (λ u, openb rows cols grid u = true) p ∧ stepwise p.

Definition allCoords (rows cols : Z) : list (Z * Z) :=
  i ← seqZ 0 rows; (λ j, (i, j)) <$> seqZ 0 cols.

Definition allKeys (rows cols : Z) : gset string :=
  list_to_set ((λ u, key u.1 u.2) <$> allCoords rows cols).

(** The quantity that every iteration of the loop decreases by one. *)
Definition potential (rows cols : Z) (st : SearchState) : nat :=
  (length (frontier st) + size (allKeys rows cols ∖ visitedSet st))%nat.

Section Graph.
Variables (rows cols : Z) (grid : Grid).

(** A cell object of the grid that the inner loop may enter. *)
Definition enterable (c : Cell) : Prop :=
  cellAt grid (row c) (col c) = Some c ∧
  insideb rows cols (coord c) = true ∧ type c ≠ Wall.

Definition neighbour (u v : Z * Z) : Prop :=
  ∃ d, d ∈ directions ∧ v = (u.1 + d.1, u.2 + d.2).

Definition edge (u v : Z * Z) : Prop :=
  neighbour u v ∧ openb rows cols grid v = true.

(** [walk n u v]: [n] moves lead from [u] to [v]. *)
Inductive walk : nat → Z * Z → Z * Z → Prop :=
  | walk_here u : walk 0 u u
  | walk_move n u v w : walk n u v → edge v w → walk (S n) u w.

(** [trail s c p]: [p] is a [path] array the loop can hold for [c]. *)
Inductive trail (s : Cell) : Cell → list Cell → Prop :=
  | trail_start : trail s s [s]
  | trail_snoc c p w :
      trail s c p → enterable w → neighbour (coord c) (coord w) →
      trail s w (p ++ [w]).

(** What holds of the locals of either search at the head of the loop. *)
Record Inv (s e : Cell) (st : SearchState) : Prop := {
  inv_frontier : ∀ c p,
    (c, p) ∈ frontier st → trail s c p ∧ keyOf c ∈ visitedSet st;
  inv_set : ∀ k,
    k ∈ visitedSet st ↔
    k = keyOf s ∨ ∃ c, c ∈ visitedCells st ∧ k = keyOf c;
  inv_cells : ∀ c, c ∈ visitedCells st → enterable c;
  inv_nodup : NoDup (coord <$> visitedCells st);
  inv_start : coord s ∉ coord <$> visitedCells st;
  inv_closed : ∀ u,
    key u.1 u.2 ∈ visitedSet st →
    (∃ c p, (c, p) ∈ frontier st ∧ coord c = u) ∨
    (u ≠ coord e ∧ ∀ v, edge u v → key v.1 v.2 ∈ visitedSet st) }.

(** What the queue discipline of [bfs] adds: entries are in order of
    depth and span at most two depths; each entry holds a shortest walk;
    everything as near as the head of the queue has been seen. *)
Record BfsInv (s : Cell) (st : SearchState) : Prop := {
  bfs_sorted : ∀ i j c p c' p',
    (i ≤ j)%nat →
    frontier st !! i = Some (c, p) → frontier st !! j = Some (c', p') →
    (length p ≤ length p' ≤ length p + 1)%nat;
  bfs_min : ∀ c p n,
    (c, p) ∈ frontier st → walk n (coord s) (coord c) → (length p ≤ S n)%nat;
  bfs_level : ∀ c p n v,
    head (frontier st) = Some (c, p) →
    walk n (coord s) v → (S n ≤ length p)%nat →
    key v.1 v.2 ∈ visitedSet st }.
End Graph.

(** What the proofs use of [shift] and [pop]: an entry is taken out of a
    non-empty frontier and the others stay. *)
Definition take_ok
    (take : list (Cell * list Cell) →
            option ((Cell * list Cell) * list (Cell * list Cell))) : Prop :=
  ∀ l, match take l with
       | None => l = []
       | Some (x, l') => l ≡ₚ x :: l'
       end.

(** A string without the separator of [key]. *)
Fixpoint comma_free (s : string) : Prop :=
  match s with
  | EmptyString => True
  | String a s' => a ≠ ","%char ∧ comma_free s'
  end.

(** The number of steps the success message reports:
    [result.path.length - 1]. *)
Definition edgeCount {A} (p : list A) : nat := (length p - 1)%nat.

(** A call returns [r] when some number of iterations is enough for it. *)
Definition returns (run : nat → Outcome PathResult) (r : PathResult) : Prop :=
  ∃ fuel, run fuel = Returned r.

(** The result of an outcome that is a return. *)
Definition resultOf (o : Outcome PathResult) : PathResult :=
  match o with
  | Returned r => r
  | _ => mkResult [] [] false
  end.

(** ** Grids used in examples *)

(** The grid whose cell types are laid out as in [tys]. *)
Definition gridOf (tys : list (list CellType)) : Grid :=
  imap (λ i, imap (λ j t, mkCell (Z.of_nat i) (Z.of_nat j) t)) tys.

(** Start in the top-left corner, end in the top-right one, no wall. *)
Definition openGrid : Grid := gridOf
  [ [Start; Empty; Empty; Empty; End  ];
    [Empty; Empty; Empty; Empty; Empty];
    [Empty; Empty; Empty; Empty; Empty];
    [Empty; Empty; Empty; Empty; Empty];
    [Empty; Empty; Empty; Empty; Empty] ].

(** The end in the middle, walled in on its four sides. *)
Definition ringGrid : Grid := gridOf
  [ [Start; Empty; Empty; Empty; Empty];
    [Empty; Empty; Wall;  Empty; Empty];
    [Empty; Wall;  End;   Wall;  Empty];
    [Empty; Empty; Wall;  Empty; Empty];
    [Empty; Empty; Empty; Empty; Empty] ].

(** A grid whose cell at the start coordinate [(0, 0)] is a wall. *)
Definition wallStartGrid : Grid := gridOf
  [ [Wall;  End;   Empty; Empty; Empty];
    [Empty; Empty; Empty; Empty; Empty];
    [Empty; Empty; Empty; Empty; Empty];
    [Empty; Empty; Empty; Empty; Empty];
    [Empty; Empty; Empty; Empty; Empty] ].

(** A wall at the start coordinate [(0, 0)] and the end [(2, 2)] shut in
    by walls. *)
Definition wallStartRingGrid : Grid := gridOf
  [ [Wall;  Empty; Empty; Empty; Empty];
    [Empty; Empty; Wall;  Empty; Empty];
    [Empty; Wall;  End;   Wall;  Empty];
    [Empty; Empty; Wall;  Empty; Empty];
    [Empty; Empty; Empty; Empty; Empty] ].

(** ** Comparing two runs *)

(** Entries, locals and outcomes that agree on coordinates; used to show
    that a search looks at nothing in a cell but its coordinates and
    whether it is a wall. *)
Definition sim_entry (x y : Cell * list Cell) : Prop :=
  coord x.1 = coord y.1 ∧ coord <$> x.2 = coord <$> y.2.

Definition sim_state (st1 st2 : SearchState) : Prop :=
  Forall2 sim_entry (frontier st1) (frontier st2) ∧
  visitedSet st1 = visitedSet st2 ∧
  coord <$> visitedCells st1 = coord <$> visitedCells st2.

Definition sim_outcome (o1 o2 : Outcome PathResult) : Prop :=
  match o1, o2 with
  | Returned r1, Returned r2 =>
      coord <$> path r1 = coord <$> path r2 ∧
      coord <$> visited r1 = coord <$> visited r2 ∧
      found r1 = found r2
  | TypeError, TypeError => True
  | OutOfFuel, OutOfFuel => True
  | _, _ => False
  end.

(** ** The component: state, cell objects and handlers *)

(** Cells are objects: the grid holds references to them and so do [start]
    and [end], and the handlers assign to [type] in place.  The state of the
    component is therefore a heap of cell objects next to the values React
    keeps.  A handler reads the values of the render it was created in (its
    argument) and runs to completion; [Throw] is an uncaught [TypeError],
    with the heap as it was left. *)
Module App.
Abbreviation ref := nat.

(** ['start' | 'end' | 'wall'], the options Set Start, Set End and Draw
    Walls. *)
Inductive Mode := SetStart | SetEnd | DrawWalls.

Inductive Algorithm := BFS | DFS.

Record State := mkApp {
  rows : Z;
  cols : Z;
  heap : gmap ref Cell;
  grid : list (list ref);
  start : option ref;
  end_ : option ref;
  mode : Mode;
  isRunning : bool;
  algorithm : Algorithm;
  message : string }.

Definition setHeap (h : gmap ref Cell) (σ : State) : State :=
  mkApp (rows σ) (cols σ) h (grid σ) (start σ) (end_ σ) (mode σ)
        (isRunning σ) (algorithm σ) (message σ).
Definition setGrid (g : list (list ref)) (σ : State) : State :=
  mkApp (rows σ) (cols σ) (heap σ) g (start σ) (end_ σ) (mode σ)
        (isRunning σ) (algorithm σ) (message σ).
Definition setStart (s : option ref) (σ : State) : State :=
  mkApp (rows σ) (cols σ) (heap σ) (grid σ) s (end_ σ) (mode σ)
        (isRunning σ) (algorithm σ) (message σ).
Definition setEnd (e : option ref) (σ : State) : State :=
  mkApp (rows σ) (cols σ) (heap σ) (grid σ) (start σ) e (mode σ)
        (isRunning σ) (algorithm σ) (message σ).
Definition setMode (m : Mode) (σ : State) : State :=
  mkApp (rows σ) (cols σ) (heap σ) (grid σ) (start σ) (end_ σ) m
        (isRunning σ) (algorithm σ) (message σ).
Definition setIsRunning (b : bool) (σ : State) : State :=
  mkApp (rows σ) (cols σ) (heap σ) (grid σ) (start σ) (end_ σ) (mode σ)
        b (algorithm σ) (message σ).
Definition setMessage (msg : string) (σ : State) : State :=
  mkApp (rows σ) (cols σ) (heap σ) (grid σ) (start σ) (end_ σ) (mode σ)
        (isRunning σ) (algorithm σ) msg.

(** *** A state and exception monad *)

Inductive Res (A : Type) :=
  | Ok (a : A) (σ : State)
  | Throw (σ : State).
Arguments Ok {A} a σ.
Arguments Throw {A} σ.

Definition M (A : Type) : Type := State → Res A.

Definition ret {A} (a : A) : M A := λ σ, Ok a σ.
Definition bind {A B} (m : M A) (k : A → M B) : M B :=
  λ σ, match m σ with
       | Ok a σ' => k a σ'
       | Throw σ' => Throw σ'
       end.
Definition throw {A} : M A := λ σ, Throw σ.
Definition modify (f : State → State) : M unit := λ σ, Ok () (f σ).

Notation "'let!' x ':=' m 'in' k" := (bind m (λ x, k))
  (at level 10, x pattern, m at level 100, k at level 200).
Notation "m ';;' k" := (bind m (λ _, k))
  (at level 100, k at level 200, right associativity).

(** Reading a property of a value that may be [undefined]. *)
Definition defined {A} (o : option A) : M A :=
  match o with
  | Some a => ret a
  | None => throw
  end.

(** [arr[i]]; [None] is [undefined]. *)
Definition index {A} (arr : list A) (i : Z) : option A :=
  if bool_decide (0 ≤ i) then arr !! Z.to_nat i else None.

(** Reading an object through a reference.  References never dangle, the
    [None] case only makes the function total. *)
Definition readCell (l : ref) : M Cell :=
  λ σ, match heap σ !! l with
       | Some c => Ok c σ
       | None => Throw σ
       end.

(** [cell.type = t]. *)
Definition writeType (l : ref) (t : CellType) : M unit :=
  modify (λ σ, setHeap (alter (λ c, mkCell (row c) (col c) t) l (heap σ)) σ).

(** An object literal: a new object, distinct from all others. *)
Definition alloc (c : Cell) : M ref :=
  λ σ, let l := fresh (dom (heap σ)) in
       Ok l (setHeap (<[l := c]> (heap σ)) σ).

(** The cell values a grid of references stands for. *)
Definition snapshot (h : gmap ref Cell) (g : list (list ref)) : option Grid :=
  mapM (mapM (λ l, h !! l)) g.

(** *** initializeGrid *)

Fixpoint newRow (i : Z) (js : list Z) : M (list ref) :=
  match js with
  | [] => ret []
  | j :: js' =>
      let! l := alloc (mkCell i j Empty) in
      let! ls := newRow i js' in
      ret (l :: ls)
  end.

Fixpoint newRows (rs : list Z) (cols : Z) : M (list (list ref)) :=
  match rs with
  | [] => ret []
  | i :: rs' =>
      let! rw := newRow i (seqZ 0 cols) in
      let! rws := newRows rs' cols in
      ret (rw :: rws)
  end.

Definition initializeGrid : M unit := λ σ0,
  (let! newGrid := newRows (seqZ 0 (rows σ0)) (cols σ0) in
   modify (setGrid newGrid);;
   modify (setStart None);;
   modify (setEnd None);;
   modify (setMessage EmptyString)) σ0.

(** *** handleCellClick *)

(** [newGrid[cell.row][cell.col].type = 'empty'] for the cell behind [o],
    when [o] is set. *)
Definition clearMark (g : list (list ref)) (o : option ref) : M unit :=
  match o with
  | Some l =>
      let! c := readCell l in
      let! rw := defined (index g (row c)) in
      let! l' := defined (index rw (col c)) in
      writeType l' Empty
  | None => ret ()
  end.

Definition handleCellClick (r c : Z) : M unit := λ σ0,
  if isRunning σ0 then Ok () σ0 else
  (let newGrid := grid σ0 in
   let! rw := defined (index newGrid r) in
   let cell := index rw c in
   match mode σ0 with
   | SetStart =>
       clearMark newGrid (start σ0);;
       let! l := defined cell in
       let! v := readCell l in
       if bool_decide (type v = End) then ret ()
       else
         writeType l Start;;
         modify (setStart (Some l));;
         modify (setMode SetEnd);;
         modify (setGrid newGrid);;
         modify (setMessage EmptyString)
   | SetEnd =>
       clearMark newGrid (end_ σ0);;
       let! l := defined cell in
       let! v := readCell l in
       if bool_decide (type v = Start) then ret ()
       else
         writeType l End;;
         modify (setEnd (Some l));;
         modify (setMode DrawWalls);;
         modify (setGrid newGrid);;
         modify (setMessage EmptyString)
   | DrawWalls =>
       let! l := defined cell in
       let! v := readCell l in
       if bool_decide (type v = Start) || bool_decide (type v = End)
       then ret ()
       else
         writeType l (if bool_decide (type v = Wall) then Empty else Wall);;
         modify (setGrid newGrid);;
         modify (setMessage EmptyString)
   end) σ0.

(** The Mode drop-down, disabled while a run is in progress. *)
Definition selectMode (m : Mode) : M unit := λ σ0,
  if isRunning σ0 then Ok () σ0 else Ok () (setMode m σ0).

(** *** clearPath and clearWalls *)

(** [{...cell, type: f(cell.type)}], as a value. *)
Definition retype (f : CellType → CellType) (c : Cell) : Cell :=
  mkCell (row c) (col c) (f (type c)).

Definition retypeAll (f : CellType → CellType) (cells : Grid) : Grid :=
  fmap (M:=list) (fmap (M:=list) (retype f)) cells.

(** [row.map(cell => ({...cell, type: f(cell.type)}))]. *)
Fixpoint mapRow (f : CellType → CellType) (rw : list ref) : M (list ref) :=
  match rw with
  | [] => ret []
  | l :: rw' =>
      let! c := readCell l in
      let! l' := alloc (retype f c) in
      let! ls := mapRow f rw' in
      ret (l' :: ls)
  end.

Fixpoint mapGrid (f : CellType → CellType) (g : list (list ref))
    : M (list (list ref)) :=
  match g with
  | [] => ret []
  | rw :: g' =>
      let! rw' := mapRow f rw in
      let! rws := mapGrid f g' in
      ret (rw' :: rws)
  end.

Definition withoutOverlay (t : CellType) : CellType :=
  if bool_decide (t = Path) || bool_decide (t = Visited) then Empty else t.

Definition withoutWall (t : CellType) : CellType :=
  if bool_decide (t = Wall) then Empty else t.

Definition clearPath : M unit := λ σ0,
  (let! newGrid := mapGrid withoutOverlay (grid σ0) in
   modify (setGrid newGrid);;
   modify (setMessage EmptyString)) σ0.

Definition clearWalls : M unit := λ σ0,
  (let! newGrid := mapGrid withoutWall (grid σ0) in
   modify (setGrid newGrid);;
   modify (setMessage EmptyString)) σ0.

(** *** visualizePath *)

(** The cell objects of the grid, read as values for a search. *)
Definition readGrid (g : list (list ref)) : M Grid :=
  λ σ, match snapshot (heap σ) g with
       | Some cells => Ok cells σ
       | None => Throw σ
       end.

(** The first loop.  Every cell of [result.visited] is the object the
    grid holds at that cell's coordinates, which is where it is read. *)
Fixpoint animateVisited (g : list (list ref)) (cells : list Cell) : M unit :=
  match cells with
  | [] => ret ()
  | cell :: cells' =>
      let! rw := defined (index g (row cell)) in
      let! l := defined (index rw (col cell)) in
      let! v := readCell l in
      (if bool_decide (type v = Empty)
       then writeType l Visited;; modify (setGrid g)
       else ret ());;
      animateVisited g cells'
  end.

(** The second loop, over [result.path[1 .. length - 2]]. *)
Fixpoint animatePath (g : list (list ref)) (cells : list Cell) : M unit :=
  match cells with
  | [] => ret ()
  | cell :: cells' =>
      let! rw := defined (index g (row cell)) in
      let! l := defined (index rw (col cell)) in
      writeType l Path;;
      modify (setGrid g);;
      animatePath g cells'
  end.

Definition interior {A} (p : list A) : list A :=
  take (length p - 2) (drop 1 p).

(** The run, taken to its end with no other handler in between (they are
    disabled while [isRunning]).  The value returned is the [result] of
    the traversal, [None] when the function returned before any. *)
Definition visualizePath : M (option PathResult) := λ σ0,
  match start σ0, end_ σ0 with
  | Some s, Some e =>
      (modify (setIsRunning true);;
       modify (setMessage EmptyString);;
       let! newGrid := mapGrid withoutOverlay (grid σ0) in
       modify (setGrid newGrid);;
       let! startCell := readCell s in
       let! endCell := readCell e in
       let! cells := readGrid (grid σ0) in
       let! result :=
         match (match algorithm σ0 with
                | BFS => bfs (rows σ0) (cols σ0) cells startCell endCell
                | DFS => dfs (rows σ0) (cols σ0) cells startCell endCell
                end) with
         | Returned result => ret result
         | _ => throw
         end in
       animateVisited (grid σ0) (visited result);;
       (if found result
        then
          animatePath (grid σ0) (interior (path result));;
          modify (setMessage
            ("Path found! Length: " +:+
             pretty (Z.of_nat (length (path result)) - 1) +:+ " steps"))
        else
          modify (setMessage "No path found! The end point is unreachable."));;
       modify (setIsRunning false);;
       ret (Some result)) σ0
  | _, _ =>
      Ok None (setMessage "Please select both start and end points!" σ0)
  end.

(** *** A session *)

Inductive Event :=
  | Click (r c : Z)
  | Select (m : Mode)
  | ClearPath
  | ClearWalls
  | Reset.

Definition handle (ev : Event) : M unit :=
  match ev with
  | Click r c => handleCellClick r c
  | Select m => selectMode m
  | ClearPath => clearPath
  | ClearWalls => clearWalls
  | Reset => initializeGrid
  end.

Fixpoint session (evs : list Event) : M unit :=
  match evs with
  | [] => ret ()
  | ev :: evs' => handle ev;; session evs'
  end.

(** The state a session leaves behind, thrown or not. *)
Definition after (evs : list Event) (σ : State) : State :=
  match session evs σ with
  | Ok _ σ' => σ'
  | Throw σ' => σ'
  end.

(** The types shown on screen, row by row. *)
Definition shown (σ : State) : option (list (list CellType)) :=
  match snapshot (heap σ) (grid σ) with
  | Some cells => Some (map (map type) cells)
  | None => None
  end.

(** The component as first mounted with [rows] by [cols] cells, before
    the effect that calls [initializeGrid]. *)
Definition mounted (rows cols : Z) : State :=
  mkApp rows cols ∅ [] None None SetStart false BFS EmptyString.

(** Start placed at [(0, 0)], end at [(0, 1)], then Set Start chosen
    again in the drop-down. *)
Definition replacing : State :=
  after [Reset; Click 0 0; Click 0 1; Select SetStart] (mounted 5 5).

(** From there: a click on the end cell, Draw Walls, a click on the cell
    that was the start. *)
Definition walledStart : State :=
  after [Click 0 1; Select DrawWalls; Click 0 0] replacing.

(** A start placed and no end. *)
Definition startOnly : State := after [Reset; Click 0 0] (mounted 5 5).

(** A run shown on a grid with one wall. *)
Definition visualized : State :=
  match visualizePath
          (after [Reset; Click 0 0; Click 0 3; Click 1 1] (mounted 5 5)) with
  | Ok _ σ => σ
  | Throw σ => σ
  end.
End App.

(** The cells of [App.visualized]. *)
Definition visualizedGrid : Grid := gridOf
  [ [Start;   Path;    Path;    End;     Empty];
    [Visited; Wall;    Visited; Empty;   Empty];
    [Visited; Visited; Empty;   Empty;   Empty];
    [Visited; Empty;   Empty;   Empty;   Empty];
    [Empty;   Empty;   Empty;   Empty;   Empty] ].

(** ** The rest of the component: colours, inputs, whole sessions *)

(** [getCellColor]; the [default] case is ['empty']. *)
Definition getCellColor (t : CellType) : string :=
  match t with
  | Start => "bg-green-500"
  | End => "bg-red-500"
  | Wall => "bg-gray-800"
  | Path => "bg-yellow-400"
  | Visited => "bg-blue-300"
  | Empty => "bg-white border border-gray-300"
  end.

(** [s.startsWith(p)] and [s.includes(p)]. *)
Fixpoint startsWith (p s : string) : bool :=
  match p, s with
  | EmptyString, _ => true
  | String a p', String b s' => bool_decide (a = b) && startsWith p' s'
  | String _ _, EmptyString => false
  end.

Fixpoint includes (p s : string) : bool :=
  startsWith p s ||
  match s with
  | EmptyString => false
  | String _ s' => includes p s'
  end.

(** The colours of the message box, which is rendered when the message is
    not empty. *)
Definition messageClass (message : string) : string :=
  if includes "found!" message
  then "bg-green-100 text-green-800"
  else "bg-red-100 text-red-800".

(** [parseInt(e.target.value) || 5]: [None] is [NaN], which is falsy, and
    so is [0]. *)
Definition orFive (parsed : option Z) : Z :=
  match parsed with
  | Some n => if bool_decide (n = 0) then 5 else n
  | None => 5
  end.

(** [Math.max(5, Math.min(hi, parseInt(e.target.value) || 5))]. *)
Definition clampDimension (hi : Z) (parsed : option Z) : Z :=
  Z.max 5 (Z.min hi (orFive parsed)).

Definition setRows (n : Z) (σ : App.State) : App.State :=
  App.mkApp n (App.cols σ) (App.heap σ) (App.grid σ) (App.start σ)
            (App.end_ σ) (App.mode σ) (App.isRunning σ) (App.algorithm σ)
            (App.message σ).
Definition setCols (n : Z) (σ : App.State) : App.State :=
  App.mkApp (App.rows σ) n (App.heap σ) (App.grid σ) (App.start σ)
            (App.end_ σ) (App.mode σ) (App.isRunning σ) (App.algorithm σ)
            (App.message σ).
Definition setAlgorithm (a : App.Algorithm) (σ : App.State) : App.State :=
  App.mkApp (App.rows σ) (App.cols σ) (App.heap σ) (App.grid σ) (App.start σ)
            (App.end_ σ) (App.mode σ) (App.isRunning σ) a (App.message σ).

(** The Rows and Columns inputs, disabled while a run is in progress.  A
    new value gives [initializeGrid] a new identity, on which the effect
    calls it; setting the value the state already has renders nothing. *)
Definition changeRows (parsed : option Z) : App.M unit := λ σ0,
  if App.isRunning σ0 then App.Ok () σ0 else
  let n := clampDimension 30 parsed in
  if bool_decide (n = App.rows σ0) then App.Ok () σ0
  else App.initializeGrid (setRows n σ0).

Definition changeCols (parsed : option Z) : App.M unit := λ σ0,
  if App.isRunning σ0 then App.Ok () σ0 else
  let n := clampDimension 40 parsed in
  if bool_decide (n = App.cols σ0) then App.Ok () σ0
  else App.initializeGrid (setCols n σ0).

(** The Algorithm drop-down. *)
Definition selectAlgorithm (a : App.Algorithm) : App.M unit := λ σ0,
  if App.isRunning σ0 then App.Ok () σ0 else App.Ok () (setAlgorithm a σ0).

(** The Visualize Path button, disabled while running and as long as the
    start or the end is missing. *)
Definition pressVisualize : App.M unit := λ σ0,
  if App.isRunning σ0 || bool_decide (App.start σ0 = None) ||
     bool_decide (App.end_ σ0 = None)
  then App.Ok () σ0
  else App.bind App.visualizePath (λ _, App.ret ()) σ0.

(** The Clear Path, Clear Walls and Reset Grid buttons, disabled while
    running. *)
Definition pressButton (h : App.M unit) : App.M unit := λ σ0,
  if App.isRunning σ0 then App.Ok () σ0 else h σ0.

(** What a user can do with the page. *)
Inductive Action :=
  | ClickCell (r c : Z)
  | SelectMode (m : App.Mode)
  | SelectAlgorithm (a : App.Algorithm)
  | ChangeRows (parsed : option Z)
  | ChangeCols (parsed : option Z)
  | PressVisualize
  | PressClearPath
  | PressClearWalls
  | PressReset.

Definition act (a : Action) : App.M unit :=
  match a with
  | ClickCell r c => App.handleCellClick r c
  | SelectMode m => App.selectMode m
  | SelectAlgorithm a => selectAlgorithm a
  | ChangeRows parsed => changeRows parsed
  | ChangeCols parsed => changeCols parsed
  | PressVisualize => pressVisualize
  | PressClearPath => pressButton App.clearPath
  | PressClearWalls => pressButton App.clearWalls
  | PressReset => pressButton App.initializeGrid
  end.

(** [grid[r][c]], the reference. *)
Definition refAt (g : list (list App.ref)) (r c : Z) : option App.ref :=
  rw ← App.index g r; App.index rw c.

(** The page renders one clickable [div] per cell object of the grid
    array, so a click is a click on a cell that is there. *)
Definition offered (σ : App.State) (a : Action) : Prop :=
  match a with
  | ClickCell r c => is_Some (refAt (App.grid σ) r c)
  | _ => True
  end.

(** The states of the page: the one after the first render, of 15 rows
    and 25 columns, and its effect; and the ones actions lead to. *)
Inductive reachable : App.State → Prop :=
  | reach_mount σ :
      App.initializeGrid (App.mounted 15 25) = App.Ok () σ → reachable σ
  | reach_act σ a σ' :
      reachable σ → offered σ a → act a σ = App.Ok () σ' → reachable σ'.

(** [cells[r][c].type = t], on cell values. *)
Definition withType (t : CellType) (x : Cell) : Cell :=
  mkCell (row x) (col x) t.

Definition setType (cells : Grid) (r c : Z) (t : CellType) : Grid :=
  alter (alter (withType t) (Z.to_nat c)) (Z.to_nat r) cells.

(** Every cell shown with type [t] is at the coordinates of the cell
    behind [o]. *)
Definition marked (t : CellType) (o : option App.ref) (h : gmap App.ref Cell)
    (cells : Grid) : Prop :=
  ∀ r c x, cellAt cells r c = Some x → type x = t →
    ∃ l y, o = Some l ∧ h !! l = Some y ∧ coord y = (r, c).

(** A reference to a cell object with coordinates of the grid. *)
Definition placed (rows cols : Z) (h : gmap App.ref Cell) (o : option App.ref)
    : Prop :=
  ∀ l, o = Some l →
    ∃ y, h !! l = Some y ∧ insideb rows cols (coord y) = true.

(** What the handlers rely on and keep: the grid array holds [rows] by
    [cols] cell objects, each with its own coordinates; [start] and [end]
    are cell objects with coordinates of the grid; the green and the red
    cell, if any, are where [start] and [end] say; no run is in progress. *)
Record wf_state (σ : App.State) : Prop := {
  wf_cells : ∃ cells,
    App.snapshot (App.heap σ) (App.grid σ) = Some cells ∧
    wf_grid (App.rows σ) (App.cols σ) cells ∧
    marked Start (App.start σ) (App.heap σ) cells ∧
    marked End (App.end_ σ) (App.heap σ) cells;
  wf_start : placed (App.rows σ) (App.cols σ) (App.heap σ) (App.start σ);
  wf_end : placed (App.rows σ) (App.cols σ) (App.heap σ) (App.end_ σ);
  wf_idle : App.isRunning σ = false }.

(** The types a run paints and repaints. *)
Definition overlayOrEmpty (t : CellType) : Prop :=
  t = Empty ∨ t = Path ∨ t = Visited.

(** The traversal [visualizePath] runs. *)
Definition chosenSearch (a : App.Algorithm) :=
  match a with
  | App.BFS => bfs
  | App.DFS => dfs
  end.

(** [h'] has every object of [h], at its coordinates. *)
Definition keeps (h h' : gmap App.ref Cell) : Prop :=
  ∀ l y, h !! l = Some y → ∃ y', h' !! l = Some y' ∧ coord y' = coord y.

(** The coordinates of the object behind [o]. *)
Definition coordOf (h : gmap App.ref Cell) (o : option App.ref)
    : option (Z * Z) :=
  l ← o; coord <$> h !! l.

(** [if (o) newGrid[o.row][o.col].type = 'empty'], on cell values. *)
Definition unmark (cells : Grid) (u : option (Z * Z)) : Grid :=
  match u with
  | Some (r, c) => setType cells r c Empty
  | None => cells
  end.

(** [h'] is [h] but for the types of objects among [ls], changed as [R]
    allows. *)
Definition repainted (R : CellType → CellType → Prop) (ls : list App.ref)
    (h h' : gmap App.ref Cell) : Prop :=
  ∀ l, h' !! l = h !! l ∨
       (l ∈ ls ∧ ∃ y t, h !! l = Some y ∧ h' !! l = Some (withType t y) ∧
                        R (type y) t).

(** The references [grid[cell.row][cell.col]] for a list of cells. *)
Definition refsAt (g : list (list App.ref)) (cells : list Cell)
    : list App.ref :=
  omap (λ v, refAt g (row v) (col v)) cells.

(** The message a run ends with. *)
Definition runMessage (result : PathResult) : string :=
  if found result
  then "Path found! Length: " +:+
       pretty (Z.of_nat (length (path result)) - 1) +:+ " steps"
  else "No path found! The end point is unreachable.".

(** What a run may do to a cell: leave it as it is, or repaint it among
    empty, visited and path. *)
Definition repaintedCell (x x' : Cell) : Prop :=
  coord x' = coord x ∧
  (type x' = type x ∨ (overlayOrEmpty (type x) ∧ overlayOrEmpty (type x'))).

(** Sessions that can be run: the actions one after the other, as long as
    the page offers them and nothing throws. *)
Definition offeredb (σ : App.State) (a : Action) : bool :=
  match a with
  | ClickCell r c =>
      match refAt (App.grid σ) r c with
      | Some _ => true
      | None => false
      end
  | _ => true
  end.

Fixpoint perform (acts : list Action) (σ : App.State) : option App.State :=
  match acts with
  | [] => Some σ
  | a :: acts' =>
      if offeredb σ a
      then match act a σ with
           | App.Ok _ σ' => perform acts' σ'
           | App.Throw _ => None
           end
      else None
  end.

(** The page as first shown. *)
Definition firstShown : App.State :=
  App.after [App.Reset] (App.mounted 15 25).

Definition stateAfter (acts : list Action) : App.State :=
  default firstShown (perform acts firstShown).
(** ** Keys *)

Lemma pretty_N_go_comma_free x s : comma_free s → comma_free (pretty_N_go x s).
Proof.
  revert s. induction (N.lt_wf_0 x) as [x _ IH]; intros s Hs.
  destruct (decide (x = 0)%N) as [->|Hx]; [by rewrite pretty_N_go_0|].
  rewrite pretty_N_go_step by lia. apply IH.
  - apply N.div_lt; lia.
  - split; [|done]. unfold pretty_N_char. by repeat case_match.
Qed.

Lemma pretty_N_comma_free (x : N) : comma_free (pretty x).
Proof.
  unfold pretty, pretty_N. case_decide.
  - by split.
  - by apply pretty_N_go_comma_free.
Qed.

Lemma pretty_Z_comma_free (z : Z) : comma_free (pretty z).
Proof.
  destruct z as [|p|p]; unfold pretty, pretty_Z.
  - by split.
  - apply pretty_N_comma_free.
  - split; [done|]. apply pretty_N_comma_free.
Qed.

Lemma comma_split s1 s2 t1 t2 :
  comma_free s1 → comma_free s2 →
  s1 +:+ "," +:+ t1 = s2 +:+ "," +:+ t2 → s1 = s2 ∧ t1 = t2.
Proof.
  revert s2. induction s1 as [|a s1 IH]; intros [|b s2]; simpl.
  - intros _ _ ?. by simplify_eq.
  - intros _ [Hb _] ?. by simplify_eq.
  - intros [Ha _] _ ?. by simplify_eq.
  - intros [_ H1] [_ H2] ?. simplify_eq. by destruct (IH s2 H1 H2) as [-> ->].
Qed.

(** Two coordinates share a key only when they are the same coordinate. *)
Lemma key_inj r c r' c' : key r c = key r' c' → r = r' ∧ c = c'.
Proof.
  unfold key. intros H.
  apply comma_split in H as [H1 H2]; auto using pretty_Z_comma_free.
  split; by apply (inj pretty).
Qed.

Lemma key_ne r c r' c' : (r, c) ≠ (r', c') → key r c ≠ key r' c'.
Proof. intros Hne Hk. apply key_inj in Hk as [-> ->]. done. Qed.

(** ** Well-formed grids *)

Lemma insideb_true rows cols u :
  insideb rows cols u = true ↔ (0 ≤ u.1 < rows ∧ 0 ≤ u.2 < cols).
Proof.
  unfold insideb. rewrite !andb_true_iff, !bool_decide_eq_true. lia.
Qed.

Lemma wf_cellAt rows cols grid r c :
  wf_grid rows cols grid → 0 ≤ r < rows → 0 ≤ c < cols →
  ∃ cell, cellAt grid r c = Some cell ∧ row cell = r ∧ col cell = c.
Proof.
  intros Hwf Hr Hc. unfold cellAt.
  rewrite !bool_decide_true by lia. simpl.
  assert (Hrow := f_equal (λ l, l !! Z.to_nat r) Hwf). cbv beta in Hrow.
  rewrite !list_lookup_fmap in Hrow.
  rewrite (lookup_seqZ_lt 0 rows (Z.to_nat r)) in Hrow by lia.
  destruct (grid !! Z.to_nat r) as [rw|] eqn:Hrw; simpl in Hrow; [|done].
  injection Hrow as Hrow.
  assert (Hcell := f_equal (λ l, l !! Z.to_nat c) Hrow). cbv beta in Hcell.
  rewrite !list_lookup_fmap in Hcell.
  rewrite (lookup_seqZ_lt 0 cols (Z.to_nat c)) in Hcell by lia.
  destruct (rw !! Z.to_nat c) as [cell|] eqn:Hc'; simpl in Hcell; [|done].
  exists cell. unfold coord in Hcell. split; [done|].
  injection Hcell as -> ->. lia.
Qed.

Lemma cellAt_coord rows cols grid r c cell :
  wf_grid rows cols grid → cellAt grid r c = Some cell → coord cell = (r, c).
Proof.
  intros Hwf. unfold cellAt.
  destruct (bool_decide (0 ≤ r)) eqn:Hr; [|done].
  destruct (bool_decide (0 ≤ c)) eqn:Hc; [|done].
  apply bool_decide_eq_true in Hr, Hc. simpl.
  destruct (grid !! Z.to_nat r) as [rw|] eqn:Hrw; simpl; [|done].
  intros Hcell.
  assert (Hrow := f_equal (λ l, l !! Z.to_nat r) Hwf). cbv beta in Hrow.
  rewrite !list_lookup_fmap, Hrw in Hrow.
  destruct (seqZ 0 rows !! Z.to_nat r) as [i|] eqn:Hi; simpl in Hrow; [|done].
  apply lookup_seqZ in Hi as [-> _]. injection Hrow as Hrow.
  assert (Hcol := f_equal (λ l, l !! Z.to_nat c) Hrow). cbv beta in Hcol.
  rewrite !list_lookup_fmap, Hcell in Hcol.
  destruct (seqZ 0 cols !! Z.to_nat c) as [j|] eqn:Hj; simpl in Hcol; [|done].
  apply lookup_seqZ in Hj as [-> _]. injection Hcol as Hrc Hcc.
  unfold coord. f_equal; lia.
Qed.

Lemma blankGrid_wf rows cols : wf_grid rows cols (blankGrid rows cols).
Proof.
  unfold wf_grid, blankGrid. rewrite <-list_fmap_compose.
  apply list_fmap_ext. intros _ i _. simpl.
  rewrite <-list_fmap_compose. by apply list_fmap_ext.
Qed.

(** ** The potential of a search state *)

Lemma allKeys_inside rows cols u :
  insideb rows cols u = true → key u.1 u.2 ∈ allKeys rows cols.
Proof.
  rewrite insideb_true. intros [Hr Hc]. unfold allKeys, allCoords.
  apply elem_of_list_to_set, list_elem_of_fmap. exists u. split; [done|].
  apply list_elem_of_bind. exists u.1. split.
  - apply list_elem_of_fmap. exists u.2. split; [by destruct u|].
    apply elem_of_seqZ. lia.
  - apply elem_of_seqZ. lia.
Qed.

Lemma length_allCoords rows cols :
  (length (allCoords rows cols) ≤ Z.to_nat (rows * cols))%nat.
Proof.
  unfold allCoords.
  assert (∀ l : list Z,
    length (i ← l; (λ j, (i, j)) <$> seqZ 0 cols) = (length l * Z.to_nat cols)%nat)
    as Hlen.
  { induction l as [|i l IH]; [done|].
    rewrite bind_cons, length_app, length_fmap, length_seqZ, IH. simpl. lia. }
  rewrite Hlen, length_seqZ. nia.
Qed.

Lemma size_list_to_set_le (l : list string) :
  (size (list_to_set (C:=gset string) l) ≤ length l)%nat.
Proof.
  induction l as [|k l IH].
  - by rewrite list_to_set_nil, size_empty.
  - rewrite list_to_set_cons, size_union_alt, size_singleton. simpl.
    assert (size (list_to_set (C:=gset string) l ∖ {[k]})
            ≤ size (list_to_set (C:=gset string) l))%nat.
    { apply subseteq_size, subseteq_difference_l. done. }
    lia.
Qed.

Lemma size_allKeys rows cols :
  (size (allKeys rows cols) ≤ Z.to_nat (rows * cols))%nat.
Proof.
  unfold allKeys. etrans; [apply size_list_to_set_le|].
  rewrite length_fmap. apply length_allCoords.
Qed.

(** ** One round of the inner loop *)

Lemma shift_ok : take_ok shift.
Proof. intros [|x l]; simpl; done. Qed.

Lemma pop_ok : take_ok pop.
Proof.
  intros l. unfold pop. destruct (reverse l) as [|x r] eqn:Hr.
  - apply (f_equal reverse) in Hr. by rewrite reverse_involutive in Hr.
  - apply (f_equal reverse) in Hr. rewrite reverse_involutive in Hr.
    rewrite Hr, reverse_cons. by rewrite Permutation_app_comm.
Qed.

Lemma directions_NoDup : NoDup directions.
Proof. compute_done. Qed.

Section Engine.
Context (rows cols : Z) (grid : Grid) (Hwf : wf_grid rows cols grid).

Lemma enterable_eq c c' :
  enterable rows cols grid c → enterable rows cols grid c' →
  coord c = coord c' → c = c'.
Proof.
  intros (Hc & _ & _) (Hc' & _ & _) [= Hr Hk].
  rewrite Hr, Hk, Hc' in Hc. by injection Hc.
Qed.

Lemma enterable_open c :
  enterable rows cols grid c → openb rows cols grid (coord c) = true.
Proof.
  intros (Hc & Hin & Hty). unfold openb. rewrite Hin. simpl.
  rewrite Hc. by apply bool_decide_eq_true.
Qed.

Lemma open_enterable u :
  openb rows cols grid u = true →
  ∃ c, enterable rows cols grid c ∧ coord c = u.
Proof.
  unfold openb. intros [Hin Hc]%andb_true_iff.
  destruct (cellAt grid u.1 u.2) as [c|] eqn:Hat; [|done].
  apply bool_decide_eq_true in Hc.
  assert (coord c = u) as Hu.
  { rewrite (cellAt_coord _ _ _ _ _ _ Hwf Hat). by destruct u. }
  exists c. split; [|done]. unfold enterable.
  assert (row c = u.1 ∧ col c = u.2) as [-> ->] by (by rewrite <-Hu).
  by rewrite Hu.
Qed.

(** A direction either discovers the one enterable cell that lies there,
    or leaves the locals alone because no unseen enterable cell does. *)
Lemma visit_spec cell p st d u :
  u = (row cell + d.1, col cell + d.2) →
  (∃ c, enterable rows cols grid c ∧ coord c = u ∧
        (keyOf c ∉ visitedSet st) ∧
        (visit rows cols grid cell p st d =
          Some (mkState (frontier st ++ [(c, p ++ [c])])
                        ({[keyOf c]} ∪ visitedSet st)
                        (visitedCells st ++ [c])))) ∨
  ((visit rows cols grid cell p st d = Some st) ∧
   ∀ c, enterable rows cols grid c → coord c = u → keyOf c ∈ visitedSet st).
Proof.
  destruct u as [r k]. intros [= Hr Hk]. unfold visit. rewrite <-Hr, <-Hk.
  change (bool_decide (0 ≤ r) && bool_decide (r < rows) &&
          bool_decide (0 ≤ k) && bool_decide (k < cols))
    with (insideb rows cols (r, k)).
  destruct (insideb rows cols (r, k)) eqn:Hin; simpl.
  - destruct (bool_decide (key r k ∈ visitedSet st)) eqn:Hseen; simpl.
    + right. split; [done|]. intros c _ [= <- <-].
      by apply bool_decide_eq_true in Hseen.
    + apply bool_decide_eq_false in Hseen.
      pose proof Hin as Hin'. apply insideb_true in Hin' as [Hr' Hk']. simpl in Hr', Hk'.
      destruct (wf_cellAt _ _ _ _ _ Hwf Hr' Hk') as (c & Hat & Hrow & Hcol).
      rewrite Hat. simpl.
      destruct (bool_decide (type c ≠ Wall)) eqn:Hty.
      * left. exists c. apply bool_decide_eq_true in Hty.
        unfold enterable, keyOf, coord. rewrite Hrow, Hcol. done.
      * right. split; [done|]. intros c' (Hat' & _ & Hty') [= Hr'' Hk''].
        rewrite Hr'', Hk'', Hat in Hat'. injection Hat' as <-.
        by apply bool_decide_eq_false in Hty.
  - right. split; [done|]. intros c (_ & Hin' & _) Hc.
    rewrite Hc in Hin'. congruence.
Qed.

(** All four directions: the unseen enterable neighbours of [cell] are
    appended, in the order of [directions], to the frontier and to
    [visitedCells], and their keys enter the set. *)
Lemma expand_spec cell p ds st :
  NoDup ds →
  ∃ new,
    expand rows cols grid cell p ds st =
      Some (mkState (frontier st ++ ((λ c, (c, p ++ [c])) <$> new))
                    (list_to_set (keyOf <$> new) ∪ visitedSet st)
                    (visitedCells st ++ new)) ∧
    NoDup (coord <$> new) ∧
    ∀ c, c ∈ new ↔
         enterable rows cols grid c ∧
         (∃ d, d ∈ ds ∧ coord c = (row cell + d.1, col cell + d.2)) ∧
         keyOf c ∉ visitedSet st.
Proof.
  revert st. induction ds as [|d ds IH]; intros st Hnd.
  - exists []. simpl. rewrite !app_nil_r. split; [|split].
    + f_equal. destruct st as [f S V]; simpl. f_equal.
      by rewrite (left_id_L ∅ (∪)).
    + constructor.
    + intros c. split; [by intros ?%elem_of_nil|].
      by intros (_ & (d & ?%elem_of_nil & _) & _).
  - apply NoDup_cons in Hnd as [Hd Hnd]. simpl.
    destruct (visit_spec cell p st d _ eq_refl) as
      [(c1 & Hent & Hu & Hfresh & ->)|[-> Hnone]]; simpl.
    + destruct (IH (mkState (frontier st ++ [(c1, p ++ [c1])])
                            ({[keyOf c1]} ∪ visitedSet st)
                            (visitedCells st ++ [c1])) Hnd)
        as (new & -> & Hnd' & Hnew). simpl in *.
      assert (∀ c, c ∈ new → coord c ≠ coord c1) as Hother.
      { intros c (_ & _ & Hk)%Hnew Heq. apply Hk.
        unfold keyOf. injection Heq as -> ->.
        apply elem_of_union. left. by apply elem_of_singleton. }
      exists (c1 :: new). split; [|split].
      * rewrite fmap_cons, <-!app_assoc. simpl. f_equal. f_equal.
        apply set_eq. intros k. rewrite !elem_of_union. tauto.
      * rewrite fmap_cons. apply NoDup_cons. split; [|done].
        intros (c & Hc & Hin)%list_elem_of_fmap. by eapply Hother.
      * intros c. rewrite elem_of_cons, Hnew. split.
        -- intros [->|(He & (d' & Hd' & Hcd) & Hk)].
           ++ split; [done|]. split; [|done]. exists d. split; [left|done].
           ++ split; [done|]. split; [|intros ?; apply Hk, elem_of_union; by right].
              exists d'. split; [by right|done].
        -- intros (He & (d' & Hd' & Hcd) & Hk).
           apply elem_of_cons in Hd' as [->|Hd'].
           ++ left. apply enterable_eq; [done..|congruence].
           ++ right. split; [done|]. split; [by exists d'|].
              intros [Heq%elem_of_singleton|?]%elem_of_union; [|done].
              unfold keyOf in Heq. apply key_inj in Heq as [Hr Hc].
              assert (coord c = coord c1) as Hcc by (unfold coord; congruence).
              rewrite Hcd, Hu in Hcc. injection Hcc as Hr' Hc'.
              assert (d' = d) as -> by (destruct d, d'; simpl in *; f_equal; lia).
              done.
    + destruct (IH st Hnd) as (new & -> & Hnd' & Hnew).
      exists new. split; [done|]. split; [done|].
      intros c. rewrite Hnew. split.
      * intros (He & (d' & Hd' & Hcd) & Hk).
        split; [done|]. split; [|done]. exists d'. split; [by right|done].
      * intros (He & (d' & Hd' & Hcd) & Hk).
        split; [done|]. split; [|done].
        apply elem_of_cons in Hd' as [->|Hd']; [|by exists d'].
        destruct Hk. by apply Hnone.
Qed.
End Engine.

(** ** The invariant of the loop *)

Section Invariant.
Context (rows cols : Z) (grid : Grid) (Hwf : wf_grid rows cols grid).

Lemma keyOf_coord c c' : keyOf c = keyOf c' ↔ coord c = coord c'.
Proof.
  unfold keyOf, coord. split.
  - by intros [-> ->]%key_inj.
  - by intros [= -> ->].
Qed.

Lemma keyOf_key c u : coord c = u → keyOf c = key u.1 u.2.
Proof. by intros <-. Qed.

Lemma potential_step st x rest new (f : Cell → Cell * list Cell) V :
  frontier st ≡ₚ x :: rest → NoDup (coord <$> new) →
  (∀ w, w ∈ new → enterable rows cols grid w ∧ keyOf w ∉ visitedSet st) →
  (potential rows cols
     (mkState (rest ++ (f <$> new))
              (list_to_set (keyOf <$> new) ∪ visitedSet st) V)
   < potential rows cols st)%nat.
Proof.
  intros Hperm Hnd Hnew. unfold potential. simpl.
  rewrite Hperm, length_app, length_fmap. simpl.
  set (K := list_to_set (keyOf <$> new) : gset string).
  set (A := allKeys rows cols). set (S0 := visitedSet st).
  assert (size K = length new) as HK.
  { unfold K. rewrite size_list_to_set, length_fmap; [done|].
    clear -Hnd. induction new as [|w new IH]; [constructor|].
    rewrite fmap_cons in Hnd. apply NoDup_cons in Hnd as [Hw Hnd].
    rewrite fmap_cons. apply NoDup_cons. split; [|by apply IH].
    intros (w' & Hk & Hw')%list_elem_of_fmap. apply Hw.
    apply list_elem_of_fmap. exists w'. split; [|done]. by apply keyOf_coord. }
  assert (K ⊆ A ∖ S0) as Hsub.
  { intros k (w & -> & Hw)%elem_of_list_to_set%list_elem_of_fmap.
    destruct (Hnew w Hw) as [(_ & Hin & _) Hk].
    apply elem_of_difference. split; [|done].
    by apply (allKeys_inside rows cols (coord w)). }
  clearbody K A S0.
  assert (A ∖ (K ∪ S0) = (A ∖ S0) ∖ K) as ->.
  { apply set_eq. intros k.
    rewrite !elem_of_difference, elem_of_union. tauto. }
  rewrite size_difference by done.
  apply subseteq_size in Hsub. lia.
Qed.

Context (s e : Cell).

Lemma trail_walk c p :
  trail rows cols grid s c p →
  ∃ n, length p = S n ∧ walk rows cols grid n (coord s) (coord c).
Proof.
  induction 1 as [|c p w _ (n & Hlen & Hwalk) Hent Hnb].
  - exists 0%nat. split; [done|]. constructor.
  - exists (S n). split.
    + rewrite length_app, Hlen. simpl. lia.
    + econstructor; [done|]. split; [done|]. by apply enterable_open.
Qed.

Lemma Inv_init :
  Inv rows cols grid s e (mkState [(s, [s])] {[keyOf s]} []).
Proof.
  split; simpl.
  - intros c p [= -> ->]%list_elem_of_singleton. split; [constructor|].
    by apply elem_of_singleton.
  - intros k. rewrite elem_of_singleton. split; [by left|].
    intros [->|(c & []%elem_of_nil & _)]. done.
  - by intros c ?%elem_of_nil.
  - constructor.
  - by intros ?%elem_of_nil.
  - intros u Hu%elem_of_singleton. left. exists s, [s].
    split; [by apply list_elem_of_singleton|].
    symmetry in Hu. by apply key_inj in Hu as [? ?]; destruct u; simplify_eq/=.
Qed.

Lemma Inv_step st c p rest new :
  Inv rows cols grid s e st → frontier st ≡ₚ (c, p) :: rest → coord c ≠ coord e →
  NoDup (coord <$> new) →
  (∀ w, w ∈ new ↔
        enterable rows cols grid w ∧
        (∃ d, d ∈ directions ∧ coord w = (row c + d.1, col c + d.2)) ∧
        keyOf w ∉ visitedSet st) →
  Inv rows cols grid s e (mkState (rest ++ ((λ w, (w, p ++ [w])) <$> new))
               (list_to_set (keyOf <$> new) ∪ visitedSet st)
               (visitedCells st ++ new)).
Proof.
  intros [Hfr Hset Hcells Hnd Hstart Hclosed] Hperm Hne Hnd' Hnew.
  assert (∀ x, x ∈ frontier st ↔ x = (c, p) ∨ x ∈ rest) as Hin.
  { intros x. by rewrite Hperm, elem_of_cons. }
  assert (∀ w, w ∈ new → keyOf w ∈ list_to_set (C:=gset string) (keyOf <$> new))
    as HinK.
  { intros w Hw. apply elem_of_list_to_set, list_elem_of_fmap. eauto. }
  split; simpl.
  - intros c' p' [Hold|(w & [= -> ->] & Hw)%list_elem_of_fmap]%elem_of_app.
    + destruct (Hfr c' p') as [? ?]; [apply Hin; by right|].
      split; [done|]. apply elem_of_union. by right.
    + destruct (Hfr c p) as [Htr _]; [apply Hin; by left|].
      apply Hnew in Hw as Hw'. destruct Hw' as (Hent & (d & Hd & Hcd) & _).
      split.
      * eapply trail_snoc; [exact Htr|done|by exists d].
      * apply elem_of_union. left. by apply HinK.
  - intros k. rewrite elem_of_union, Hset, elem_of_list_to_set, list_elem_of_fmap.
    split.
    + intros [(w & -> & Hw)|[->|(v & Hv & ->)]].
      * right. exists w. split; [|done]. apply elem_of_app. by right.
      * by left.
      * right. exists v. split; [|done]. apply elem_of_app. by left.
    + intros [->|(v & [Hv|Hv]%elem_of_app & ->)].
      * right. by left.
      * right. right. by exists v.
      * left. by exists v.
  - intros w [Hw|Hw]%elem_of_app; [by apply Hcells|]. by apply Hnew in Hw as [? _].
  - rewrite fmap_app. apply NoDup_app. split; [done|]. split; [|done].
    intros u (v & -> & Hv)%list_elem_of_fmap (w & Hvw & Hw)%list_elem_of_fmap.
    apply Hnew in Hw as (_ & _ & Hk). apply Hk, Hset. right.
    exists v. split; [done|]. by apply keyOf_coord.
  - rewrite fmap_app. intros [Hs|(w & Hsw & Hw)%list_elem_of_fmap]%elem_of_app;
      [done|].
    apply Hnew in Hw as (_ & _ & Hk). apply Hk, Hset. left.
    by apply keyOf_coord.
  - intros u [Hk|Hu]%elem_of_union.
    + apply elem_of_list_to_set, list_elem_of_fmap in Hk as (w & Hk & Hw).
      left. exists w, (p ++ [w]). split.
      * apply elem_of_app. right. apply list_elem_of_fmap. by exists w.
      * symmetry in Hk. apply key_inj in Hk as [? ?].
        unfold coord. destruct u; simplify_eq/=. done.
    + destruct (Hclosed u Hu) as [(c' & p' & [[= -> ->]|Hr]%Hin & Hcu)|[Hue Hall]].
      * right. split; [by rewrite <-Hcu|]. intros v [Hnb Hopen].
        destruct (open_enterable _ _ _ Hwf _ Hopen) as (w & Hent & Hwv).
        rewrite <-(keyOf_key w v Hwv).
        destruct (decide (keyOf w ∈ visitedSet st)) as [Hseen|Hnot].
        -- apply elem_of_union. by right.
        -- apply elem_of_union. left. apply HinK, Hnew.
           split; [done|]. split; [|done].
           destruct Hnb as (d & Hd & Hv). exists d. split; [done|].
           by rewrite Hwv, Hv, <-Hcu.
      * left. exists c', p'. split; [|done]. apply elem_of_app. by left.
      * right. split; [done|]. intros v Hv. apply elem_of_union. right. eauto.
Qed.

(** With nothing left in the frontier, the seen coordinates are closed
    under moves, so they include whatever a walk from the start reaches;
    and the end is not among them. *)
Lemma Inv_exhausted st n v :
  Inv rows cols grid s e st → frontier st = [] → walk rows cols grid n (coord s) v →
  key v.1 v.2 ∈ visitedSet st ∧ v ≠ coord e.
Proof.
  intros HI Hnil Hwalk.
  assert (∀ u, key u.1 u.2 ∈ visitedSet st →
               u ≠ coord e ∧ ∀ v, edge rows cols grid u v →
                                  key v.1 v.2 ∈ visitedSet st) as Hcl.
  { intros u Hu. destruct (inv_closed _ _ _ _ _ _ HI u Hu)
      as [(c & p & Hin & _)|?]; [|done].
    rewrite Hnil in Hin. by apply elem_of_nil in Hin. }
  assert (key (coord s).1 (coord s).2 ∈ visitedSet st) as Hs.
  { apply (inv_set _ _ _ _ _ _ HI). left. reflexivity. }
  assert (key v.1 v.2 ∈ visitedSet st) as Hv.
  { revert Hs Hwalk. generalize (coord s). intros a Ha Hwalk.
    induction Hwalk as [a|n a b c _ IH Hedge]; [done|].
    by apply (Hcl b (IH Ha)). }
  split; [done|]. by apply Hcl.
Qed.
End Invariant.

(** ** The loop *)

Section Loop.
Context (rows cols : Z) (grid : Grid) (Hwf : wf_grid rows cols grid).
Context (take : list (Cell * list Cell) →
                option ((Cell * list Cell) * list (Cell * list Cell))).
Context (Htake : take_ok take).
Context (s e : Cell).

Lemma at_end_spec c :
  bool_decide (row c = row e) && bool_decide (col c = col e) = true ↔
  coord c = coord e.
Proof.
  rewrite andb_true_iff, !bool_decide_eq_true. unfold coord.
  split; [by intros [-> ->]|by intros [= -> ->]].
Qed.

(** Hoare-style rule for the [while] loop, total: an invariant kept by
    every round gives a returned result that satisfies what the two exits
    establish, as soon as the fuel exceeds the potential. *)
Lemma loop_rule (I : SearchState → Prop) (Q : PathResult → Prop) :
  (∀ st, I st → frontier st = [] →
         Q (mkResult [] (visitedCells st) false)) →
  (∀ st c p rest, I st → frontier st ≡ₚ (c, p) :: rest →
         coord c = coord e → Q (mkResult p (visitedCells st) true)) →
  (∀ st c p rest new,
     I st → take (frontier st) = Some ((c, p), rest) →
     coord c ≠ coord e → NoDup (coord <$> new) →
     (∀ w, w ∈ new ↔
           enterable rows cols grid w ∧
           (∃ d, d ∈ directions ∧ coord w = (row c + d.1, col c + d.2)) ∧
           keyOf w ∉ visitedSet st) →
     I (mkState (rest ++ ((λ w, (w, p ++ [w])) <$> new))
                (list_to_set (keyOf <$> new) ∪ visitedSet st)
                (visitedCells st ++ new))) →
  ∀ fuel st, I st → (potential rows cols st < fuel)%nat →
    ∃ r, loop rows cols grid take fuel e st = Returned r ∧ Q r.
Proof.
  intros Hempty Hfound Hstep.
  induction fuel as [|fuel IH]; intros st HI Hpot; [lia|]. cbn [loop].
  pose proof (Htake (frontier st)) as Ht.
  destruct (take (frontier st)) as [[[c p] rest]|] eqn:Htk.
  - destruct (bool_decide (row c = row e) && bool_decide (col c = col e))
      eqn:Hend.
    + apply at_end_spec in Hend. eexists. split; [done|]. by eapply Hfound.
    + assert (coord c ≠ coord e) as Hne.
      { intros Heq%at_end_spec. congruence. }
      destruct (expand_spec rows cols grid Hwf c p directions
                  (mkState rest (visitedSet st) (visitedCells st))
                  directions_NoDup) as (new & -> & Hnd & Hnew).
      cbn [frontier visitedSet visitedCells] in *. apply IH.
      * by eapply Hstep.
      * eapply Nat.lt_le_trans; [|apply Nat.lt_succ_r, Hpot].
        eapply potential_step; [exact Ht|done|].
        intros w Hw. apply Hnew in Hw as (? & _ & ?). done.
  - eexists. split; [done|]. by apply Hempty.
Qed.

(** More fuel never changes a returned result. *)
Lemma loop_fuel_mono fuel fuel' st r :
  (fuel ≤ fuel')%nat →
  loop rows cols grid take fuel e st = Returned r →
  loop rows cols grid take fuel' e st = Returned r.
Proof.
  revert fuel' st. induction fuel as [|fuel IH]; intros [|fuel'] st Hle;
    cbn [loop]; try done; try lia.
  destruct (take (frontier st)) as [[[c p] rest]|]; [|done].
  destruct (bool_decide (row c = row e) && bool_decide (col c = col e));
    [done|].
  destruct (expand _ _ _ _ _ _ _); [|done].
  apply IH. lia.
Qed.

Lemma potential_init :
  (potential rows cols (mkState [(s, [s])] {[keyOf s]} []) < enough rows cols)%nat.
Proof.
  unfold potential, enough. simpl.
  pose proof (size_allKeys rows cols) as Hsz.
  assert (size (allKeys rows cols ∖ {[keyOf s]}) ≤ size (allKeys rows cols))%nat.
  { apply subseteq_size, subseteq_difference_l. done. }
  lia.
Qed.

(** What both searches guarantee. *)
Lemma search_generic :
  ∃ r, search rows cols grid take (enough rows cols) s e = Returned r ∧
    NoDup (coord <$> visited r) ∧
    (coord s ∉ coord <$> visited r) ∧
    (∀ c, c ∈ visited r → enterable rows cols grid c) ∧
    (found r = true →
       ∃ c, coord c = coord e ∧ trail rows cols grid s c (path r)) ∧
    (found r = false →
       path r = [] ∧ ∀ n, ¬ walk rows cols grid n (coord s) (coord e)).
Proof.
  unfold search. apply (loop_rule (Inv rows cols grid s e)).
  - intros st HI Hnil. simpl.
    split; [apply HI|]. split; [apply HI|]. split; [apply HI|].
    split; [done|]. intros _. split; [done|]. intros n Hwalk.
    by destruct (Inv_exhausted rows cols grid s e st n _ HI Hnil Hwalk).
  - intros st c p rest HI Hperm Hend. simpl.
    split; [apply HI|]. split; [apply HI|]. split; [apply HI|].
    split; [|done]. intros _. exists c. split; [done|].
    apply (inv_frontier _ _ _ _ _ _ HI c p). rewrite Hperm. by left.
  - intros st c p rest new HI Htk Hne Hnd Hnew.
    apply (Inv_step rows cols grid Hwf s e st c p rest new); try done.
    pose proof (Htake (frontier st)) as Ht. by rewrite Htk in Ht.
  - apply Inv_init.
  - apply potential_init.
Qed.
End Loop.

(** ** What the queue adds *)

Section Queue.
Context (rows cols : Z) (grid : Grid) (Hwf : wf_grid rows cols grid).
Context (s e : Cell).

Lemma BfsInv_init :
  BfsInv rows cols grid s (mkState [(s, [s])] {[keyOf s]} []).
Proof.
  split; simpl.
  - intros [|i] [|j] c p c' p' Hij Hi Hj; simplify_eq/=; lia.
  - intros c p n Hin%list_elem_of_singleton _. injection Hin as _ ->.
    simpl. lia.
  - intros c p n v Hhd Hwalk Hn. injection Hhd as _ <-. simpl in Hn.
    assert (n = 0%nat) as -> by lia. inversion Hwalk; subst.
    by apply elem_of_singleton.
Qed.

Lemma BfsInv_step st c p rest new :
  Inv rows cols grid s e st → BfsInv rows cols grid s st →
  frontier st = (c, p) :: rest →
  (∀ w, w ∈ new → keyOf w ∉ visitedSet st) →
  Inv rows cols grid s e
    (mkState (rest ++ ((λ w, (w, p ++ [w])) <$> new))
             (list_to_set (keyOf <$> new) ∪ visitedSet st)
             (visitedCells st ++ new)) →
  BfsInv rows cols grid s
    (mkState (rest ++ ((λ w, (w, p ++ [w])) <$> new))
             (list_to_set (keyOf <$> new) ∪ visitedSet st)
             (visitedCells st ++ new)).
Proof.
  intros HI [Hsorted Hmin Hlevel] Hfr Hfresh HI'.
  rewrite Hfr in Hsorted, Hmin, Hlevel.
  set (Q' := rest ++ ((λ w, (w, p ++ [w])) <$> new)).
  assert (∀ i c' p', Q' !! i = Some (c', p') →
            (rest !! i = Some (c', p') ∧ (length p ≤ length p' ≤ length p + 1)%nat) ∨
            ((length rest ≤ i)%nat ∧ length p' = (length p + 1)%nat ∧
             ∃ w, w ∈ new ∧ c' = w ∧ p' = p ++ [w])) as Hcases.
  { intros i c' p' [Hi|[Hle Hi]]%lookup_app_Some.
    - left. split; [done|].
      apply (Hsorted 0%nat (S i) c p c' p'); [lia|done|done].
    - right. split; [done|].
      apply list_lookup_fmap_Some in Hi as (w & [= -> ->] & Hw).
      split; [rewrite length_app; simpl; lia|].
      exists w. split; [|done]. by eapply list_elem_of_lookup_2. }
  assert (∀ c' p' n, (c', p') ∈ Q' →
            walk rows cols grid n (coord s) (coord c') → (length p' ≤ S n)%nat)
    as Hmin'.
  { intros c' p' n [Hold|(w & [= -> ->] & Hw)%list_elem_of_fmap]%elem_of_app Hwalk.
    - apply (Hmin c' p' n); [by right|done].
    - rewrite length_app. simpl.
      destruct (decide (S n ≤ length p)%nat) as [Hle|]; [|lia].
      destruct (Hfresh w Hw). unfold keyOf.
      by apply (Hlevel c p n (coord w)). }
  assert (∀ i j c1 p1 c2 p2, (i ≤ j)%nat →
            Q' !! i = Some (c1, p1) → Q' !! j = Some (c2, p2) →
            (length p1 ≤ length p2 ≤ length p1 + 1)%nat) as Hsorted'.
  { intros i j c1 p1 c2 p2 Hij Hi Hj.
    destruct (Hcases _ _ _ Hi) as [[Hi' Hb1]|(Hi' & Hl1 & _)],
             (Hcases _ _ _ Hj) as [[Hj' Hb2]|(Hj' & Hl2 & _)].
    - apply (Hsorted (S i) (S j) c1 p1 c2 p2); [lia|done|done].
    - lia.
    - apply lookup_lt_Some in Hj'. lia.
    - lia. }
  split; simpl; fold Q'; [done|done|].
  intros c' p' n v Hhead Hwalk Hn.
  assert (Q' !! 0%nat = Some (c', p')) as H0 by (by rewrite <-head_lookup).
  assert (length p ≤ length p' ≤ length p + 1)%nat as Hb.
  { destruct (Hcases _ _ _ H0) as [[_ ?]|(_ & ? & _)]; lia. }
  assert (visitedSet st ⊆ list_to_set (keyOf <$> new) ∪ visitedSet st) as Hsub.
  { apply union_subseteq_r. }
  destruct (decide (S n ≤ length p)%nat) as [Hle|Hgt].
  { apply Hsub. by apply (Hlevel c p n v). }
  inversion Hwalk as [|n' a b d Hwalk' Hedge]; subst.
  { apply (inv_set _ _ _ _ _ _ HI'). left. reflexivity. }
  assert (key b.1 b.2 ∈ list_to_set (keyOf <$> new) ∪ visitedSet st) as Hb'.
  { apply Hsub. apply (Hlevel c p n' b); [done|done|lia]. }
  destruct (inv_closed _ _ _ _ _ _ HI' b Hb') as [(c2 & p2 & Hin & Hcb)|[_ Hcl]];
    [|by apply Hcl].
  simpl in Hin. fold Q' in Hin.
  assert (length p2 ≤ S n')%nat.
  { apply (Hmin' c2 p2 n' Hin). by rewrite Hcb. }
  apply list_elem_of_lookup_1 in Hin as [j Hj].
  assert (length p' ≤ length p2)%nat.
  { apply (Hsorted' 0%nat j c' p' c2 p2); [lia|done|done]. }
  lia.
Qed.

(** The path [bfs] returns is no longer than any walk to the end. *)
Lemma bfs_shortest r n :
  bfs rows cols grid s e = Returned r → found r = true →
  walk rows cols grid n (coord s) (coord e) → (length (path r) ≤ S n)%nat.
Proof.
  intros Hrun Hfound Hwalk.
  destruct (loop_rule rows cols grid Hwf shift shift_ok e
              (λ st, Inv rows cols grid s e st ∧ BfsInv rows cols grid s st)
              (λ r, found r = true →
                    ∀ n, walk rows cols grid n (coord s) (coord e) →
                         (length (path r) ≤ S n)%nat))
    with (fuel := enough rows cols)
         (st := mkState [(s, [s])] {[keyOf s]} [])
    as (r' & Hrun' & Hr').
  - by intros st _ _ ?.
  - intros st c p rest [_ HB] Hperm Hend _ m Hm. simpl.
    apply (bfs_min _ _ _ _ _ HB c p m); [|by rewrite Hend].
    rewrite Hperm. by left.
  - intros st c p rest new [HI HB] Htk Hne Hnd Hnew.
    assert (frontier st = (c, p) :: rest) as Hfr.
    { destruct (frontier st); simplify_eq/=. done. }
    assert (Inv rows cols grid s e
              (mkState (rest ++ ((λ w, (w, p ++ [w])) <$> new))
                       (list_to_set (keyOf <$> new) ∪ visitedSet st)
                       (visitedCells st ++ new))) as HI'.
    { apply (Inv_step rows cols grid Hwf s e st c p rest new); try done.
      by rewrite Hfr. }
    split; [done|]. apply (BfsInv_step st c p rest new); try done.
    intros w Hw. apply Hnew in Hw as (_ & _ & ?). done.
  - split; [apply Inv_init|apply BfsInv_init].
  - apply potential_init.
  - unfold bfs, bfs_upto, search in Hrun.
    change (key (row s) (col s)) with (keyOf s) in Hrun.
    rewrite Hrun in Hrun'. injection Hrun' as <-. by apply Hr'.
Qed.
End Queue.

(** ** Paths as lists *)

Lemma neighbour_manhattan u v : neighbour u v ↔ manhattan u v = 1.
Proof.
  unfold neighbour, manhattan, directions. destruct u as [a b], v as [c d].
  simpl. split.
  - intros (dd & Hd & [= -> ->]).
    repeat (apply elem_of_cons in Hd as [->|Hd]; [simpl; lia|]).
    by apply elem_of_nil in Hd.
  - intros H.
    assert ((c = a ∧ d = b + 1) ∨ (c = a + 1 ∧ d = b) ∨
            (c = a ∧ d = b - 1) ∨ (c = a - 1 ∧ d = b))
      as [[-> ->]|[[-> ->]|[[-> ->]|[-> ->]]]] by lia.
    + exists (0, 1). split; [|simpl; f_equal; lia]. apply elem_of_cons; by left.
    + exists (1, 0). split; [|simpl; f_equal; lia].
      do 1 (apply elem_of_cons; right). apply elem_of_cons; by left.
    + exists (0, -1). split; [|simpl; f_equal; lia].
      do 2 (apply elem_of_cons; right). apply elem_of_cons; by left.
    + exists (-1, 0). split; [|simpl; f_equal; lia].
      do 3 (apply elem_of_cons; right). apply elem_of_cons; by left.
Qed.

Lemma stepwise_lookup p :
  stepwise p ↔
  ∀ i a b, p !! i = Some a → p !! S i = Some b → manhattan a b = 1.
Proof.
  induction p as [|u [|v t] IH].
  - split; [by intros _ i a b ?|done].
  - split; [by intros _ [|i] a b ??|done].
  - change (stepwise (u :: v :: t)) with (manhattan u v = 1 ∧ stepwise (v :: t)).
    rewrite IH. split.
    + intros [Huv Ht] [|i] a b Ha Hb; simplify_eq/=; [done|]. by eapply Ht.
    + intros H. split; [by apply (H 0%nat)|].
      intros i a b Ha Hb. by apply (H (S i)).
Qed.

Section Paths.
Context (rows cols : Z) (grid : Grid) (Hwf : wf_grid rows cols grid).

Lemma walk_prepend n u v w :
  edge rows cols grid u v → walk rows cols grid n v w →
  walk rows cols grid (S n) u w.
Proof.
  intros Huv Hvw. induction Hvw as [v|n v a b _ IH Hab].
  - econstructor; [constructor|done].
  - econstructor; [by apply IH|done].
Qed.

Lemma wall_free_path_walk s e p :
  wall_free_path rows cols grid s e p →
  ∃ n, length p = S n ∧ walk rows cols grid n s e.
Proof.
  revert s. induction p as [|u [|v t] IH]; intros s (Hhd & Hlast & Hopen & Hstep).
  - done.
  - simpl in *. simplify_eq. exists 0%nat. split; [done|]. constructor.
  - injection Hhd as ->. destruct Hstep as [Huv Hstep].
    apply Forall_cons in Hopen as [Hu Hopen].
    destruct (IH v) as (n & Hlen & Hwalk).
    { split; [done|]. split; [by rewrite last_cons_cons in Hlast|]. done. }
    exists (S n). split; [simpl in *; lia|].
    apply walk_prepend with v; [|done]. split.
    + by apply neighbour_manhattan.
    + by apply Forall_cons in Hopen as [? _].
Qed.

(** The shape of a [path] array held by the loop. *)
Lemma trail_shape s c p :
  trail rows cols grid s c p →
  ∃ rest, p = s :: rest ∧ last p = Some c ∧
    Forall (enterable rows cols grid) rest ∧
    ∀ i a b, p !! i = Some a → p !! S i = Some b →
             manhattan (coord a) (coord b) = 1.
Proof.
  induction 1 as [|c p w _ (rest & -> & Hlast & Hrest & Hadj) Hent Hnb].
  - exists []. split; [done|]. split; [done|]. split; [constructor|].
    by intros [|i] a b ??.
  - exists (rest ++ [w]). split; [done|]. split; [by rewrite last_snoc|].
    split; [apply Forall_app; split; [done|by apply Forall_singleton]|].
    intros i a b Ha Hb.
    destruct (decide (S i < length (s :: rest))%nat) as [Hlt|Hge].
    + rewrite lookup_app_l in Ha, Hb by lia. by eapply Hadj.
    + apply lookup_lt_Some in Hb as Hb'. rewrite length_app in Hb'.
      simpl in Hb'.
      assert (S i = length (s :: rest)) as Hi by (simpl in *; lia).
      rewrite lookup_app_l in Ha by lia.
      rewrite lookup_app_r in Hb by lia.
      rewrite Hi, Nat.sub_diag in Hb. injection Hb as <-.
      rewrite last_lookup in Hlast.
      assert (Init.Nat.pred (length (s :: rest)) = i) as Hp by (simpl in *; lia).
      rewrite Hp, Ha in Hlast. injection Hlast as ->.
      by apply neighbour_manhattan.
Qed.

(** A trail from an open start is a wall-free path. *)
Lemma trail_wall_free s c p :
  openb rows cols grid (coord s) = true → trail rows cols grid s c p →
  wall_free_path rows cols grid (coord s) (coord c) (coord <$> p).
Proof.
  intros Hs (rest & -> & Hlast & Hrest & Hadj)%trail_shape.
  split; [done|]. split; [by rewrite fmap_last, Hlast|]. split.
  - rewrite fmap_cons. apply Forall_cons. split; [done|].
    apply Forall_fmap. eapply Forall_impl; [done|].
    intros x Hx. by apply enterable_open.
  - apply stepwise_lookup. intros i a b Ha Hb.
    apply list_lookup_fmap_Some in Ha as (a' & -> & Ha).
    apply list_lookup_fmap_Some in Hb as (b' & -> & Hb).
    by eapply Hadj.
Qed.

Lemma wall_free_path_start_open s e p :
  wall_free_path rows cols grid s e p → openb rows cols grid s = true.
Proof.
  intros (Hhd & _ & Hopen & _). destruct p as [|u p]; [done|].
  injection Hhd as ->. by apply Forall_cons in Hopen as [? _].
Qed.

(** From a start that is a non-wall cell of the grid, a walk is a
    wall-free path. *)
Lemma walk_wall_free_path n s e :
  openb rows cols grid s = true → walk rows cols grid n s e →
  ∃ p, wall_free_path rows cols grid s e p.
Proof.
  intros Hs Hwalk. induction Hwalk as [u|n u v w _ IH [Hnb Hw]].
  - exists [u]. split; [done|]. split; [done|].
    split; [by apply Forall_singleton|done].
  - destruct (IH Hs) as (p & Hhd & Hlast & Hopen & Hstep).
    exists (p ++ [w]). split; [by destruct p|]. split; [by rewrite last_snoc|].
    split; [apply Forall_app; split; [done|by apply Forall_singleton]|].
    apply stepwise_lookup. intros i a b Ha Hb.
    destruct (decide (S i < length p)%nat) as [Hlt|Hge].
    + rewrite lookup_app_l in Ha, Hb by lia.
      rewrite stepwise_lookup in Hstep. by eapply Hstep.
    + apply lookup_lt_Some in Hb as Hb'. rewrite length_app in Hb'.
      simpl in Hb'.
      assert (S i = length p) as Hi by lia.
      rewrite lookup_app_l in Ha by lia.
      rewrite lookup_app_r in Hb by lia.
      rewrite Hi, Nat.sub_diag in Hb. injection Hb as <-.
      rewrite last_lookup in Hlast.
      assert (Init.Nat.pred (length p) = i) as Hp by lia.
      rewrite Hp, Ha in Hlast. injection Hlast as ->.
      by apply neighbour_manhattan.
Qed.
End Paths.

(** ** The two searches *)

Section Searches.
Context (rows cols : Z) (grid : Grid) (Hwf : wf_grid rows cols grid).
Context (s e : Cell).

Lemma bfs_generic :
  ∃ r, bfs rows cols grid s e = Returned r ∧
    NoDup (coord <$> visited r) ∧
    (coord s ∉ coord <$> visited r) ∧
    (∀ c, c ∈ visited r → enterable rows cols grid c) ∧
    (found r = true →
       ∃ c, coord c = coord e ∧ trail rows cols grid s c (path r)) ∧
    (found r = false →
       path r = [] ∧ ∀ n, ¬ walk rows cols grid n (coord s) (coord e)).
Proof. apply (search_generic rows cols grid Hwf shift shift_ok s e). Qed.

Lemma dfs_generic :
  ∃ r, dfs rows cols grid s e = Returned r ∧
    NoDup (coord <$> visited r) ∧
    (coord s ∉ coord <$> visited r) ∧
    (∀ c, c ∈ visited r → enterable rows cols grid c) ∧
    (found r = true →
       ∃ c, coord c = coord e ∧ trail rows cols grid s c (path r)) ∧
    (found r = false →
       path r = [] ∧ ∀ n, ¬ walk rows cols grid n (coord s) (coord e)).
Proof. apply (search_generic rows cols grid Hwf pop pop_ok s e). Qed.

(** Either search finds the end exactly when some walk leads to it. *)
Lemma found_iff_walk r :
  (found r = true →
     ∃ c, coord c = coord e ∧ trail rows cols grid s c (path r)) →
  (found r = false →
     path r = [] ∧ ∀ n, ¬ walk rows cols grid n (coord s) (coord e)) →
  found r = true ↔ ∃ n, walk rows cols grid n (coord s) (coord e).
Proof.
  intros Hyes Hno. split.
  - intros (c & Hc & (n & _ & Hwalk)%trail_walk)%Hyes.
    exists n. by rewrite <-Hc.
  - intros [n Hwalk]. destruct (found r); [done|].
    destruct Hno as [_ Hno]; [done|]. by destruct (Hno n).
Qed.

Lemma trail_sound c p :
  trail rows cols grid s c p →
  (∀ i a b, p !! i = Some a → p !! S i = Some b →
            manhattan (coord a) (coord b) = 1) ∧
  head p = Some s ∧
  (∀ i x, p !! S i = Some x → type x ≠ Wall) ∧
  (type s ≠ Wall → ∀ x, x ∈ p → type x ≠ Wall).
Proof.
  intros (rest & -> & _ & Hrest & Hadj)%trail_shape. split; [done|].
  split; [done|]. rewrite Forall_forall in Hrest. split.
  - intros i x Hx. simpl in Hx. apply list_elem_of_lookup_2 in Hx.
    by destruct (Hrest x Hx) as (_ & _ & ?).
  - intros Hs x [->|Hx]%elem_of_cons; [done|].
    by destruct (Hrest x Hx) as (_ & _ & ?).
Qed.
End Searches.

Lemma returns_unique rows cols grid take s e r1 r2 :
  returns (λ fuel, search rows cols grid take fuel s e) r1 →
  returns (λ fuel, search rows cols grid take fuel s e) r2 →
  r1 = r2.
Proof.
  intros [f1 H1] [f2 H2]. unfold search in *.
  apply (loop_fuel_mono _ _ _ _ _ _ (f1 `max` f2)%nat) in H1; [|lia].
  apply (loop_fuel_mono _ _ _ _ _ _ (f1 `max` f2)%nat) in H2; [|lia].
  congruence.
Qed.

Lemma openGrid_wf : wf_grid 5 5 openGrid.
Proof. reflexivity. Qed.

Lemma ringGrid_wf : wf_grid 5 5 ringGrid.
Proof. reflexivity. Qed.

Lemma wallStartGrid_wf : wf_grid 5 5 wallStartGrid.
Proof. reflexivity. Qed.

Lemma wallStartRingGrid_wf : wf_grid 5 5 wallStartRingGrid.
Proof. reflexivity. Qed.

(** The last move of a walk comes from the start or from a cell that was
    itself entered. *)
Lemma walk_enters rows cols grid n s e :
  walk rows cols grid n s e → s ≠ e →
  ∃ u, (u = s ∨ openb rows cols grid u = true) ∧ manhattan u e = 1.
Proof.
  intros Hwalk Hne. destruct Hwalk as [u|n u v w Hwalk [Hnb _]]; [done|].
  exists v. split; [|by apply neighbour_manhattan].
  destruct Hwalk as [u'|n' u' v' w' _ [_ Hopen]]; [by left|by right].
Qed.

Lemma wallStartRingGrid_no_walk n :
  ¬ walk 5 5 wallStartRingGrid n (0, 0) (2, 2).
Proof.
  intros ([a b] & Hfrom & Hman)%walk_enters; [|done].
  unfold manhattan in Hman. simpl in Hman.
  assert ((a = 2 ∧ b = 3) ∨ (a = 3 ∧ b = 2) ∨ (a = 2 ∧ b = 1) ∨ (a = 1 ∧ b = 2))
    as [[-> ->]|[[-> ->]|[[-> ->]|[-> ->]]]] by lia;
    (destruct Hfrom as [Heq|Hopen]; [done|by vm_compute in Hopen]).
Qed.

Lemma wallStartRingGrid_closed p :
  ¬ wall_free_path 5 5 wallStartRingGrid (0, 0) (2, 2) p.
Proof. intros Hp%wall_free_path_start_open. by vm_compute in Hp. Qed.

Lemma wallStartGrid_closed p : ¬ wall_free_path 5 5 wallStartGrid (0, 0) (0, 1) p.
Proof. intros Hp%wall_free_path_start_open. by vm_compute in Hp. Qed.

(** ** Claims about the traversal engine *)

(** C1.  Whenever some wall-free orthogonal path leads from the start to the
    end, [bfs] returns with [found = true], the coordinates of its path form
    such a path, and no wall-free path from the start to the end has fewer
    edges: the edge count of the returned path is the minimum. *)
Theorem bfs_optimal rows cols grid s e p0 :
  wf_grid rows cols grid →
  wall_free_path rows cols grid (coord s) (coord e) p0 →
  ∃ r, bfs rows cols grid s e = Returned r ∧ found r = true ∧
       wall_free_path rows cols grid (coord s) (coord e) (coord <$> path r) ∧
       ∀ p, wall_free_path rows cols grid (coord s) (coord e) p →
            (edgeCount (path r) ≤ edgeCount p)%nat.
Proof.
  intros Hwf Hp0.
  destruct (bfs_generic rows cols grid Hwf s e)
    as (r & Hrun & _ & _ & _ & Hyes & Hno).
  exists r. split; [done|].
  assert (found r = true) as Hfound.
  { apply (found_iff_walk rows cols grid s e r Hyes Hno).
    destruct (wall_free_path_walk rows cols grid _ _ _ Hp0) as (n & _ & Hwalk).
    by exists n. }
  split; [done|]. split.
  - destruct (Hyes Hfound) as (c & Hc & Htrail). rewrite <-Hc.
    apply trail_wall_free; [|done].
    by apply (wall_free_path_start_open rows cols grid _ (coord e) p0).
  - intros p (n & Hlen & Hwalk)%wall_free_path_walk.
    pose proof (bfs_shortest rows cols grid Hwf s e r n Hrun Hfound Hwalk).
    unfold edgeCount. lia.
Qed.

Lemma bfs_optimal_witness :
  ∃ r, bfs 5 5 openGrid (mkCell 0 0 Start) (mkCell 0 4 End) = Returned r ∧
       found r = true ∧
       wall_free_path 5 5 openGrid (0, 0) (0, 4) (coord <$> path r) ∧
       ∀ p, wall_free_path 5 5 openGrid (0, 0) (0, 4) p →
            (edgeCount (path r) ≤ edgeCount p)%nat.
Proof.
  apply (bfs_optimal 5 5 openGrid (mkCell 0 0 Start) (mkCell 0 4 End)
           [(0, 0); (1, 0); (1, 1); (1, 2); (1, 3); (1, 4); (0, 4)]).
  - reflexivity.
  - repeat split; repeat constructor.
Defined.

(** C3, as amended.  Both searches return, and a returned path with
    [found = true] has every consecutive pair of cells at Manhattan
    distance 1, begins with the cell passed as start and has no wall after
    that first cell.  So no cell of the path is a wall when the cell passed
    as start is none: the start cell, which the searches never test, is the
    only cell of a path that can be one. *)
Theorem returned_path_sound rows cols grid s e :
  wf_grid rows cols grid →
  ∃ rb rd, bfs rows cols grid s e = Returned rb ∧
           dfs rows cols grid s e = Returned rd ∧
    ∀ r, r = rb ∨ r = rd → found r = true →
      (∀ i a b, path r !! i = Some a → path r !! S i = Some b →
                manhattan (coord a) (coord b) = 1) ∧
      head (path r) = Some s ∧
      (∀ i c, path r !! S i = Some c → type c ≠ Wall) ∧
      (type s ≠ Wall → ∀ c, c ∈ path r → type c ≠ Wall).
Proof.
  intros Hwf.
  destruct (bfs_generic rows cols grid Hwf s e)
    as (rb & Hb & _ & _ & _ & Hyb & _).
  destruct (dfs_generic rows cols grid Hwf s e)
    as (rd & Hd & _ & _ & _ & Hyd & _).
  exists rb, rd. split; [done|]. split; [done|].
  intros r [-> | ->] Hfound.
  - destruct (Hyb Hfound) as (c & _ & Htrail). by eapply trail_sound.
  - destruct (Hyd Hfound) as (c & _ & Htrail). by eapply trail_sound.
Qed.

Lemma returned_path_sound_witness :
  ∃ rb rd,
    bfs 5 5 wallStartGrid (mkCell 0 0 Wall) (mkCell 0 1 End) = Returned rb ∧
    dfs 5 5 wallStartGrid (mkCell 0 0 Wall) (mkCell 0 1 End) = Returned rd ∧
    ∀ r, r = rb ∨ r = rd → found r = true →
      (∀ i a b, path r !! i = Some a → path r !! S i = Some b →
                manhattan (coord a) (coord b) = 1) ∧
      head (path r) = Some (mkCell 0 0 Wall) ∧
      (∀ i c, path r !! S i = Some c → type c ≠ Wall) ∧
      (type (mkCell 0 0 Wall) ≠ Wall → ∀ c, c ∈ path r → type c ≠ Wall).
Proof.
  apply (returned_path_sound 5 5 wallStartGrid
           (mkCell 0 0 Wall) (mkCell 0 1 End)).
  reflexivity.
Defined.

(** C3 as stated fails: started on a cell whose type is [Wall], both
    searches return a path with [found = true] whose first cell is that
    wall. *)
Lemma wall_start_path_has_wall :
  ¬ (∀ r,
       bfs 5 5 wallStartGrid (mkCell 0 0 Wall) (mkCell 0 1 End) = Returned r ∨
       dfs 5 5 wallStartGrid (mkCell 0 0 Wall) (mkCell 0 1 End) = Returned r →
       found r = true →
       (∀ i a b, path r !! i = Some a → path r !! S i = Some b →
                 manhattan (coord a) (coord b) = 1) ∧
       (∀ c, c ∈ path r → type c ≠ Wall)).
Proof.
  intros H.
  destruct (H (mkResult [mkCell 0 0 Wall; mkCell 0 1 End]
                        [mkCell 0 1 End; mkCell 1 0 Empty] true))
    as [_ Hwall]; [by left|done|].
  apply (Hwall (mkCell 0 0 Wall)); [|done].
  apply elem_of_cons. by left.
Qed.

(** C4, as amended.  When no wall-free orthogonal path leads from the
    start to the end and, in case the start coordinate is not a non-wall
    cell of the grid, none does either with the start cell left out of the
    wall test, both searches return [found = false] and an empty path.  For
    a start on a non-wall cell of the grid this is the claim as stated. *)
Theorem unreachable_not_found rows cols grid s e :
  wf_grid rows cols grid →
  (∀ p, ¬ wall_free_path rows cols grid (coord s) (coord e) p) →
  (openb rows cols grid (coord s) = false →
   ∀ n, ¬ walk rows cols grid n (coord s) (coord e)) →
  ∃ rb rd, bfs rows cols grid s e = Returned rb ∧
           dfs rows cols grid s e = Returned rd ∧
           found rb = false ∧ path rb = [] ∧
           found rd = false ∧ path rd = [].
Proof.
  intros Hwf Hnone Hclosed.
  assert (∀ n, ¬ walk rows cols grid n (coord s) (coord e)) as Hnowalk.
  { intros n Hwalk.
    destruct (openb rows cols grid (coord s)) eqn:Hs; [|by eapply Hclosed].
    destruct (walk_wall_free_path rows cols grid n _ _ Hs Hwalk) as [p Hp].
    by apply (Hnone p). }
  assert (∀ r,
    (found r = true →
       ∃ c, coord c = coord e ∧ trail rows cols grid s c (path r)) →
    (found r = false →
       path r = [] ∧ ∀ n, ¬ walk rows cols grid n (coord s) (coord e)) →
    found r = false ∧ path r = []) as Hr.
  { intros r Hyes Hno. destruct (found r) eqn:Hf.
    - destruct Hyes as (c & Hc & (n & _ & Hwalk)%trail_walk); [done|].
      rewrite Hc in Hwalk. by destruct (Hnowalk n).
    - split; [done|]. by apply Hno. }
  destruct (bfs_generic rows cols grid Hwf s e)
    as (rb & Hb & _ & _ & _ & Hyb & Hnb).
  destruct (dfs_generic rows cols grid Hwf s e)
    as (rd & Hd & _ & _ & _ & Hyd & Hnd).
  exists rb, rd. split; [done|]. split; [done|].
  destruct (Hr rb Hyb Hnb) as [-> ->]. destruct (Hr rd Hyd Hnd) as [-> ->].
  done.
Qed.

Lemma unreachable_not_found_witness :
  ∃ rb rd,
    bfs 5 5 wallStartRingGrid (mkCell 0 0 Wall) (mkCell 2 2 End) =
      Returned rb ∧
    dfs 5 5 wallStartRingGrid (mkCell 0 0 Wall) (mkCell 2 2 End) =
      Returned rd ∧
    found rb = false ∧ path rb = [] ∧
    found rd = false ∧ path rd = [].
Proof.
  apply (unreachable_not_found 5 5 wallStartRingGrid
           (mkCell 0 0 Wall) (mkCell 2 2 End)).
  - reflexivity.
  - apply wallStartRingGrid_closed.
  - intros _. apply wallStartRingGrid_no_walk.
Defined.

(** C4 as stated fails: from a start cell that is a wall no wall-free path
    leads anywhere, yet both searches report [found = true]. *)
Lemma wall_start_found :
  ¬ ((∀ p, ¬ wall_free_path 5 5 wallStartGrid (0, 0) (0, 1) p) →
     ∃ rb rd,
       bfs 5 5 wallStartGrid (mkCell 0 0 Wall) (mkCell 0 1 End) = Returned rb ∧
       dfs 5 5 wallStartGrid (mkCell 0 0 Wall) (mkCell 0 1 End) = Returned rd ∧
       found rb = false ∧ path rb = [] ∧
       found rd = false ∧ path rd = []).
Proof.
  intros H.
  destruct (H wallStartGrid_closed) as (rb & rd & Hb & _ & Hfound & _).
  vm_compute in Hb. injection Hb as <-. done.
Qed.

(** C6.  Two invocations on the same grid, start and end return the same
    result, however many loop iterations each is allowed: the same visited
    sequence, the same path and the same flag, for [bfs] and for [dfs]. *)
Theorem search_deterministic rows cols grid s e b1 b2 d1 d2 :
  returns (λ fuel, bfs_upto fuel rows cols grid s e) b1 →
  returns (λ fuel, bfs_upto fuel rows cols grid s e) b2 →
  returns (λ fuel, dfs_upto fuel rows cols grid s e) d1 →
  returns (λ fuel, dfs_upto fuel rows cols grid s e) d2 →
  (visited b1 = visited b2 ∧ path b1 = path b2 ∧ found b1 = found b2) ∧
  (visited d1 = visited d2 ∧ path d1 = path d2 ∧ found d1 = found d2).
Proof.
  intros Hb1 Hb2 Hd1 Hd2.
  rewrite (returns_unique rows cols grid shift s e b1 b2 Hb1 Hb2).
  rewrite (returns_unique rows cols grid pop s e d1 d2 Hd1 Hd2).
  done.
Qed.

Lemma search_deterministic_witness :
  (visited (resultOf (bfs_upto 20 5 5 openGrid (mkCell 0 0 Start) (mkCell 0 4 End))) =
   visited (resultOf (bfs 5 5 openGrid (mkCell 0 0 Start) (mkCell 0 4 End))) ∧
   path (resultOf (bfs_upto 20 5 5 openGrid (mkCell 0 0 Start) (mkCell 0 4 End))) =
   path (resultOf (bfs 5 5 openGrid (mkCell 0 0 Start) (mkCell 0 4 End))) ∧
   found (resultOf (bfs_upto 20 5 5 openGrid (mkCell 0 0 Start) (mkCell 0 4 End))) =
   found (resultOf (bfs 5 5 openGrid (mkCell 0 0 Start) (mkCell 0 4 End)))) ∧
  (visited (resultOf (dfs_upto 30 5 5 openGrid (mkCell 0 0 Start) (mkCell 0 4 End))) =
   visited (resultOf (dfs 5 5 openGrid (mkCell 0 0 Start) (mkCell 0 4 End))) ∧
   path (resultOf (dfs_upto 30 5 5 openGrid (mkCell 0 0 Start) (mkCell 0 4 End))) =
   path (resultOf (dfs 5 5 openGrid (mkCell 0 0 Start) (mkCell 0 4 End))) ∧
   found (resultOf (dfs_upto 30 5 5 openGrid (mkCell 0 0 Start) (mkCell 0 4 End))) =
   found (resultOf (dfs 5 5 openGrid (mkCell 0 0 Start) (mkCell 0 4 End)))).
Proof.
  apply (search_deterministic 5 5 openGrid (mkCell 0 0 Start) (mkCell 0 4 End)).
  - exists 20%nat. vm_compute. reflexivity.
  - exists (enough 5 5). vm_compute. reflexivity.
  - exists 30%nat. vm_compute. reflexivity.
  - exists (enough 5 5). vm_compute. reflexivity.
Defined.

(** C8.  Both searches return, and the visited sequence of either holds no
    coordinate twice and never the coordinate of the start cell. *)
Theorem visited_distinct rows cols grid s e :
  wf_grid rows cols grid →
  ∃ rb rd, bfs rows cols grid s e = Returned rb ∧
           dfs rows cols grid s e = Returned rd ∧
           NoDup (coord <$> visited rb) ∧ (coord s ∉ coord <$> visited rb) ∧
           NoDup (coord <$> visited rd) ∧ (coord s ∉ coord <$> visited rd).
Proof.
  intros Hwf.
  destruct (bfs_generic rows cols grid Hwf s e) as (rb & Hb & ? & ? & _).
  destruct (dfs_generic rows cols grid Hwf s e) as (rd & Hd & ? & ? & _).
  by exists rb, rd.
Qed.

Lemma visited_distinct_witness :
  ∃ rb rd, bfs 5 5 ringGrid (mkCell 0 0 Start) (mkCell 2 2 End) = Returned rb ∧
           dfs 5 5 ringGrid (mkCell 0 0 Start) (mkCell 2 2 End) = Returned rd ∧
           NoDup (coord <$> visited rb) ∧ ((0, 0) ∉ coord <$> visited rb) ∧
           NoDup (coord <$> visited rd) ∧ ((0, 0) ∉ coord <$> visited rd).
Proof.
  apply (visited_distinct 5 5 ringGrid (mkCell 0 0 Start) (mkCell 2 2 End)).
  reflexivity.
Defined.

(** C10.  Both searches return, and one reports [found = true] exactly when
    the other does. *)
Theorem found_agree rows cols grid s e :
  wf_grid rows cols grid →
  ∃ rb rd, bfs rows cols grid s e = Returned rb ∧
           dfs rows cols grid s e = Returned rd ∧
           found rb = found rd.
Proof.
  intros Hwf.
  destruct (bfs_generic rows cols grid Hwf s e)
    as (rb & Hb & _ & _ & _ & Hyb & Hnb).
  destruct (dfs_generic rows cols grid Hwf s e)
    as (rd & Hd & _ & _ & _ & Hyd & Hnd).
  exists rb, rd. split; [done|]. split; [done|].
  pose proof (found_iff_walk rows cols grid s e rb Hyb Hnb) as Hbw.
  pose proof (found_iff_walk rows cols grid s e rd Hyd Hnd) as Hdw.
  destruct (found rb), (found rd); try done.
  - symmetry. by apply Hdw, Hbw.
  - by apply Hbw, Hdw.
Qed.

Lemma found_agree_witness :
  ∃ rb rd, bfs 5 5 ringGrid (mkCell 0 0 Start) (mkCell 2 2 End) = Returned rb ∧
           dfs 5 5 ringGrid (mkCell 0 0 Start) (mkCell 2 2 End) = Returned rd ∧
           found rb = found rd.
Proof.
  apply (found_agree 5 5 ringGrid (mkCell 0 0 Start) (mkCell 2 2 End)).
  reflexivity.
Defined.

(** ** Runs on grids with the same walls *)

Section Simulation.
Context (rows cols : Z) (g1 g2 : Grid).
Context (Hwf1 : wf_grid rows cols g1) (Hwf2 : wf_grid rows cols g2).
Context (Hwalls : ∀ r c c1 c2,
  cellAt g1 r c = Some c1 → cellAt g2 r c = Some c2 →
  (type c1 = Wall ↔ type c2 = Wall)).

Lemma visit_sim c1 c2 p1 p2 st1 st2 d :
  coord c1 = coord c2 → coord <$> p1 = coord <$> p2 → sim_state st1 st2 →
  ∃ st1' st2',
    visit rows cols g1 c1 p1 st1 d = Some st1' ∧
    visit rows cols g2 c2 p2 st2 d = Some st2' ∧
    sim_state st1' st2'.
Proof.
  intros [= Hr Hc] Hp (Hfr & Hset & Hvis). unfold visit.
  rewrite <-Hr, <-Hc, <-Hset.
  set (r := row c1 + d.1). set (k := col c1 + d.2).
  change (bool_decide (0 ≤ r) && bool_decide (r < rows) &&
          bool_decide (0 ≤ k) && bool_decide (k < cols))
    with (insideb rows cols (r, k)).
  destruct (insideb rows cols (r, k)) eqn:Hin; simpl;
    [|by exists st1, st2].
  destruct (bool_decide (key r k ∈ visitedSet st1)); simpl;
    [by exists st1, st2|].
  apply insideb_true in Hin as [Hr' Hk']. simpl in Hr', Hk'.
  destruct (wf_cellAt _ _ _ _ _ Hwf1 Hr' Hk') as (n1 & Hat1 & Hrow1 & Hcol1).
  destruct (wf_cellAt _ _ _ _ _ Hwf2 Hr' Hk') as (n2 & Hat2 & Hrow2 & Hcol2).
  rewrite Hat1, Hat2. simpl.
  pose proof (Hwalls r k n1 n2 Hat1 Hat2) as Hty.
  assert (coord n1 = coord n2) as Hn by (unfold coord; congruence).
  destruct (decide (type n1 = Wall)) as [Hw|Hw].
  - rewrite !bool_decide_false by tauto. by exists st1, st2.
  - rewrite !bool_decide_true by tauto. eexists _, _.
    split; [done|]. split; [done|]. split; [|split]; simpl.
    + apply Forall2_app; [done|]. apply Forall2_cons. split; [|constructor].
      split; [done|]. simpl. rewrite !fmap_app. simpl. congruence.
    + by rewrite Hset.
    + rewrite !fmap_app. simpl. congruence.
Qed.

Lemma expand_sim c1 c2 p1 p2 ds st1 st2 :
  coord c1 = coord c2 → coord <$> p1 = coord <$> p2 → sim_state st1 st2 →
  ∃ st1' st2',
    expand rows cols g1 c1 p1 ds st1 = Some st1' ∧
    expand rows cols g2 c2 p2 ds st2 = Some st2' ∧
    sim_state st1' st2'.
Proof.
  intros Hc Hp. revert st1 st2.
  induction ds as [|d ds IH]; intros st1 st2 Hst; simpl.
  - by exists st1, st2.
  - destruct (visit_sim c1 c2 p1 p2 st1 st2 d Hc Hp Hst)
      as (st1' & st2' & -> & -> & Hst').
    simpl. by apply IH.
Qed.

Lemma loop_sim fuel e1 e2 st1 st2 :
  coord e1 = coord e2 → sim_state st1 st2 →
  sim_outcome (loop rows cols g1 shift fuel e1 st1)
              (loop rows cols g2 shift fuel e2 st2).
Proof.
  intros [= Her Hec]. revert st1 st2.
  induction fuel as [|fuel IH]; intros [f1 S1 V1] [f2 S2 V2] Hst; [done|].
  destruct Hst as (Hfr & Hset & Hvis).
  cbn [frontier visitedSet visitedCells] in Hfr, Hset, Hvis.
  destruct Hfr as [|[c1 p1] [c2 p2] rest1 rest2 [Hc Hp] Hrest];
    cbn [loop shift frontier visitedSet visitedCells]; [done|].
  simpl in Hc, Hp. pose proof Hc as [= Hr Hk].
  rewrite <-Hr, <-Hk, <-Her, <-Hec.
  destruct (bool_decide (row c1 = row e1) && bool_decide (col c1 = col e1));
    [done|].
  destruct (expand_sim c1 c2 p1 p2 directions
              (mkState rest1 S1 V1) (mkState rest2 S2 V2) Hc Hp)
    as (st1' & st2' & -> & -> & Hst'); [done|].
  by apply IH.
Qed.

Lemma bfs_sim s1 s2 e1 e2 :
  coord s1 = coord s2 → coord e1 = coord e2 →
  sim_outcome (bfs rows cols g1 s1 e1) (bfs rows cols g2 s2 e2).
Proof.
  intros Hs He. apply loop_sim; [done|].
  pose proof Hs as [= Hr Hc]. split; [|split]; simpl.
  - apply Forall2_cons. split; [|constructor]. split; [done|].
    simpl. by rewrite Hs.
  - by rewrite Hr, Hc.
  - done.
Qed.
End Simulation.

Lemma openGrid_no_wall r c cell :
  cellAt openGrid r c = Some cell → type cell ≠ Wall.
Proof.
  unfold cellAt. intros Hat.
  repeat (case_bool_decide; simpl in Hat; [|done]).
  destruct (Z.to_nat r) as [|[|[|[|[|?]]]]]; simpl in Hat; try done;
    destruct (Z.to_nat c) as [|[|[|[|[|?]]]]]; simpl in Hat; try done;
    by injection Hat as <-.
Qed.

Lemma sim_outcome_returned o1 o2 r2 :
  sim_outcome o1 o2 → o2 = Returned r2 →
  ∃ r1, o1 = Returned r1 ∧
        coord <$> path r1 = coord <$> path r2 ∧
        coord <$> visited r1 = coord <$> visited r2 ∧
        found r1 = found r2.
Proof.
  intros Hsim ->. destruct o1 as [r1| |]; [|done..]. by exists r1.
Qed.

(** C5.  On a grid of 5 by 5 cells without walls, from [(0, 0)] to
    [(0, 4)], [bfs] returns [found = true] and the path along the top row,
    which has 4 edges. *)
Theorem bfs_top_row grid s e :
  wf_grid 5 5 grid →
  (∀ r c cell, cellAt grid r c = Some cell → type cell ≠ Wall) →
  coord s = (0, 0) → coord e = (0, 4) →
  ∃ r, bfs 5 5 grid s e = Returned r ∧ found r = true ∧
       coord <$> path r = [(0, 0); (0, 1); (0, 2); (0, 3); (0, 4)] ∧
       edgeCount (path r) = 4%nat.
Proof.
  intros Hwf Hnowall Hs He.
  assert (∀ r c c1 c2,
    cellAt grid r c = Some c1 → cellAt openGrid r c = Some c2 →
    (type c1 = Wall ↔ type c2 = Wall)) as Hwalls.
  { intros r c c1 c2 H1 H2. split.
    - by intros ?%(Hnowall r c c1 H1).
    - by intros ?%(openGrid_no_wall r c c2 H2). }
  pose proof (bfs_sim 5 5 grid openGrid Hwf openGrid_wf Hwalls
                s (mkCell 0 0 Start) e (mkCell 0 4 End) Hs He) as Hsim.
  assert (bfs 5 5 openGrid (mkCell 0 0 Start) (mkCell 0 4 End) =
          Returned (mkResult
            [mkCell 0 0 Start; mkCell 0 1 Empty; mkCell 0 2 Empty;
             mkCell 0 3 Empty; mkCell 0 4 End]
            [mkCell 0 1 Empty; mkCell 1 0 Empty; mkCell 0 2 Empty;
             mkCell 1 1 Empty; mkCell 2 0 Empty; mkCell 0 3 Empty;
             mkCell 1 2 Empty; mkCell 2 1 Empty; mkCell 3 0 Empty;
             mkCell 0 4 End; mkCell 1 3 Empty; mkCell 2 2 Empty;
             mkCell 3 1 Empty; mkCell 4 0 Empty]
            true)) as Hrun by (vm_compute; reflexivity).
  destruct (sim_outcome_returned _ _ _ Hsim Hrun)
    as (res & Hres & Hpath & _ & Hfound).
  exists res. split; [done|]. split; [done|]. split; [done|].
  unfold edgeCount. apply (f_equal length) in Hpath.
  rewrite length_fmap in Hpath. by rewrite Hpath.
Qed.

Lemma bfs_top_row_witness :
  ∃ r, bfs 5 5 openGrid (mkCell 0 0 Start) (mkCell 0 4 End) = Returned r ∧
       found r = true ∧
       coord <$> path r = [(0, 0); (0, 1); (0, 2); (0, 3); (0, 4)] ∧
       edgeCount (path r) = 4%nat.
Proof.
  apply (bfs_top_row openGrid (mkCell 0 0 Start) (mkCell 0 4 End)).
  - reflexivity.
  - apply openGrid_no_wall.
  - reflexivity.
  - reflexivity.
Defined.

(** ** The handlers *)

Section Handlers.
Import App.

Lemma snapshot_Forall2 h g cells :
  snapshot h g = Some cells ↔
  Forall2 (Forall2 (λ l c, h !! l = Some c)) g cells.
Proof.
  unfold snapshot. rewrite mapM_Some. split.
  - intros H. eapply Forall2_impl; [done|]. intros rw cs. by rewrite mapM_Some.
  - intros H. eapply Forall2_impl; [done|]. intros rw cs. by rewrite mapM_Some.
Qed.

Lemma row_mono (h h' : gmap ref Cell) rw cs :
  h ⊆ h' →
  Forall2 (λ l c, h !! l = Some c) rw cs →
  Forall2 (λ l c, h' !! l = Some c) rw cs.
Proof.
  intros Hsub H. eapply Forall2_impl; [done|].
  intros l c Hl. exact (lookup_weaken _ _ _ _ Hl Hsub).
Qed.

Lemma alloc_fresh (h : gmap ref Cell) c : h ⊆ <[fresh (dom h) := c]> h.
Proof.
  apply insert_subseteq, not_elem_of_dom, is_fresh.
Qed.

Lemma setHeap_same σ : setHeap (heap σ) σ = σ.
Proof. by destruct σ. Qed.

(** [map] over a row allocates the retyped cells and touches nothing
    else. *)
Lemma mapRow_spec f rw σ (cs : list Cell) :
  Forall2 (λ l c, heap σ !! l = Some c) rw cs →
  ∃ rw' h',
    mapRow f rw σ = Ok rw' (setHeap h' σ) ∧ heap σ ⊆ h' ∧
    Forall2 (λ l c, h' !! l = Some c) rw' (retype f <$> cs).
Proof.
  revert σ cs. induction rw as [|l rw IH]; intros σ cs Hcs.
  - apply Forall2_nil_inv_l in Hcs as ->. exists [], (heap σ).
    split; [by rewrite setHeap_same|]. split; [done|constructor].
  - apply Forall2_cons_inv_l in Hcs as (c & cs' & Hl & Hcs' & ->).
    set (l' := fresh (dom (heap σ))).
    set (σ1 := setHeap (<[l' := retype f c]> (heap σ)) σ).
    destruct (IH σ1 cs') as (rw' & h' & Hrun & Hsub & Hrw').
    { eapply row_mono; [|done]. apply alloc_fresh. }
    exists (l' :: rw'), h'. split; [|split].
    + cbn [mapRow]. unfold bind at 1. unfold readCell. rewrite Hl.
      unfold bind at 1. unfold alloc. fold l'. fold σ1.
      unfold bind at 1. rewrite Hrun. done.
    + etrans; [apply alloc_fresh|exact Hsub].
    + rewrite fmap_cons. constructor; [|done].
      apply (lookup_weaken (heap σ1)); [|done]. simpl. by rewrite lookup_insert_eq.
Qed.

Lemma mapGrid_spec f g σ (cells : Grid) :
  Forall2 (Forall2 (λ l c, heap σ !! l = Some c)) g cells →
  ∃ g' h',
    mapGrid f g σ = Ok g' (setHeap h' σ) ∧ heap σ ⊆ h' ∧
    Forall2 (Forall2 (λ l c, h' !! l = Some c)) g' (retypeAll f cells).
Proof.
  revert σ cells. induction g as [|rw g IH]; intros σ cells Hcells.
  - apply Forall2_nil_inv_l in Hcells as ->. exists [], (heap σ).
    split; [by rewrite setHeap_same|]. split; [done|constructor].
  - apply Forall2_cons_inv_l in Hcells as (cs & cells' & Hrw & Hg & ->).
    destruct (mapRow_spec f rw σ cs Hrw) as (rw' & h1 & Hrun1 & Hsub1 & Hrw').
    destruct (IH (setHeap h1 σ) cells') as (g' & h' & Hrun & Hsub & Hg').
    { eapply Forall2_impl; [done|]. intros ??. by apply row_mono. }
    exists (rw' :: g'), h'. split; [|split].
    + cbn [mapGrid]. unfold bind at 1. rewrite Hrun1.
      unfold bind at 1. rewrite Hrun. done.
    + by etrans.
    + unfold retypeAll. rewrite fmap_cons. constructor; [|done].
      by eapply row_mono.
Qed.

Lemma clear_spec f σ (cells : Grid) :
  snapshot (heap σ) (grid σ) = Some cells →
  ∃ g' h',
    (let! newGrid := mapGrid f (grid σ) in
     modify (setGrid newGrid);; modify (setMessage EmptyString)) σ =
      Ok () (setMessage EmptyString (setGrid g' (setHeap h' σ))) ∧
    snapshot h' g' = Some (retypeAll f cells).
Proof.
  intros Hsnap%snapshot_Forall2.
  destruct (mapGrid_spec f (grid σ) σ cells Hsnap) as (g' & h' & Hrun & _ & Hg').
  exists g', h'. split; [|by apply snapshot_Forall2].
  unfold bind at 1. by rewrite Hrun.
Qed.

Lemma retype_idemp f (cells : Grid) :
  (∀ t, f (f t) = f t) →
  retypeAll f (retypeAll f cells) = retypeAll f cells.
Proof.
  intros Hf. unfold retypeAll. rewrite <-list_fmap_compose. apply list_fmap_ext.
  intros _ rw _. simpl. rewrite <-list_fmap_compose. apply list_fmap_ext.
  intros _ c _. unfold retype. simpl. by rewrite Hf.
Qed.

Lemma retype_Forall2 f (cells : Grid) :
  Forall2 (Forall2 (λ c c', coord c' = coord c ∧ type c' = f (type c)))
          cells (retypeAll f cells).
Proof.
  apply Forall2_fmap_r, Forall_Forall2_diag, Forall_forall. intros rw _.
  apply Forall2_fmap_r, Forall_Forall2_diag, Forall_forall. by intros c _.
Qed.
End Handlers.

(** ** Claims about the handlers *)

(** What a click on the end cell does in Set Start mode: the handler
    returns right after clearing the mark of the previous start. *)
Lemma click_on_end_returns_after_clearing σ σ1 r c rw l v :
  App.isRunning σ = false → App.mode σ = App.SetStart →
  App.index (App.grid σ) r = Some rw → App.index rw c = Some l →
  App.clearMark (App.grid σ) (App.start σ) σ = App.Ok () σ1 →
  App.heap σ1 !! l = Some v → type v = End →
  App.handleCellClick r c σ = App.Ok () σ1.
Proof.
  intros Hrun Hmode Hrw Hl Hclear Hv Hty. unfold App.handleCellClick.
  rewrite Hrun, Hmode, Hrw.
  cbv [App.bind App.ret App.defined App.readCell]. rewrite Hclear, Hl, Hv.
  by rewrite bool_decide_true.
Qed.

(** With no start placed yet, such a click changes nothing. *)
Lemma click_on_end_without_start σ r c rw l v :
  App.isRunning σ = false → App.mode σ = App.SetStart →
  App.start σ = None →
  App.index (App.grid σ) r = Some rw → App.index rw c = Some l →
  App.heap σ !! l = Some v → type v = End →
  App.handleCellClick r c σ = App.Ok () σ.
Proof.
  intros Hrun Hmode Hstart Hrw Hl Hv Hty.
  apply (click_on_end_returns_after_clearing σ σ r c rw l v); try done.
  by rewrite Hstart.
Qed.

(** C2, on the code.  With a start at [(0, 0)], an end at [(0, 1)] and the
    mode back on Set Start, a click on the end cell leaves the mode alone
    but not the grid: the cell that was the start now has type [Empty]. *)
Theorem click_on_end_clears_start :
  App.mode App.replacing = App.SetStart ∧
  App.shown App.replacing =
    Some [ [Start; End;   Empty; Empty; Empty];
           [Empty; Empty; Empty; Empty; Empty];
           [Empty; Empty; Empty; Empty; Empty];
           [Empty; Empty; Empty; Empty; Empty];
           [Empty; Empty; Empty; Empty; Empty] ] ∧
  ∃ σ', App.handleCellClick 0 1 App.replacing = App.Ok () σ' ∧
        App.mode σ' = App.SetStart ∧
        App.start σ' = App.start App.replacing ∧
        App.shown σ' =
          Some [ [Empty; End;   Empty; Empty; Empty];
                 [Empty; Empty; Empty; Empty; Empty];
                 [Empty; Empty; Empty; Empty; Empty];
                 [Empty; Empty; Empty; Empty; Empty];
                 [Empty; Empty; Empty; Empty; Empty] ].
Proof.
  split; [reflexivity|]. split; [reflexivity|].
  eexists. split; [vm_compute; reflexivity|]. by vm_compute.
Qed.

(** The state that follows is one a session reaches: the start reference
    points to a cell that Draw Walls turns into a wall, and a run from it
    returns a path through that wall. *)
Lemma walled_start_reachable :
  App.snapshot (App.heap App.walledStart) (App.grid App.walledStart) =
    Some wallStartGrid ∧
  (App.start App.walledStart ≫= λ l, App.heap App.walledStart !! l) =
    Some (mkCell 0 0 Wall) ∧
  (App.end_ App.walledStart ≫= λ l, App.heap App.walledStart !! l) =
    Some (mkCell 0 1 End) ∧
  ∃ σ' r, App.visualizePath App.walledStart = App.Ok (Some r) σ' ∧
          found r = true ∧ path r = [mkCell 0 0 Wall; mkCell 0 1 End].
Proof.
  split; [reflexivity|]. split; [reflexivity|]. split; [reflexivity|].
  eexists _, _. split; [vm_compute; reflexivity|]. by split.
Qed.

(** C7.  [clearPath] applied twice leaves the same cells as applied once,
    and so does [clearWalls]; [clearPath] makes every [Path] and [Visited]
    cell [Empty] and keeps every other type, [clearWalls] makes every [Wall]
    cell [Empty] and keeps every other type; coordinates stay. *)
Theorem clear_idempotent σ (cells : Grid) :
  App.snapshot (App.heap σ) (App.grid σ) = Some cells →
  (∃ σ1 σ2 cells1,
     App.clearPath σ = App.Ok () σ1 ∧ App.clearPath σ1 = App.Ok () σ2 ∧
     App.snapshot (App.heap σ1) (App.grid σ1) = Some cells1 ∧
     App.snapshot (App.heap σ2) (App.grid σ2) = Some cells1 ∧
     Forall2 (Forall2 (λ c c',
       coord c' = coord c ∧
       type c' = match type c with Path | Visited => Empty | t => t end))
       cells cells1) ∧
  (∃ σ1 σ2 cells1,
     App.clearWalls σ = App.Ok () σ1 ∧ App.clearWalls σ1 = App.Ok () σ2 ∧
     App.snapshot (App.heap σ1) (App.grid σ1) = Some cells1 ∧
     App.snapshot (App.heap σ2) (App.grid σ2) = Some cells1 ∧
     Forall2 (Forall2 (λ c c',
       coord c' = coord c ∧
       type c' = match type c with Wall => Empty | t => t end))
       cells cells1).
Proof.
  intros Hsnap.
  assert (∀ f, (∀ t, f (f t) = f t) →
    ∃ σ1 σ2,
      (App.bind (App.mapGrid f (App.grid σ)) (λ newGrid,
         App.bind (App.modify (App.setGrid newGrid)) (λ _,
           App.modify (App.setMessage EmptyString)))) σ = App.Ok () σ1 ∧
      (App.bind (App.mapGrid f (App.grid σ1)) (λ newGrid,
         App.bind (App.modify (App.setGrid newGrid)) (λ _,
           App.modify (App.setMessage EmptyString)))) σ1 = App.Ok () σ2 ∧
      App.snapshot (App.heap σ1) (App.grid σ1) = Some (App.retypeAll f cells) ∧
      App.snapshot (App.heap σ2) (App.grid σ2) = Some (App.retypeAll f cells))
    as Htwice.
  { intros f Hf.
    destruct (clear_spec f σ cells Hsnap) as (g1 & h1 & Hrun1 & Hsnap1).
    set (σ1 := App.setMessage EmptyString (App.setGrid g1 (App.setHeap h1 σ))).
    destruct (clear_spec f σ1 (App.retypeAll f cells) Hsnap1)
      as (g2 & h2 & Hrun2 & Hsnap2).
    rewrite retype_idemp in Hsnap2 by done.
    by eexists σ1, _. }
  split.
  - destruct (Htwice App.withoutOverlay) as (σ1 & σ2 & H1 & H2 & Hs1 & Hs2).
    { by intros []. }
    exists σ1, σ2, (App.retypeAll App.withoutOverlay cells).
    repeat (split; [done|]).
    eapply Forall2_impl; [apply retype_Forall2|]. intros rw rw' Hrw.
    eapply Forall2_impl; [done|]. intros c c' [Hc Ht]. split; [done|].
    rewrite Ht. by destruct (type c).
  - destruct (Htwice App.withoutWall) as (σ1 & σ2 & H1 & H2 & Hs1 & Hs2).
    { by intros []. }
    exists σ1, σ2, (App.retypeAll App.withoutWall cells).
    repeat (split; [done|]).
    eapply Forall2_impl; [apply retype_Forall2|]. intros rw rw' Hrw.
    eapply Forall2_impl; [done|]. intros c c' [Hc Ht]. split; [done|].
    rewrite Ht. by destruct (type c).
Qed.

Lemma clear_idempotent_witness :
  (∃ σ1 σ2 cells1,
     App.clearPath App.visualized = App.Ok () σ1 ∧
     App.clearPath σ1 = App.Ok () σ2 ∧
     App.snapshot (App.heap σ1) (App.grid σ1) = Some cells1 ∧
     App.snapshot (App.heap σ2) (App.grid σ2) = Some cells1 ∧
     Forall2 (Forall2 (λ c c',
       coord c' = coord c ∧
       type c' = match type c with Path | Visited => Empty | t => t end))
       visualizedGrid cells1) ∧
  (∃ σ1 σ2 cells1,
     App.clearWalls App.visualized = App.Ok () σ1 ∧
     App.clearWalls σ1 = App.Ok () σ2 ∧
     App.snapshot (App.heap σ1) (App.grid σ1) = Some cells1 ∧
     App.snapshot (App.heap σ2) (App.grid σ2) = Some cells1 ∧
     Forall2 (Forall2 (λ c c',
       coord c' = coord c ∧
       type c' = match type c with Wall => Empty | t => t end))
       visualizedGrid cells1).
Proof.
  apply (clear_idempotent App.visualized visualizedGrid).
  vm_compute. reflexivity.
Defined.

(** C9.  With the start or the end reference unset, [visualizePath] returns
    without a traversal result and leaves the state as it was, the grid and
    its cells included, but for the message telling the user to select both
    points. *)
Theorem visualize_needs_endpoints σ :
  App.start σ = None ∨ App.end_ σ = None →
  ∃ σ', App.visualizePath σ = App.Ok None σ' ∧
        σ' = App.setMessage "Please select both start and end points!" σ ∧
        App.grid σ' = App.grid σ ∧ App.heap σ' = App.heap σ ∧
        App.isRunning σ' = App.isRunning σ ∧
        App.message σ' = "Please select both start and end points!".
Proof.
  intros Hunset. eexists. split; [|done].
  unfold App.visualizePath.
  destruct Hunset as [-> | ->]; [done|]. by destruct (App.start σ).
Qed.

Lemma visualize_needs_endpoints_witness :
  ∃ σ', App.visualizePath App.startOnly = App.Ok None σ' ∧
        σ' = App.setMessage "Please select both start and end points!"
                            App.startOnly ∧
        App.grid σ' = App.grid App.startOnly ∧
        App.heap σ' = App.heap App.startOnly ∧
        App.isRunning σ' = App.isRunning App.startOnly ∧
        App.message σ' = "Please select both start and end points!".
Proof.
  apply (visualize_needs_endpoints App.startOnly). right. reflexivity.
Defined.

(** ** More about what the searches return *)

Section MoreSearch.
Context (rows cols : Z) (grid : Grid) (Hwf : wf_grid rows cols grid).
Context (take : list (Cell * list Cell) →
                option ((Cell * list Cell) * list (Cell * list Cell))).
Context (Htake : take_ok take).
Context (s e : Cell).

(** Paths never come back to a coordinate and are made of the start cell
    and visited cells; visited cells are within reach of the start; a search
    that fails has visited all that is within reach. *)
Lemma search_paths :
  ∃ r, search rows cols grid take (enough rows cols) s e = Returned r ∧
    (∀ c, c ∈ visited r → ∃ n, walk rows cols grid n (coord s) (coord c)) ∧
    (found r = true →
       NoDup (coord <$> path r) ∧ ∀ x, x ∈ path r → x = s ∨ x ∈ visited r) ∧
    (found r = false →
       ∀ n v, walk rows cols grid n (coord s) v →
              v = coord s ∨ v ∈ coord <$> visited r).
Proof.
  unfold search.
  apply (loop_rule rows cols grid Hwf take Htake e
    (λ st, Inv rows cols grid s e st ∧
       (∀ c p, (c, p) ∈ frontier st →
          NoDup (coord <$> p) ∧
          ∀ x, x ∈ p → keyOf x ∈ visitedSet st ∧ (x = s ∨ x ∈ visitedCells st)) ∧
       (∀ c, c ∈ visitedCells st →
          ∃ n, walk rows cols grid n (coord s) (coord c)))).
  - intros st (HI & _ & Hreach) Hnil. simpl. split; [done|]. split; [done|].
    intros _ n v Hwalk.
    destruct (Inv_exhausted rows cols grid s e st n v HI Hnil Hwalk) as [Hv _].
    apply (inv_set _ _ _ _ _ _ HI) in Hv as [Hv|(c & Hc & Hv)].
    + left. apply key_inj in Hv as [? ?]. destruct v. unfold coord. by simplify_eq/=.
    + right. apply list_elem_of_fmap. exists c. split; [|done].
      apply key_inj in Hv as [? ?]. destruct v. unfold coord. by simplify_eq/=.
  - intros st c p rest (HI & Hpaths & Hreach) Hperm Hend. simpl.
    split; [done|]. split; [|done]. intros _.
    destruct (Hpaths c p) as [Hnd Hin]; [rewrite Hperm; by left|].
    split; [done|]. intros x Hx. by destruct (Hin x Hx).
  - intros st c p rest new (HI & Hpaths & Hreach) Htk Hne Hnd Hnew.
    pose proof (Htake (frontier st)) as Hperm. rewrite Htk in Hperm.
    split; [|split]; simpl.
    + by apply (Inv_step rows cols grid Hwf s e st c p rest new).
    + intros c' p' [Hold|(w & [= -> ->] & Hw)%list_elem_of_fmap]%elem_of_app.
      * destruct (Hpaths c' p') as [Hnd' Hin]; [rewrite Hperm; by right|].
        split; [done|]. intros x Hx. destruct (Hin x Hx) as [Hk Hv].
        split; [apply elem_of_union; by right|].
        destruct Hv as [->|Hv]; [by left|]. right. apply elem_of_app. by left.
      * destruct (Hpaths c p) as [Hnd' Hin]; [rewrite Hperm; by left|].
        apply Hnew in Hw as Hw'. destruct Hw' as (_ & _ & Hfresh). split.
        -- rewrite fmap_app. simpl. apply NoDup_app. split; [done|]. split.
           ++ intros u (x & -> & Hx)%list_elem_of_fmap Hu%list_elem_of_singleton.
              apply Hfresh. destruct (Hin x Hx) as [Hk _].
              by rewrite <-(proj2 (keyOf_coord x w) Hu).
           ++ apply NoDup_singleton.
        -- intros x [Hx|Hx%list_elem_of_singleton]%elem_of_app; [|subst x].
           ++ destruct (Hin x Hx) as [Hk Hv].
              split; [apply elem_of_union; by right|].
              destruct Hv as [->|Hv]; [by left|]. right. apply elem_of_app. by left.
           ++ split.
              ** apply elem_of_union. left.
                 apply elem_of_list_to_set, list_elem_of_fmap. by exists w.
              ** right. apply elem_of_app. by right.
    + intros w [Hw|Hw]%elem_of_app; [by apply Hreach|].
      apply Hnew in Hw as (Hent & (d & Hd & Hcd) & _).
      destruct (inv_frontier _ _ _ _ _ _ HI c p) as [Htrail _];
        [rewrite Hperm; by left|].
      apply trail_walk in Htrail as (n & _ & Hwalk).
      exists (S n). econstructor; [done|]. split; [by exists d|].
      by apply enterable_open.
  - split; [apply Inv_init|]. split; simpl.
    + intros c p Hcp%list_elem_of_singleton. injection Hcp as -> ->.
      split; [apply NoDup_singleton|].
      intros x Hx%list_elem_of_singleton. subst x.
      split; [by apply elem_of_singleton|by left].
    + by intros c ?%elem_of_nil.
  - apply potential_init.
Qed.
End MoreSearch.

Section Facts.
Context (rows cols : Z) (grid : Grid) (Hwf : wf_grid rows cols grid).
Context (take : list (Cell * list Cell) →
                option ((Cell * list Cell) * list (Cell * list Cell))).
Context (Htake : take_ok take).
Context (s e : Cell).

(** All that is known of a search, about one and the same result. *)
Lemma search_facts :
  ∃ r, search rows cols grid take (enough rows cols) s e = Returned r ∧
    NoDup (coord <$> visited r) ∧
    (coord s ∉ coord <$> visited r) ∧
    (∀ c, c ∈ visited r →
       enterable rows cols grid c ∧
       ∃ n, walk rows cols grid n (coord s) (coord c)) ∧
    (found r = true →
       (∃ c, coord c = coord e ∧ trail rows cols grid s c (path r)) ∧
       NoDup (coord <$> path r) ∧
       ∀ x, x ∈ path r → x = s ∨ x ∈ visited r) ∧
    (found r = false →
       path r = [] ∧
       ∀ n v, walk rows cols grid n (coord s) v →
              v = coord s ∨ v ∈ coord <$> visited r).
Proof.
  destruct (search_generic rows cols grid Hwf take Htake s e)
    as (r & Hrun & Hnd & Hs & Hent & Hyes & Hno).
  destruct (search_paths rows cols grid Hwf take Htake s e)
    as (r' & Hrun' & Hreach & Hpath & Hflood).
  rewrite Hrun in Hrun'. injection Hrun' as <-.
  exists r. split; [done|]. split; [done|]. split; [done|].
  split; [by intros c Hc; split; [apply Hent|apply Hreach]|].
  split.
  - intros Hf. split; [by apply Hyes|]. by apply Hpath.
  - intros Hf. split; [by apply Hno|]. by apply Hflood.
Qed.

Lemma inside_allCoords u :
  insideb rows cols u = true → u ∈ allCoords rows cols.
Proof.
  rewrite insideb_true. intros [Hr Hc]. unfold allCoords.
  apply list_elem_of_bind. exists u.1. split.
  - apply list_elem_of_fmap. exists u.2. split; [by destruct u|].
    apply elem_of_seqZ. lia.
  - apply elem_of_seqZ. lia.
Qed.

Lemma inside_NoDup_length (l : list (Z * Z)) :
  NoDup l → (∀ u, u ∈ l → insideb rows cols u = true) →
  (length l ≤ Z.to_nat (rows * cols))%nat.
Proof.
  intros Hnd Hin. etrans; [|apply length_allCoords].
  apply submseteq_length, NoDup_submseteq; [done|].
  intros u Hu. by apply inside_allCoords, Hin.
Qed.

(** The cells of a path after the first are distinct visited cells. *)
Lemma path_within_visited (rest V : list Cell) :
  NoDup (coord <$> s :: rest) →
  (∀ x, x ∈ s :: rest → x = s ∨ x ∈ V) →
  (length rest ≤ length V)%nat.
Proof.
  intros Hp Hin.
  rewrite fmap_cons in Hp. apply NoDup_cons in Hp as [Hs Hrest].
  rewrite <-(length_fmap coord rest), <-(length_fmap coord V).
  apply submseteq_length, NoDup_submseteq; [done|].
  intros u (y & -> & Hy)%list_elem_of_fmap.
  destruct (Hin y) as [->|Hyv]; [by right| |by apply list_elem_of_fmap_2].
  destruct Hs. by apply list_elem_of_fmap_2.
Qed.
End Facts.

Section BothFacts.
Context (rows cols : Z) (grid : Grid) (Hwf : wf_grid rows cols grid).
Context (s e : Cell).

Lemma bfs_facts :
  ∃ r, bfs rows cols grid s e = Returned r ∧
    NoDup (coord <$> visited r) ∧
    (coord s ∉ coord <$> visited r) ∧
    (∀ c, c ∈ visited r →
       enterable rows cols grid c ∧
       ∃ n, walk rows cols grid n (coord s) (coord c)) ∧
    (found r = true →
       (∃ c, coord c = coord e ∧ trail rows cols grid s c (path r)) ∧
       NoDup (coord <$> path r) ∧
       ∀ x, x ∈ path r → x = s ∨ x ∈ visited r) ∧
    (found r = false →
       path r = [] ∧
       ∀ n v, walk rows cols grid n (coord s) v →
              v = coord s ∨ v ∈ coord <$> visited r).
Proof. apply (search_facts rows cols grid Hwf shift shift_ok s e). Qed.

Lemma dfs_facts :
  ∃ r, dfs rows cols grid s e = Returned r ∧
    NoDup (coord <$> visited r) ∧
    (coord s ∉ coord <$> visited r) ∧
    (∀ c, c ∈ visited r →
       enterable rows cols grid c ∧
       ∃ n, walk rows cols grid n (coord s) (coord c)) ∧
    (found r = true →
       (∃ c, coord c = coord e ∧ trail rows cols grid s c (path r)) ∧
       NoDup (coord <$> path r) ∧
       ∀ x, x ∈ path r → x = s ∨ x ∈ visited r) ∧
    (found r = false →
       path r = [] ∧
       ∀ n v, walk rows cols grid n (coord s) v →
              v = coord s ∨ v ∈ coord <$> visited r).
Proof. apply (search_facts rows cols grid Hwf pop pop_ok s e). Qed.
End BothFacts.

(** ** Further properties of the traversal engine *)

(** X1.  A path returned with [found = true] begins with the very cell
    passed as start and ends on a cell at the coordinates of the end. *)
Theorem path_endpoints rows cols grid s e :
  wf_grid rows cols grid →
  ∃ rb rd, bfs rows cols grid s e = Returned rb ∧
           dfs rows cols grid s e = Returned rd ∧
    ∀ r, r = rb ∨ r = rd → found r = true →
      head (path r) = Some s ∧
      ∃ c, last (path r) = Some c ∧ coord c = coord e.
Proof.
  intros Hwf.
  destruct (bfs_facts rows cols grid Hwf s e) as (rb & Hb & _ & _ & _ & Hyb & _).
  destruct (dfs_facts rows cols grid Hwf s e) as (rd & Hd & _ & _ & _ & Hyd & _).
  exists rb, rd. split; [done|]. split; [done|].
  assert (∀ r,
    (found r = true →
       (∃ c, coord c = coord e ∧ trail rows cols grid s c (path r)) ∧
       NoDup (coord <$> path r) ∧
       ∀ x, x ∈ path r → x = s ∨ x ∈ visited r) →
    found r = true →
    head (path r) = Some s ∧ ∃ c, last (path r) = Some c ∧ coord c = coord e)
    as Hr.
  { intros r Hyes Hf. destruct (Hyes Hf) as ((c & Hc & Htrail) & _).
    apply trail_shape in Htrail as (rest & Hp & Hlast & _).
    rewrite Hp in *. split; [done|]. by exists c. }
  intros r [-> | ->]; by apply Hr.
Qed.

Lemma path_endpoints_witness :
  ∃ rb rd, bfs 5 5 openGrid (mkCell 0 0 Start) (mkCell 0 4 End) = Returned rb ∧
           dfs 5 5 openGrid (mkCell 0 0 Start) (mkCell 0 4 End) = Returned rd ∧
    ∀ r, r = rb ∨ r = rd → found r = true →
      head (path r) = Some (mkCell 0 0 Start) ∧
      ∃ c, last (path r) = Some c ∧ coord c = coord (mkCell 0 4 End).
Proof.
  apply (path_endpoints 5 5 openGrid (mkCell 0 0 Start) (mkCell 0 4 End)).
  reflexivity.
Defined.

(** X2.  A returned path visits no coordinate twice, every cell on it is
    the start cell or a visited cell, and so it has no more edges than there
    are visited cells. *)
Theorem path_simple rows cols grid s e :
  wf_grid rows cols grid →
  ∃ rb rd, bfs rows cols grid s e = Returned rb ∧
           dfs rows cols grid s e = Returned rd ∧
    ∀ r, r = rb ∨ r = rd → found r = true →
      NoDup (coord <$> path r) ∧
      (∀ x, x ∈ path r → x = s ∨ x ∈ visited r) ∧
      (edgeCount (path r) ≤ length (visited r))%nat.
Proof.
  intros Hwf.
  destruct (bfs_facts rows cols grid Hwf s e) as (rb & Hb & _ & _ & _ & Hyb & _).
  destruct (dfs_facts rows cols grid Hwf s e) as (rd & Hd & _ & _ & _ & Hyd & _).
  exists rb, rd. split; [done|]. split; [done|].
  assert (∀ r,
    (found r = true →
       (∃ c, coord c = coord e ∧ trail rows cols grid s c (path r)) ∧
       NoDup (coord <$> path r) ∧
       ∀ x, x ∈ path r → x = s ∨ x ∈ visited r) →
    found r = true →
    NoDup (coord <$> path r) ∧
    (∀ x, x ∈ path r → x = s ∨ x ∈ visited r) ∧
    (edgeCount (path r) ≤ length (visited r))%nat) as Hr.
  { intros r Hyes Hf. destruct (Hyes Hf) as ((c & Hc & Htrail) & Hnd & Hin).
    split; [done|]. split; [done|].
    apply trail_shape in Htrail as (rest & Hp & _).
    unfold edgeCount. rewrite Hp in *. simpl. rewrite Nat.sub_0_r.
    by apply (path_within_visited s). }
  intros r [-> | ->]; by apply Hr.
Qed.

Lemma path_simple_witness :
  ∃ rb rd, bfs 5 5 openGrid (mkCell 0 0 Start) (mkCell 0 4 End) = Returned rb ∧
           dfs 5 5 openGrid (mkCell 0 0 Start) (mkCell 0 4 End) = Returned rd ∧
    ∀ r, r = rb ∨ r = rd → found r = true →
      NoDup (coord <$> path r) ∧
      (∀ x, x ∈ path r → x = mkCell 0 0 Start ∨ x ∈ visited r) ∧
      (edgeCount (path r) ≤ length (visited r))%nat.
Proof.
  apply (path_simple 5 5 openGrid (mkCell 0 0 Start) (mkCell 0 4 End)).
  reflexivity.
Defined.

(** X3.  Every visited cell is a cell object of the grid, inside its bounds
    and not a wall, that some sequence of moves into such cells reaches from
    the start. *)
Theorem visited_reachable rows cols grid s e :
  wf_grid rows cols grid →
  ∃ rb rd, bfs rows cols grid s e = Returned rb ∧
           dfs rows cols grid s e = Returned rd ∧
    ∀ r c, r = rb ∨ r = rd → c ∈ visited r →
      cellAt grid (row c) (col c) = Some c ∧
      insideb rows cols (coord c) = true ∧ type c ≠ Wall ∧
      ∃ n, walk rows cols grid n (coord s) (coord c).
Proof.
  intros Hwf.
  destruct (bfs_facts rows cols grid Hwf s e) as (rb & Hb & _ & _ & Hvb & _).
  destruct (dfs_facts rows cols grid Hwf s e) as (rd & Hd & _ & _ & Hvd & _).
  exists rb, rd. split; [done|]. split; [done|].
  intros r c [-> | ->] Hc.
  - destruct (Hvb c Hc) as ((? & ? & ?) & ?). done.
  - destruct (Hvd c Hc) as ((? & ? & ?) & ?). done.
Qed.

Lemma visited_reachable_witness :
  ∃ rb rd, bfs 5 5 ringGrid (mkCell 0 0 Start) (mkCell 2 2 End) = Returned rb ∧
           dfs 5 5 ringGrid (mkCell 0 0 Start) (mkCell 2 2 End) = Returned rd ∧
    ∀ r c, r = rb ∨ r = rd → c ∈ visited r →
      cellAt ringGrid (row c) (col c) = Some c ∧
      insideb 5 5 (coord c) = true ∧ type c ≠ Wall ∧
      ∃ n, walk 5 5 ringGrid n (coord (mkCell 0 0 Start)) (coord c).
Proof.
  apply (visited_reachable 5 5 ringGrid (mkCell 0 0 Start) (mkCell 2 2 End)).
  reflexivity.
Defined.

(** X4.  A search that ends with [found = false] has flooded the grid:
    every coordinate that moves into in-grid non-wall cells reach from the
    start is the start's own or that of a visited cell. *)
Theorem failed_search_floods rows cols grid s e :
  wf_grid rows cols grid →
  ∃ rb rd, bfs rows cols grid s e = Returned rb ∧
           dfs rows cols grid s e = Returned rd ∧
    ∀ r n v, r = rb ∨ r = rd → found r = false →
      walk rows cols grid n (coord s) v →
      v = coord s ∨ v ∈ coord <$> visited r.
Proof.
  intros Hwf.
  destruct (bfs_facts rows cols grid Hwf s e) as (rb & Hb & _ & _ & _ & _ & Hnb).
  destruct (dfs_facts rows cols grid Hwf s e) as (rd & Hd & _ & _ & _ & _ & Hnd).
  exists rb, rd. split; [done|]. split; [done|].
  intros r n v [-> | ->] Hf Hwalk.
  - destruct (Hnb Hf) as [_ Hflood]. by eapply Hflood.
  - destruct (Hnd Hf) as [_ Hflood]. by eapply Hflood.
Qed.

Lemma failed_search_floods_witness :
  ∃ rb rd, bfs 5 5 ringGrid (mkCell 0 0 Start) (mkCell 2 2 End) = Returned rb ∧
           dfs 5 5 ringGrid (mkCell 0 0 Start) (mkCell 2 2 End) = Returned rd ∧
    ∀ r n v, r = rb ∨ r = rd → found r = false →
      walk 5 5 ringGrid n (coord (mkCell 0 0 Start)) v →
      v = coord (mkCell 0 0 Start) ∨ v ∈ coord <$> visited r.
Proof.
  apply (failed_search_floods 5 5 ringGrid (mkCell 0 0 Start) (mkCell 2 2 End)).
  reflexivity.
Defined.

(** X5.  Neither search visits more cells than the grid has, and a returned
    path has at most [rows * cols] edges. *)
Theorem visited_bounded rows cols grid s e :
  wf_grid rows cols grid →
  ∃ rb rd, bfs rows cols grid s e = Returned rb ∧
           dfs rows cols grid s e = Returned rd ∧
    ∀ r, r = rb ∨ r = rd →
      (length (visited r) ≤ Z.to_nat (rows * cols))%nat ∧
      (edgeCount (path r) ≤ Z.to_nat (rows * cols))%nat.
Proof.
  intros Hwf.
  destruct (bfs_facts rows cols grid Hwf s e)
    as (rb & Hb & Hndb & _ & Hvb & Hyb & Hnb).
  destruct (dfs_facts rows cols grid Hwf s e)
    as (rd & Hd & Hndd & _ & Hvd & Hyd & Hnod).
  exists rb, rd. split; [done|]. split; [done|].
  assert (∀ r,
    NoDup (coord <$> visited r) →
    (∀ c, c ∈ visited r →
       enterable rows cols grid c ∧
       ∃ n, walk rows cols grid n (coord s) (coord c)) →
    (found r = true →
       (∃ c, coord c = coord e ∧ trail rows cols grid s c (path r)) ∧
       NoDup (coord <$> path r) ∧
       ∀ x, x ∈ path r → x = s ∨ x ∈ visited r) →
    (found r = false →
       path r = [] ∧
       ∀ n v, walk rows cols grid n (coord s) v →
              v = coord s ∨ v ∈ coord <$> visited r) →
    (length (visited r) ≤ Z.to_nat (rows * cols))%nat ∧
    (edgeCount (path r) ≤ Z.to_nat (rows * cols))%nat) as Hr.
  { intros r Hndv Hv Hyes Hno.
    assert (length (visited r) ≤ Z.to_nat (rows * cols))%nat as Hlen.
    { rewrite <-(length_fmap coord). apply inside_NoDup_length; [done|].
      intros u (c & -> & Hc)%list_elem_of_fmap.
      by destruct (Hv c Hc) as ((_ & ? & _) & _). }
    split; [done|]. destruct (found r) eqn:Hf.
    - destruct (Hyes eq_refl) as ((c & Hc & Htrail) & Hnd & Hin).
      apply trail_shape in Htrail as (rest & Hp & _).
      unfold edgeCount. rewrite Hp in *. simpl. rewrite Nat.sub_0_r.
      etrans; [by apply (path_within_visited s rest (visited r))|done].
    - destruct (Hno eq_refl) as [-> _]. unfold edgeCount. simpl. lia. }
  intros r [-> | ->]; by apply Hr.
Qed.

Lemma visited_bounded_witness :
  ∃ rb rd, bfs 5 5 openGrid (mkCell 0 0 Start) (mkCell 0 4 End) = Returned rb ∧
           dfs 5 5 openGrid (mkCell 0 0 Start) (mkCell 0 4 End) = Returned rd ∧
    ∀ r, r = rb ∨ r = rd →
      (length (visited r) ≤ Z.to_nat (5 * 5))%nat ∧
      (edgeCount (path r) ≤ Z.to_nat (5 * 5))%nat.
Proof.
  apply (visited_bounded 5 5 openGrid (mkCell 0 0 Start) (mkCell 0 4 End)).
  reflexivity.
Defined.

(** X6.  Whenever [dfs] finds a path, [bfs] finds one too, with no more
    edges. *)
Theorem bfs_no_longer_than_dfs rows cols grid s e :
  wf_grid rows cols grid →
  ∃ rb rd, bfs rows cols grid s e = Returned rb ∧
           dfs rows cols grid s e = Returned rd ∧
    (found rd = true →
       found rb = true ∧ (edgeCount (path rb) ≤ edgeCount (path rd))%nat).
Proof.
  intros Hwf.
  destruct (bfs_generic rows cols grid Hwf s e)
    as (rb & Hb & _ & _ & _ & Hyb & Hnb).
  destruct (dfs_generic rows cols grid Hwf s e)
    as (rd & Hd & _ & _ & _ & Hyd & _).
  exists rb, rd. split; [done|]. split; [done|]. intros Hfd.
  destruct (Hyd Hfd) as (c & Hc & (n & Hlen & Hwalk)%trail_walk).
  rewrite Hc in Hwalk.
  assert (found rb = true) as Hfb.
  { apply (found_iff_walk rows cols grid s e rb Hyb Hnb). by exists n. }
  split; [done|].
  pose proof (bfs_shortest rows cols grid Hwf s e rb n Hb Hfb Hwalk).
  unfold edgeCount. lia.
Qed.

Lemma bfs_no_longer_than_dfs_witness :
  ∃ rb rd, bfs 5 5 openGrid (mkCell 0 0 Start) (mkCell 0 4 End) = Returned rb ∧
           dfs 5 5 openGrid (mkCell 0 0 Start) (mkCell 0 4 End) = Returned rd ∧
    (found rd = true →
       found rb = true ∧ (edgeCount (path rb) ≤ edgeCount (path rd))%nat).
Proof.
  apply (bfs_no_longer_than_dfs 5 5 openGrid (mkCell 0 0 Start) (mkCell 0 4 End)).
  reflexivity.
Defined.

(** X7.  When start and end have the same coordinates, both searches
    return at once: [found = true], the path is the start cell alone and
    nothing is visited; the grid is not even read. *)
Theorem search_start_is_end rows cols grid s e :
  coord s = coord e →
  bfs rows cols grid s e = Returned (mkResult [s] [] true) ∧
  dfs rows cols grid s e = Returned (mkResult [s] [] true).
Proof.
  intros [= Hr Hc]. unfold bfs, dfs, bfs_upto, dfs_upto, search, enough.
  rewrite Nat.add_comm. cbn [Nat.add loop shift]. unfold pop. simpl.
  by rewrite !bool_decide_true.
Qed.

Lemma search_start_is_end_witness :
  bfs 5 5 wallStartGrid (mkCell 3 3 Empty) (mkCell 3 3 Visited) =
    Returned (mkResult [mkCell 3 3 Empty] [] true) ∧
  dfs 5 5 wallStartGrid (mkCell 3 3 Empty) (mkCell 3 3 Visited) =
    Returned (mkResult [mkCell 3 3 Empty] [] true).
Proof.
  apply (search_start_is_end 5 5 wallStartGrid
           (mkCell 3 3 Empty) (mkCell 3 3 Visited)).
  reflexivity.
Defined.

(** X8.  When a search finds the end and the end is not at the start's
    coordinates, the end's coordinates are among the visited ones. *)
Theorem end_is_visited rows cols grid s e :
  wf_grid rows cols grid → coord s ≠ coord e →
  ∃ rb rd, bfs rows cols grid s e = Returned rb ∧
           dfs rows cols grid s e = Returned rd ∧
    ∀ r, r = rb ∨ r = rd → found r = true →
      coord e ∈ coord <$> visited r.
Proof.
  intros Hwf Hne.
  destruct (bfs_facts rows cols grid Hwf s e) as (rb & Hb & _ & _ & _ & Hyb & _).
  destruct (dfs_facts rows cols grid Hwf s e) as (rd & Hd & _ & _ & _ & Hyd & _).
  exists rb, rd. split; [done|]. split; [done|].
  assert (∀ r,
    (found r = true →
       (∃ c, coord c = coord e ∧ trail rows cols grid s c (path r)) ∧
       NoDup (coord <$> path r) ∧
       ∀ x, x ∈ path r → x = s ∨ x ∈ visited r) →
    found r = true → coord e ∈ coord <$> visited r) as Hr.
  { intros r Hyes Hf. destruct (Hyes Hf) as ((c & Hc & Htrail) & _ & Hin).
    apply trail_shape in Htrail as (rest & Hp & Hlast & _).
    assert (c ∈ path r) as Hcp.
    { rewrite last_lookup in Hlast.
      exact (list_elem_of_lookup_2 _ _ _ Hlast). }
    destruct (Hin c Hcp) as [->|Hcv]; [done|].
    rewrite <-Hc. by apply list_elem_of_fmap_2. }
  intros r [-> | ->]; by apply Hr.
Qed.

Lemma end_is_visited_witness :
  ∃ rb rd, bfs 5 5 openGrid (mkCell 0 0 Start) (mkCell 0 4 End) = Returned rb ∧
           dfs 5 5 openGrid (mkCell 0 0 Start) (mkCell 0 4 End) = Returned rd ∧
    ∀ r, r = rb ∨ r = rd → found r = true →
      coord (mkCell 0 4 End) ∈ coord <$> visited r.
Proof.
  apply (end_is_visited 5 5 openGrid (mkCell 0 0 Start) (mkCell 0 4 End)).
  - reflexivity.
  - discriminate.
Defined.

(** ** Grids of references and the cells behind them *)

Lemma cellAt_Some (cells : Grid) r c x :
  cellAt cells r c = Some x ↔
  0 ≤ r ∧ 0 ≤ c ∧
  ∃ rw, cells !! Z.to_nat r = Some rw ∧ rw !! Z.to_nat c = Some x.
Proof.
  unfold cellAt. split.
  - destruct (bool_decide (0 ≤ r)) eqn:Hr; [|done].
    destruct (bool_decide (0 ≤ c)) eqn:Hc; [|done].
    apply bool_decide_eq_true in Hr, Hc. simpl.
    destruct (cells !! Z.to_nat r) as [rw|] eqn:Hrw; simpl; [|done].
    intros Hx. split; [done|]. split; [done|]. by exists rw.
  - intros (Hr & Hc & rw & Hrw & Hx).
    rewrite !bool_decide_true by done. simpl. by rewrite Hrw.
Qed.

Lemma refAt_Some (g : list (list App.ref)) r c l :
  refAt g r c = Some l ↔
  0 ≤ r ∧ 0 ≤ c ∧
  ∃ rw, g !! Z.to_nat r = Some rw ∧ rw !! Z.to_nat c = Some l.
Proof.
  unfold refAt, App.index. split.
  - destruct (bool_decide (0 ≤ r)) eqn:Hr; [|done].
    apply bool_decide_eq_true in Hr.
    destruct (g !! Z.to_nat r) as [rw|] eqn:Hrw; simpl; [|done].
    destruct (bool_decide (0 ≤ c)) eqn:Hc; [|done].
    apply bool_decide_eq_true in Hc.
    intros Hx. split; [done|]. split; [done|]. by exists rw.
  - intros (Hr & Hc & rw & Hrw & Hx).
    rewrite bool_decide_true by done. rewrite Hrw. simpl.
    by rewrite bool_decide_true by done.
Qed.

(** The cell of a snapshot at [(r, c)] is the object [grid[r][c]] refers
    to. *)
Lemma snapshot_cellAt h g (cells : Grid) r c x :
  App.snapshot h g = Some cells →
  cellAt cells r c = Some x ↔ ∃ l, refAt g r c = Some l ∧ h !! l = Some x.
Proof.
  intros Hsnap%snapshot_Forall2. rewrite cellAt_Some. split.
  - intros (Hr & Hc & cs & Hcs & Hx).
    destruct (Forall2_lookup_r _ _ _ _ _ Hsnap Hcs) as (rw & Hrw & Hrow).
    destruct (Forall2_lookup_r _ _ _ _ _ Hrow Hx) as (l & Hl & Hlx).
    exists l. split; [|done]. apply refAt_Some. split; [done|].
    split; [done|]. by exists rw.
  - intros (l & (Hr & Hc & rw & Hrw & Hl)%refAt_Some & Hlx).
    destruct (Forall2_lookup_l _ _ _ _ _ Hsnap Hrw) as (cs & Hcs & Hrow).
    destruct (Forall2_lookup_l _ _ _ _ _ Hrow Hl) as (y & Hy & Hly).
    split; [done|]. split; [done|]. exists cs. split; [done|]. congruence.
Qed.

Lemma wf_lookup_coord rows cols (cells : Grid) i j cs x :
  wf_grid rows cols cells →
  cells !! i = Some cs → cs !! j = Some x →
  coord x = (Z.of_nat i, Z.of_nat j).
Proof.
  intros Hwf Hcs Hx. apply (cellAt_coord rows cols cells); [done|].
  apply cellAt_Some. split; [lia|]. split; [lia|].
  exists cs. by rewrite !Nat2Z.id.
Qed.

Lemma wf_cellAt_inside rows cols (cells : Grid) r c x :
  wf_grid rows cols cells → cellAt cells r c = Some x →
  insideb rows cols (r, c) = true.
Proof.
  intros Hwf (Hr & Hc & cs & Hcs & Hx)%cellAt_Some.
  assert (Hrow := f_equal (λ l, l !! Z.to_nat r) Hwf). cbv beta in Hrow.
  rewrite !list_lookup_fmap, Hcs in Hrow. simpl in Hrow.
  destruct (seqZ 0 rows !! Z.to_nat r) as [i|] eqn:Hi; [|done].
  apply lookup_seqZ in Hi as [-> Hi]. simpl in Hrow.
  injection Hrow as Hrow.
  assert (Hcol := f_equal (λ l, l !! Z.to_nat c) Hrow). cbv beta in Hcol.
  rewrite !list_lookup_fmap, Hx in Hcol. simpl in Hcol.
  destruct (seqZ 0 cols !! Z.to_nat c) as [j|] eqn:Hj; [|done].
  apply lookup_seqZ in Hj as [-> Hj].
  apply insideb_true. simpl. lia.
Qed.

Lemma fmap_alter_id {A B} (f : A → B) (g : A → A) i (l : list A) :
  (∀ x, x ∈ l → f (g x) = f x) → f <$> alter g i l = f <$> l.
Proof.
  intros Hfg. apply list_eq. intros j. rewrite !list_lookup_fmap.
  rewrite list_lookup_alter. destruct (decide (i = j)) as [->|]; [|done].
  destruct (l !! j) as [x|] eqn:Hx; [|done]. simpl.
  by rewrite Hfg by by eapply list_elem_of_lookup_2.
Qed.

Lemma setType_wf rows cols (cells : Grid) r c t :
  wf_grid rows cols cells → wf_grid rows cols (setType cells r c t).
Proof.
  unfold wf_grid, setType. intros <-. apply fmap_alter_id.
  intros cs _. by apply fmap_alter_id.
Qed.

Lemma cellAt_setType_eq (cells : Grid) r c t :
  0 ≤ r → 0 ≤ c →
  cellAt (setType cells r c t) r c = withType t <$> cellAt cells r c.
Proof.
  intros Hr Hc. unfold cellAt, setType.
  rewrite !bool_decide_true by done. simpl.
  rewrite list_lookup_alter, decide_True by done.
  destruct (cells !! Z.to_nat r) as [cs|]; [|done]. simpl.
  by rewrite list_lookup_alter, decide_True by done.
Qed.

Lemma cellAt_setType_ne (cells : Grid) r c t i j :
  0 ≤ r → 0 ≤ c → (i, j) ≠ (r, c) →
  cellAt (setType cells r c t) i j = cellAt cells i j.
Proof.
  intros Hr Hc Hne. unfold cellAt, setType.
  destruct (bool_decide (0 ≤ i)) eqn:Hi; [|done].
  destruct (bool_decide (0 ≤ j)) eqn:Hj; [|done].
  apply bool_decide_eq_true in Hi, Hj. simpl.
  rewrite list_lookup_alter.
  destruct (decide (Z.to_nat r = Z.to_nat i)) as [Heq|]; [|done].
  rewrite Heq. destruct (cells !! Z.to_nat i) as [cs|]; [|done]. simpl.
  rewrite list_lookup_alter_ne; [done|].
  intros Heq'. apply Hne. f_equal; lia.
Qed.

Lemma setType_same (cells : Grid) r c t x :
  cellAt cells r c = Some x → type x = t → setType cells r c t = cells.
Proof.
  intros (Hr & Hc & cs & Hcs & Hx)%cellAt_Some Ht. unfold setType.
  apply list_eq. intros i. rewrite list_lookup_alter.
  destruct (decide (Z.to_nat r = i)) as [<-|]; [|done].
  rewrite Hcs. simpl. f_equal.
  apply list_eq. intros j. rewrite list_lookup_alter.
  destruct (decide (Z.to_nat c = j)) as [<-|]; [|done].
  rewrite Hx. simpl. f_equal. destruct x. simpl in Ht. by subst.
Qed.

Lemma setType_setType (cells : Grid) r c t t' :
  setType (setType cells r c t) r c t' = setType cells r c t'.
Proof.
  unfold setType. rewrite list_alter_alter_eq. apply list_alter_ext.
  - intros cs _. simpl. rewrite list_alter_alter_eq. by apply list_alter_ext.
  - done.
Qed.

(** Assigning to [type] through the reference [grid[r][c]] changes the
    cell at [(r, c)] and no other: cells at other places are other
    objects, for every cell holds its own coordinates. *)
Lemma write_snapshot rows cols h g (cells : Grid) r c l t :
  App.snapshot h g = Some cells → wf_grid rows cols cells →
  refAt g r c = Some l →
  App.snapshot (alter (withType t) l h) g = Some (setType cells r c t).
Proof.
  intros Hsnap Hwf Hl.
  pose proof Hl as (Hr & Hc & rw0 & Hrw0 & Hl0)%refAt_Some.
  assert (∃ x0, cellAt cells r c = Some x0 ∧ h !! l = Some x0) as (x0 & Hx0 & Hlx0).
  { apply snapshot_Forall2 in Hsnap.
    destruct (Forall2_lookup_l _ _ _ _ _ Hsnap Hrw0) as (cs & Hcs & Hrow).
    destruct (Forall2_lookup_l _ _ _ _ _ Hrow Hl0) as (y & Hy & Hly).
    exists y. split; [|done]. apply cellAt_Some. split; [done|].
    split; [done|]. by exists cs. }
  pose proof (cellAt_coord _ _ _ _ _ _ Hwf Hx0) as Hcoord0.
  apply snapshot_Forall2 in Hsnap. apply snapshot_Forall2.
  apply Forall2_same_length_lookup. split.
  { unfold setType. rewrite length_alter. by eapply Forall2_length. }
  intros i rw cs' Hrw Hcs'.
  destruct (Forall2_lookup_l _ _ _ _ _ Hsnap Hrw) as (cs & Hcs & Hrow).
  assert (∀ j l' x, rw !! j = Some l' → cs !! j = Some x →
            (i, j) ≠ (Z.to_nat r, Z.to_nat c) → l' ≠ l) as Hother.
  { intros j l' x Hl' Hx Hne ->.
    pose proof (Forall2_lookup_lr _ _ _ _ _ _ Hrow Hl' Hx) as Hlx.
    simpl in Hlx. rewrite Hlx0 in Hlx. injection Hlx as <-.
    pose proof (wf_lookup_coord _ _ _ _ _ _ _ Hwf Hcs Hx) as Hco.
    rewrite Hcoord0 in Hco. injection Hco as Hi Hj.
    apply Hne. f_equal; lia. }
  unfold setType in Hcs'. rewrite list_lookup_alter in Hcs'.
  apply Forall2_same_length_lookup. split.
  { destruct (decide (Z.to_nat r = i)) as [<-|].
    - rewrite Hcs in Hcs'. injection Hcs' as <-.
      rewrite length_alter. by eapply Forall2_length.
    - rewrite Hcs in Hcs'. injection Hcs' as <-. by eapply Forall2_length. }
  intros j l' x' Hl' Hx'.
  destruct (decide (Z.to_nat r = i)) as [<-|Hri].
  - rewrite Hcs in Hcs'. injection Hcs' as <-.
    rewrite list_lookup_alter in Hx'.
    destruct (decide (Z.to_nat c = j)) as [<-|Hcj].
    + assert (l' = l) as -> by congruence.
      rewrite lookup_alter, decide_True by done.
      rewrite Hlx0. simpl.
      apply cellAt_Some in Hx0 as (_ & _ & cs0 & Hcs0 & Hx0).
      rewrite Hcs in Hcs0. injection Hcs0 as <-.
      rewrite Hx0 in Hx'. simpl in Hx'. congruence.
    + rewrite lookup_alter_ne.
      * exact (Forall2_lookup_lr _ _ _ _ _ _ Hrow Hl' Hx').
      * intros Heq. eapply (Hother j l' x'); [done..| |done]. congruence.
  - rewrite Hcs in Hcs'. injection Hcs' as <-.
    rewrite lookup_alter_ne.
    + exact (Forall2_lookup_lr _ _ _ _ _ _ Hrow Hl' Hx').
    + intros Heq. eapply (Hother j l' x'); [done..| |done]. congruence.
Qed.

(** ** Assignments through references *)

Section Writes.
Import App.

Lemma keeps_refl h : keeps h h.
Proof. intros l y Hl. by exists y. Qed.

Lemma keeps_trans h1 h2 h3 : keeps h1 h2 → keeps h2 h3 → keeps h1 h3.
Proof.
  intros H12 H23 l y Hl.
  destruct (H12 l y Hl) as (y2 & Hl2 & Hc2).
  destruct (H23 l y2 Hl2) as (y3 & Hl3 & Hc3).
  exists y3. split; [done|]. congruence.
Qed.

Lemma keeps_alter (h : gmap ref Cell) l t : keeps h (alter (withType t) l h).
Proof.
  intros l' y Hl'. rewrite lookup_alter.
  destruct (decide (l = l')) as [->|].
  - rewrite Hl'. by exists (withType t y).
  - by exists y.
Qed.

Lemma keeps_subseteq (h h' : gmap ref Cell) : h ⊆ h' → keeps h h'.
Proof.
  intros Hsub l y Hl. exists y. split; [|done].
  exact (lookup_weaken _ _ _ _ Hl Hsub).
Qed.

Lemma placed_keeps rows cols h h' o :
  keeps h h' → placed rows cols h o → placed rows cols h' o.
Proof.
  intros Hk Hp l Hl. destruct (Hp l Hl) as (y & Hy & Hin).
  destruct (Hk l y Hy) as (y' & Hy' & Hco). exists y'. by rewrite Hco.
Qed.

Lemma marked_keeps t o h h' (cells : Grid) :
  keeps h h' → marked t o h cells → marked t o h' cells.
Proof.
  intros Hk Hm r c x Hx Ht.
  destruct (Hm r c x Hx Ht) as (l & y & Ho & Hy & Hco).
  destruct (Hk l y Hy) as (y' & Hy' & Hco').
  exists l, y'. split; [done|]. split; [done|]. congruence.
Qed.

(** Retyping a cell to something else than [t] makes no new cell of
    type [t]. *)
Lemma marked_setType t o h (cells : Grid) r c t' :
  0 ≤ r → 0 ≤ c → t' ≠ t →
  marked t o h cells → marked t o h (setType cells r c t').
Proof.
  intros Hr Hc Hne Hm i j x Hx Ht.
  destruct (decide ((i, j) = (r, c))) as [[= -> ->]|Hij].
  - rewrite cellAt_setType_eq in Hx by done.
    destruct (cellAt cells r c) as [x0|]; [|done].
    injection Hx as <-. done.
  - rewrite cellAt_setType_ne in Hx by done. by apply (Hm i j x).
Qed.

(** Once the cell behind [o] is emptied, no cell has the type that [o]
    marks. *)
Lemma unmark_none t o h (cells : Grid) rows cols i j x :
  t ≠ Empty → placed rows cols h o → marked t o h cells →
  cellAt (unmark cells (coordOf h o)) i j = Some x → type x ≠ t.
Proof.
  intros Hne Hp Hm Hx Ht. destruct o as [l0|]; simpl in Hx.
  - destruct (Hp l0 eq_refl) as (y & Hy & (Hr & Hc)%insideb_true).
    simpl in Hr, Hc. rewrite Hy in Hx. simpl in Hx.
    destruct (decide ((i, j) = (row y, col y))) as [[= -> ->]|Hij].
    + rewrite cellAt_setType_eq in Hx by lia.
      destruct (cellAt cells (row y) (col y)); [|done].
      injection Hx as <-. simpl in Ht. by subst.
    + rewrite cellAt_setType_ne in Hx by (done || lia).
      destruct (Hm i j x Hx Ht) as (l & y' & [= <-] & Hy' & Hco).
      rewrite Hy in Hy'. injection Hy' as <-. done.
  - by destruct (Hm i j x Hx Ht) as (l & y' & ? & _).
Qed.

Lemma unmark_wf rows cols (cells : Grid) u :
  wf_grid rows cols cells → wf_grid rows cols (unmark cells u).
Proof.
  intros Hwf. destruct u as [[r c]|]; [|done]. by apply setType_wf.
Qed.

Lemma marked_unmark t o o' h rows cols (cells : Grid) :
  t ≠ Empty → placed rows cols h o' →
  marked t o h cells → marked t o h (unmark cells (coordOf h o')).
Proof.
  intros Hne Hp Hm. destruct o' as [l0|]; simpl; [|done].
  destruct (Hp l0 eq_refl) as (y & Hy & (Hr & Hc)%insideb_true).
  simpl in Hr, Hc. rewrite Hy. simpl.
  apply marked_setType; [lia|lia|done|done].
Qed.

Lemma refAt_index (g : list (list ref)) r c l :
  refAt g r c = Some l ↔ ∃ rw, index g r = Some rw ∧ index rw c = Some l.
Proof.
  unfold refAt. destruct (index g r) as [rw|]; simpl.
  - split; [by exists rw|]. by intros (? & [= <-] & ?).
  - split; [done|]. by intros (? & ? & _).
Qed.

Lemma wf_refAt rows cols h g (cells : Grid) r c :
  snapshot h g = Some cells → wf_grid rows cols cells →
  insideb rows cols (r, c) = true →
  ∃ l x, refAt g r c = Some l ∧ h !! l = Some x ∧
         cellAt cells r c = Some x ∧ coord x = (r, c).
Proof.
  intros Hsnap Hwf (Hr & Hc)%insideb_true. simpl in Hr, Hc.
  destruct (wf_cellAt _ _ _ _ _ Hwf Hr Hc) as (x & Hx & Hrow & Hcol).
  pose proof Hx as (l & Hl & Hlx)%(snapshot_cellAt h g); [|done].
  exists l, x. unfold coord. by rewrite Hrow, Hcol.
Qed.

(** [if (o) newGrid[o.row][o.col].type = 'empty']. *)
Lemma clearMark_spec rows cols σ g (cells : Grid) o :
  snapshot (heap σ) g = Some cells → wf_grid rows cols cells →
  placed rows cols (heap σ) o →
  ∃ h', clearMark g o σ = Ok () (setHeap h' σ) ∧
        snapshot h' g = Some (unmark cells (coordOf (heap σ) o)) ∧
        keeps (heap σ) h'.
Proof.
  intros Hsnap Hwf Hp. destruct o as [l0|]; simpl.
  - destruct (Hp l0 eq_refl) as (y & Hy & Hin).
    destruct (wf_refAt _ _ _ _ _ _ _ Hsnap Hwf Hin) as (l & x & Hl & Hlx & _).
    pose proof Hl as (rw & Hrw & Hrwl)%refAt_index.
    exists (alter (withType Empty) l (heap σ)). split; [|split].
    + unfold bind, readCell. rewrite Hy, Hrw. simpl. by rewrite Hrwl.
    + rewrite Hy. simpl. by eapply write_snapshot.
    + apply keeps_alter.
  - exists (heap σ). split; [by rewrite setHeap_same|].
    split; [done|apply keeps_refl].
Qed.
End Writes.

(** ** handleCellClick on a state the handlers keep *)

Section Clicks.
Import App.

Lemma click_start_run σ r c l h1 x1 :
  isRunning σ = false → mode σ = SetStart →
  refAt (grid σ) r c = Some l →
  clearMark (grid σ) (start σ) σ = Ok () (setHeap h1 σ) →
  h1 !! l = Some x1 →
  handleCellClick r c σ =
    Ok () (if bool_decide (type x1 = End) then setHeap h1 σ
           else setMessage EmptyString (setGrid (grid σ) (setMode SetEnd
                  (setStart (Some l)
                     (setHeap (alter (withType Start) l h1) σ))))).
Proof.
  intros Hidle Hmode (rw & Hrw & Hl)%refAt_index Hclear Hx1.
  unfold handleCellClick. rewrite Hidle, Hmode. cbn zeta.
  unfold bind at 1. rewrite Hrw. simpl.
  unfold bind at 1. rewrite Hclear.
  unfold bind at 1. rewrite Hl. simpl.
  unfold bind at 1. unfold readCell. simpl. rewrite Hx1.
  by destruct (bool_decide (type x1 = End)).
Qed.

Lemma click_end_run σ r c l h1 x1 :
  isRunning σ = false → mode σ = SetEnd →
  refAt (grid σ) r c = Some l →
  clearMark (grid σ) (end_ σ) σ = Ok () (setHeap h1 σ) →
  h1 !! l = Some x1 →
  handleCellClick r c σ =
    Ok () (if bool_decide (type x1 = Start) then setHeap h1 σ
           else setMessage EmptyString (setGrid (grid σ) (setMode DrawWalls
                  (setEnd (Some l)
                     (setHeap (alter (withType End) l h1) σ))))).
Proof.
  intros Hidle Hmode (rw & Hrw & Hl)%refAt_index Hclear Hx1.
  unfold handleCellClick. rewrite Hidle, Hmode. cbn zeta.
  unfold bind at 1. rewrite Hrw. simpl.
  unfold bind at 1. rewrite Hclear.
  unfold bind at 1. rewrite Hl. simpl.
  unfold bind at 1. unfold readCell. simpl. rewrite Hx1.
  by destruct (bool_decide (type x1 = Start)).
Qed.

Lemma click_wall_run σ r c l x :
  isRunning σ = false → mode σ = DrawWalls →
  refAt (grid σ) r c = Some l → heap σ !! l = Some x →
  handleCellClick r c σ =
    Ok () (if bool_decide (type x = Start) || bool_decide (type x = End)
           then σ
           else setMessage EmptyString (setGrid (grid σ)
                  (setHeap (alter (withType
                     (if bool_decide (type x = Wall) then Empty else Wall))
                     l (heap σ)) σ))).
Proof.
  intros Hidle Hmode (rw & Hrw & Hl)%refAt_index Hx.
  unfold handleCellClick. rewrite Hidle, Hmode. cbn zeta.
  unfold bind at 1. rewrite Hrw. simpl.
  unfold bind at 1. rewrite Hl. simpl.
  unfold bind at 1. unfold readCell. rewrite Hx.
  by destruct (bool_decide (type x = Start) || bool_decide (type x = End)).
Qed.
End Clicks.

Section ClickSpecs.
Import App.

Lemma wf_snapshot σ (cells : Grid) :
  wf_state σ → snapshot (heap σ) (grid σ) = Some cells →
  wf_grid (rows σ) (cols σ) cells ∧
  marked Start (start σ) (heap σ) cells ∧
  marked End (end_ σ) (heap σ) cells.
Proof.
  intros [(cells0 & Hsnap0 & H) _ _ _] Hsnap. congruence.
Qed.

(** The marks after [cell.type = t; setMark(cell)] on a grid whose old
    mark has been emptied. *)
Lemma marked_place t h h1 rows cols (cells : Grid) o l r c x1 :
  t ≠ Empty → wf_grid rows cols cells →
  placed rows cols h o → marked t o h cells →
  insideb rows cols (r, c) = true →
  h1 !! l = Some x1 → coord x1 = (r, c) →
  marked t (Some l) (alter (withType t) l h1)
         (setType (unmark cells (coordOf h o)) r c t).
Proof.
  intros Hne Hwf Hp Hm (Hr & Hc)%insideb_true Hx1 Hco i j x Hx Ht.
  simpl in Hr, Hc.
  destruct (decide ((i, j) = (r, c))) as [[= -> ->]|Hij].
  - exists l, (withType t x1). split; [done|]. split; [|done].
    by rewrite lookup_alter, decide_True, Hx1 by done.
  - rewrite cellAt_setType_ne in Hx by (done || lia).
    by pose proof (unmark_none t o h cells rows cols i j x Hne Hp Hm Hx).
Qed.

Lemma click_start_spec σ (cells : Grid) r c :
  wf_state σ → mode σ = SetStart →
  snapshot (heap σ) (grid σ) = Some cells →
  insideb (rows σ) (cols σ) (r, c) = true →
  ∃ l x1 h1,
    refAt (grid σ) r c = Some l ∧
    cellAt (unmark cells (coordOf (heap σ) (start σ))) r c = Some x1 ∧
    h1 !! l = Some x1 ∧ keeps (heap σ) h1 ∧
    snapshot h1 (grid σ) =
      Some (unmark cells (coordOf (heap σ) (start σ))) ∧
    snapshot (alter (withType Start) l h1) (grid σ) =
      Some (setType (unmark cells (coordOf (heap σ) (start σ))) r c Start) ∧
    handleCellClick r c σ =
      Ok () (if bool_decide (type x1 = End) then setHeap h1 σ
             else setMessage EmptyString (setGrid (grid σ) (setMode SetEnd
                    (setStart (Some l)
                       (setHeap (alter (withType Start) l h1) σ))))).
Proof.
  intros Hwf Hmode Hsnap Hin.
  destruct (wf_snapshot σ cells Hwf Hsnap) as (Hgrid & _).
  destruct (clearMark_spec _ _ σ (grid σ) cells (start σ) Hsnap Hgrid
              (wf_start σ Hwf)) as (h1 & Hclear & Hsnap1 & Hkeeps).
  pose proof (unmark_wf _ _ cells (coordOf (heap σ) (start σ)) Hgrid) as Hgrid1.
  destruct (wf_refAt _ _ _ _ _ _ _ Hsnap1 Hgrid1 Hin)
    as (l & x1 & Hl & Hlx1 & Hx1 & Hco).
  exists l, x1, h1. split; [done|]. split; [done|]. split; [done|].
  split; [done|]. split; [done|]. split.
  - by eapply write_snapshot.
  - apply click_start_run; [by apply wf_idle|done..].
Qed.

Lemma click_end_spec σ (cells : Grid) r c :
  wf_state σ → mode σ = SetEnd →
  snapshot (heap σ) (grid σ) = Some cells →
  insideb (rows σ) (cols σ) (r, c) = true →
  ∃ l x1 h1,
    refAt (grid σ) r c = Some l ∧
    cellAt (unmark cells (coordOf (heap σ) (end_ σ))) r c = Some x1 ∧
    h1 !! l = Some x1 ∧ keeps (heap σ) h1 ∧
    snapshot h1 (grid σ) =
      Some (unmark cells (coordOf (heap σ) (end_ σ))) ∧
    snapshot (alter (withType End) l h1) (grid σ) =
      Some (setType (unmark cells (coordOf (heap σ) (end_ σ))) r c End) ∧
    handleCellClick r c σ =
      Ok () (if bool_decide (type x1 = Start) then setHeap h1 σ
             else setMessage EmptyString (setGrid (grid σ) (setMode DrawWalls
                    (setEnd (Some l)
                       (setHeap (alter (withType End) l h1) σ))))).
Proof.
  intros Hwf Hmode Hsnap Hin.
  destruct (wf_snapshot σ cells Hwf Hsnap) as (Hgrid & _).
  destruct (clearMark_spec _ _ σ (grid σ) cells (end_ σ) Hsnap Hgrid
              (wf_end σ Hwf)) as (h1 & Hclear & Hsnap1 & Hkeeps).
  pose proof (unmark_wf _ _ cells (coordOf (heap σ) (end_ σ)) Hgrid) as Hgrid1.
  destruct (wf_refAt _ _ _ _ _ _ _ Hsnap1 Hgrid1 Hin)
    as (l & x1 & Hl & Hlx1 & Hx1 & Hco).
  exists l, x1, h1. split; [done|]. split; [done|]. split; [done|].
  split; [done|]. split; [done|]. split.
  - by eapply write_snapshot.
  - apply click_end_run; [by apply wf_idle|done..].
Qed.

Lemma click_wall_spec σ (cells : Grid) r c :
  wf_state σ → mode σ = DrawWalls →
  snapshot (heap σ) (grid σ) = Some cells →
  insideb (rows σ) (cols σ) (r, c) = true →
  ∃ l x,
    refAt (grid σ) r c = Some l ∧ cellAt cells r c = Some x ∧
    heap σ !! l = Some x ∧
    (∀ t, snapshot (alter (withType t) l (heap σ)) (grid σ) =
            Some (setType cells r c t)) ∧
    handleCellClick r c σ =
      Ok () (if bool_decide (type x = Start) || bool_decide (type x = End)
             then σ
             else setMessage EmptyString (setGrid (grid σ)
                    (setHeap (alter (withType
                       (if bool_decide (type x = Wall) then Empty else Wall))
                       l (heap σ)) σ))).
Proof.
  intros Hwf Hmode Hsnap Hin.
  destruct (wf_snapshot σ cells Hwf Hsnap) as (Hgrid & _).
  destruct (wf_refAt _ _ _ _ _ _ _ Hsnap Hgrid Hin)
    as (l & x & Hl & Hlx & Hx & Hco).
  exists l, x. split; [done|]. split; [done|]. split; [done|]. split.
  - intros t. by eapply write_snapshot.
  - apply click_wall_run; [by apply wf_idle|done..].
Qed.

(** A click on a cell of the grid never throws and leaves a state the
    handlers keep. *)
Lemma click_wf σ r c :
  wf_state σ → insideb (rows σ) (cols σ) (r, c) = true →
  ∃ σ', handleCellClick r c σ = Ok () σ' ∧ wf_state σ' ∧
        rows σ' = rows σ ∧ cols σ' = cols σ ∧
        (message σ' = message σ ∨ message σ' = EmptyString).
Proof.
  intros Hwf Hin.
  destruct (wf_cells σ Hwf) as (cells & Hsnap & Hgrid & HmS & HmE).
  pose proof (wf_start σ Hwf) as HpS. pose proof (wf_end σ Hwf) as HpE.
  pose proof (wf_idle σ Hwf) as Hidle.
  destruct (mode σ) eqn:Hmode.
  - destruct (click_start_spec σ cells r c Hwf Hmode Hsnap Hin)
      as (l & x1 & h1 & Hl & Hx1 & Hlx1 & Hkeeps & Hsnap1 & Hsnap2 & ->).
    pose proof (unmark_wf _ _ cells (coordOf (heap σ) (start σ)) Hgrid)
      as Hgrid1.
    pose proof (cellAt_coord _ _ _ _ _ _ Hgrid1 Hx1) as Hco.
    eexists. split; [done|].
    destruct (bool_decide (type x1 = End)).
    + split; [|by auto]. split; simpl.
      * eexists. split; [done|]. split; [done|]. split.
        -- eapply marked_keeps; [done|]. by eapply marked_unmark.
        -- eapply marked_keeps; [done|]. by eapply marked_unmark.
      * by eapply placed_keeps.
      * by eapply placed_keeps.
      * done.
    + split; [|by auto].
      pose proof (keeps_trans _ _ _ Hkeeps (keeps_alter h1 l Start)) as Hkeeps2.
      split; simpl.
      * eexists. split; [done|]. split; [by apply setType_wf|]. split.
        -- by eapply marked_place.
        -- eapply marked_keeps; [exact Hkeeps2|].
           apply insideb_true in Hin as [Hr Hc]. simpl in Hr, Hc.
           apply marked_setType; [lia|lia|done|]. by eapply marked_unmark.
      * intros ? [= <-]. exists (withType Start x1). split.
        -- by rewrite lookup_alter, decide_True, Hlx1 by done.
        -- change (coord (withType Start x1)) with (coord x1). by rewrite Hco.
      * by eapply placed_keeps.
      * done.
  - destruct (click_end_spec σ cells r c Hwf Hmode Hsnap Hin)
      as (l & x1 & h1 & Hl & Hx1 & Hlx1 & Hkeeps & Hsnap1 & Hsnap2 & ->).
    pose proof (unmark_wf _ _ cells (coordOf (heap σ) (end_ σ)) Hgrid)
      as Hgrid1.
    pose proof (cellAt_coord _ _ _ _ _ _ Hgrid1 Hx1) as Hco.
    eexists. split; [done|].
    destruct (bool_decide (type x1 = Start)).
    + split; [|by auto]. split; simpl.
      * eexists. split; [done|]. split; [done|]. split.
        -- eapply marked_keeps; [done|]. by eapply marked_unmark.
        -- eapply marked_keeps; [done|]. by eapply marked_unmark.
      * by eapply placed_keeps.
      * by eapply placed_keeps.
      * done.
    + split; [|by auto].
      pose proof (keeps_trans _ _ _ Hkeeps (keeps_alter h1 l End)) as Hkeeps2.
      split; simpl.
      * eexists. split; [done|]. split; [by apply setType_wf|]. split.
        -- eapply marked_keeps; [exact Hkeeps2|].
           apply insideb_true in Hin as [Hr Hc]. simpl in Hr, Hc.
           apply marked_setType; [lia|lia|done|]. by eapply marked_unmark.
        -- by eapply marked_place.
      * by eapply placed_keeps.
      * intros ? [= <-]. exists (withType End x1). split.
        -- by rewrite lookup_alter, decide_True, Hlx1 by done.
        -- change (coord (withType End x1)) with (coord x1). by rewrite Hco.
      * done.
  - destruct (click_wall_spec σ cells r c Hwf Hmode Hsnap Hin)
      as (l & x & Hl & Hx & Hlx & Hsnap' & ->).
    eexists. split; [done|].
    destruct (bool_decide (type x = Start) || bool_decide (type x = End));
      [by auto|].
    split; [|by auto].
    set (t := if bool_decide (type x = Wall) then Empty else Wall).
    assert (t ≠ Start ∧ t ≠ End) as [HtS HtE].
    { unfold t. by destruct (bool_decide (type x = Wall)). }
    pose proof (keeps_alter (heap σ) l t) as Hkeeps.
    apply insideb_true in Hin as [Hr Hc]. simpl in Hr, Hc.
    split; simpl.
    + eexists. split; [apply Hsnap'|]. split; [by apply setType_wf|]. split.
      * eapply marked_keeps; [done|]. apply marked_setType; [lia|lia|done..].
      * eapply marked_keeps; [done|]. apply marked_setType; [lia|lia|done..].
    + by eapply placed_keeps.
    + by eapply placed_keeps.
    + done.
Qed.
End ClickSpecs.

(** ** initializeGrid, the clear buttons and the inputs *)

Section Buttons.
Import App.

Lemma newRow_spec i js σ :
  ∃ rw h',
    newRow i js σ = Ok rw (setHeap h' σ) ∧ heap σ ⊆ h' ∧
    Forall2 (λ l c, h' !! l = Some c) rw ((λ j, mkCell i j Empty) <$> js).
Proof.
  revert σ. induction js as [|j js IH]; intros σ.
  - exists [], (heap σ). split; [by rewrite setHeap_same|].
    split; [done|constructor].
  - set (l := fresh (dom (heap σ))).
    set (σ1 := setHeap (<[l := mkCell i j Empty]> (heap σ)) σ).
    destruct (IH σ1) as (rw & h' & Hrun & Hsub & Hrw).
    exists (l :: rw), h'. split; [|split].
    + cbn [newRow]. unfold bind at 1. unfold alloc. fold l. fold σ1.
      unfold bind at 1. by rewrite Hrun.
    + etrans; [apply alloc_fresh|exact Hsub].
    + rewrite fmap_cons. constructor; [|done].
      apply (lookup_weaken (heap σ1)); [|done]. simpl.
      by rewrite lookup_insert_eq.
Qed.

Lemma newRows_spec rs n σ :
  ∃ g h',
    newRows rs n σ = Ok g (setHeap h' σ) ∧ heap σ ⊆ h' ∧
    Forall2 (Forall2 (λ l c, h' !! l = Some c)) g
      ((λ i, (λ j, mkCell i j Empty) <$> seqZ 0 n) <$> rs).
Proof.
  revert σ. induction rs as [|i rs IH]; intros σ.
  - exists [], (heap σ). split; [by rewrite setHeap_same|].
    split; [done|constructor].
  - destruct (newRow_spec i (seqZ 0 n) σ) as (rw & h1 & Hrun1 & Hsub1 & Hrw).
    destruct (IH (setHeap h1 σ)) as (g & h' & Hrun & Hsub & Hg).
    exists (rw :: g), h'. split; [|split].
    + cbn [newRows]. unfold bind at 1. rewrite Hrun1.
      unfold bind at 1. by rewrite Hrun.
    + by etrans.
    + rewrite fmap_cons. constructor; [|done]. by eapply row_mono.
Qed.

Lemma initializeGrid_spec σ :
  ∃ g h',
    initializeGrid σ =
      Ok () (setMessage EmptyString (setEnd None (setStart None
               (setGrid g (setHeap h' σ))))) ∧
    heap σ ⊆ h' ∧
    snapshot h' g = Some (blankGrid (rows σ) (cols σ)).
Proof.
  destruct (newRows_spec (seqZ 0 (rows σ)) (cols σ) σ)
    as (g & h' & Hrun & Hsub & Hg).
  exists g, h'. split; [|split; [done|by apply snapshot_Forall2]].
  unfold initializeGrid. unfold bind at 1. by rewrite Hrun.
Qed.

Lemma blankGrid_Empty rows cols r c x :
  cellAt (blankGrid rows cols) r c = Some x → type x = Empty.
Proof.
  intros (_ & _ & cs & Hcs & Hx)%cellAt_Some. unfold blankGrid in Hcs.
  rewrite list_lookup_fmap in Hcs.
  destruct (seqZ 0 rows !! Z.to_nat r) as [i|]; [|done].
  injection Hcs as <-. rewrite list_lookup_fmap in Hx.
  destruct (seqZ 0 cols !! Z.to_nat c) as [j|]; [|done].
  by injection Hx as <-.
Qed.

Lemma initializeGrid_wf σ :
  isRunning σ = false →
  ∃ σ', initializeGrid σ = Ok () σ' ∧ wf_state σ' ∧
        rows σ' = rows σ ∧ cols σ' = cols σ ∧ message σ' = EmptyString.
Proof.
  intros Hidle. destruct (initializeGrid_spec σ) as (g & h' & -> & _ & Hsnap).
  eexists. split; [done|]. split; [|done]. split; simpl.
  - eexists. split; [done|]. split; [apply blankGrid_wf|].
    split; intros r c x Hx%blankGrid_Empty Ht; congruence.
  - by intros ? [=].
  - by intros ? [=].
  - done.
Qed.

Lemma cellAt_retypeAll f (cells : Grid) r c :
  cellAt (retypeAll f cells) r c = retype f <$> cellAt cells r c.
Proof.
  unfold cellAt, retypeAll.
  destruct (bool_decide (0 ≤ r) && bool_decide (0 ≤ c)); [|done].
  rewrite list_lookup_fmap. destruct (cells !! Z.to_nat r) as [cs|]; [|done].
  simpl. by rewrite list_lookup_fmap.
Qed.

Lemma retypeAll_wf rows cols f (cells : Grid) :
  wf_grid rows cols cells → wf_grid rows cols (retypeAll f cells).
Proof.
  unfold wf_grid, retypeAll. intros <-. rewrite <-list_fmap_compose.
  apply list_fmap_ext. intros _ cs _. simpl. rewrite <-list_fmap_compose.
  by apply list_fmap_ext.
Qed.

Lemma marked_retypeAll t o h f (cells : Grid) :
  (∀ t', f t' = t → t' = t) →
  marked t o h cells → marked t o h (retypeAll f cells).
Proof.
  intros Hf Hm r c x Hx Ht. rewrite cellAt_retypeAll in Hx.
  destruct (cellAt cells r c) as [x0|] eqn:Hx0; [|done].
  injection Hx as <-. simpl in Ht. by apply (Hm r c x0), Hf.
Qed.

(** [grid.map(row => row.map(cell => ({...cell, type: f(cell.type)})))]
    followed by [setGrid] and [setMessage('')], with what it leaves of the
    heap. *)
Lemma clear_keeps f σ (cells : Grid) :
  snapshot (heap σ) (grid σ) = Some cells →
  ∃ g' h',
    (let! newGrid := mapGrid f (grid σ) in
     modify (setGrid newGrid);; modify (setMessage EmptyString)) σ =
      Ok () (setMessage EmptyString (setGrid g' (setHeap h' σ))) ∧
    heap σ ⊆ h' ∧
    snapshot h' g' = Some (retypeAll f cells).
Proof.
  intros Hsnap%snapshot_Forall2.
  destruct (mapGrid_spec f (grid σ) σ cells Hsnap)
    as (g' & h' & Hrun & Hsub & Hg').
  exists g', h'. split; [|split; [done|by apply snapshot_Forall2]].
  unfold bind at 1. by rewrite Hrun.
Qed.

Lemma clear_wf f σ :
  (∀ t, f t = Start → t = Start) → (∀ t, f t = End → t = End) →
  wf_state σ →
  ∃ σ', (let! newGrid := mapGrid f (grid σ) in
         modify (setGrid newGrid);; modify (setMessage EmptyString)) σ =
          Ok () σ' ∧
        wf_state σ' ∧ rows σ' = rows σ ∧ cols σ' = cols σ ∧
        message σ' = EmptyString.
Proof.
  intros HfS HfE Hwf.
  destruct (wf_cells σ Hwf) as (cells & Hsnap & Hgrid & HmS & HmE).
  destruct (clear_keeps f σ cells Hsnap) as (g' & h' & -> & Hsub & Hsnap').
  apply keeps_subseteq in Hsub.
  eexists. split; [done|]. split; [|done]. split; simpl.
  - eexists. split; [done|]. split; [by apply retypeAll_wf|]. split.
    + eapply marked_keeps; [done|]. by apply marked_retypeAll.
    + eapply marked_keeps; [done|]. by apply marked_retypeAll.
  - eapply placed_keeps; [done|]. by apply wf_start.
  - eapply placed_keeps; [done|]. by apply wf_end.
  - by apply wf_idle.
Qed.

Lemma withoutOverlay_mark t m :
  m = Start ∨ m = End ∨ m = Wall → withoutOverlay t = m → t = m.
Proof. intros [-> | [-> | ->]]; by destruct t. Qed.

Lemma withoutWall_mark t m :
  m = Start ∨ m = End → withoutWall t = m → t = m.
Proof. intros [-> | ->]; by destruct t. Qed.

Lemma clampDimension_range hi parsed :
  5 ≤ hi → 5 ≤ clampDimension hi parsed ≤ hi.
Proof. unfold clampDimension. lia. Qed.
End Buttons.

(** ** visualizePath *)

Section Run.
Import App.

Lemma setGrid_same σ : setGrid (grid σ) σ = σ.
Proof. by destruct σ. Qed.

(** The copies [map] makes are new objects. *)
Lemma mapRow_fresh f rw σ (cs : list Cell) :
  Forall2 (λ l c, heap σ !! l = Some c) rw cs →
  ∃ rw' h',
    mapRow f rw σ = Ok rw' (setHeap h' σ) ∧ heap σ ⊆ h' ∧
    Forall2 (λ l c, h' !! l = Some c) rw' (retype f <$> cs) ∧
    Forall (λ l, heap σ !! l = None) rw'.
Proof.
  revert σ cs. induction rw as [|l rw IH]; intros σ cs Hcs.
  - apply Forall2_nil_inv_l in Hcs as ->. exists [], (heap σ).
    split; [by rewrite setHeap_same|]. split; [done|].
    split; constructor.
  - apply Forall2_cons_inv_l in Hcs as (c & cs' & Hl & Hcs' & ->).
    set (l' := fresh (dom (heap σ))).
    set (σ1 := setHeap (<[l' := retype f c]> (heap σ)) σ).
    assert (heap σ !! l' = None) as Hfresh.
    { apply not_elem_of_dom, is_fresh. }
    destruct (IH σ1 cs') as (rw' & h' & Hrun & Hsub & Hrw' & Hnew).
    { eapply row_mono; [|done]. apply alloc_fresh. }
    exists (l' :: rw'), h'. split; [|split; [|split]].
    + cbn [mapRow]. unfold bind at 1. unfold readCell. rewrite Hl.
      unfold bind at 1. unfold alloc. fold l'. fold σ1.
      unfold bind at 1. rewrite Hrun. done.
    + etrans; [apply alloc_fresh|exact Hsub].
    + rewrite fmap_cons. constructor; [|done].
      apply (lookup_weaken (heap σ1)); [|done]. simpl.
      by rewrite lookup_insert_eq.
    + constructor; [done|]. eapply Forall_impl; [done|].
      intros l0 Hl0. simpl in Hl0.
      destruct (decide (l0 = l')) as [->|Hne]; [done|].
      by rewrite lookup_insert_ne in Hl0.
Qed.

Lemma mapGrid_fresh f g σ (cells : Grid) :
  Forall2 (Forall2 (λ l c, heap σ !! l = Some c)) g cells →
  ∃ g' h',
    mapGrid f g σ = Ok g' (setHeap h' σ) ∧ heap σ ⊆ h' ∧
    Forall2 (Forall2 (λ l c, h' !! l = Some c)) g' (retypeAll f cells) ∧
    Forall (Forall (λ l, heap σ !! l = None)) g'.
Proof.
  revert σ cells. induction g as [|rw g IH]; intros σ cells Hcells.
  - apply Forall2_nil_inv_l in Hcells as ->. exists [], (heap σ).
    split; [by rewrite setHeap_same|]. split; [done|]. split; constructor.
  - apply Forall2_cons_inv_l in Hcells as (cs & cells' & Hrw & Hg & ->).
    destruct (mapRow_fresh f rw σ cs Hrw)
      as (rw' & h1 & Hrun1 & Hsub1 & Hrw' & Hnew1).
    destruct (IH (setHeap h1 σ) cells') as (g' & h' & Hrun & Hsub & Hg' & Hnew).
    { eapply Forall2_impl; [done|]. intros ??. by apply row_mono. }
    exists (rw' :: g'), h'. split; [|split; [|split]].
    + cbn [mapGrid]. unfold bind at 1. rewrite Hrun1.
      unfold bind at 1. rewrite Hrun. done.
    + by etrans.
    + unfold retypeAll. rewrite fmap_cons. constructor; [|done].
      by eapply row_mono.
    + constructor; [done|]. eapply Forall_impl; [done|].
      intros rw0 Hrw0. eapply Forall_impl; [done|].
      intros l0 Hl0. simpl in Hl0.
      destruct (heap σ !! l0) as [y|] eqn:Hy; [|done].
      by rewrite (lookup_weaken _ _ _ _ Hy Hsub1) in Hl0.
Qed.

Lemma repainted_refl R ls h : repainted R ls h h.
Proof. intros l. by left. Qed.

Lemma elem_of_refsAt g vs l :
  l ∈ refsAt g vs ↔ ∃ v, v ∈ vs ∧ refAt g (row v) (col v) = Some l.
Proof. unfold refsAt. by rewrite list_elem_of_omap. Qed.

(** The first loop of a run paints empty cells among the visited ones. *)
Lemma animateVisited_spec g vs σ :
  (∀ v, v ∈ vs →
     ∃ l, refAt g (row v) (col v) = Some l ∧ is_Some (heap σ !! l)) →
  ∃ h' g',
    animateVisited g vs σ = Ok () (setGrid g' (setHeap h' σ)) ∧
    (g' = grid σ ∨ g' = g) ∧
    repainted (λ t t', t = Empty ∧ t' = Visited) (refsAt g vs) (heap σ) h'.
Proof.
  revert σ. induction vs as [|v vs IH]; intros σ Hvs.
  - exists (heap σ), (grid σ). split; [|split; [by left|apply repainted_refl]].
    by rewrite setHeap_same, setGrid_same.
  - destruct (Hvs v) as (l & Hl & y & Hy); [by left|].
    pose proof Hl as (rw & Hrw & Hrwl)%refAt_index.
    assert (∃ σ1 : State,
      (rows σ1 = rows σ ∧ cols σ1 = cols σ ∧ start σ1 = start σ ∧
       end_ σ1 = end_ σ ∧ mode σ1 = mode σ ∧ isRunning σ1 = isRunning σ ∧
       algorithm σ1 = algorithm σ ∧ message σ1 = message σ) ∧
      (grid σ1 = grid σ ∨ grid σ1 = g) ∧
      animateVisited g (v :: vs) σ = animateVisited g vs σ1 ∧
      repainted (λ t t', t = Empty ∧ t' = Visited) [l] (heap σ) (heap σ1))
      as (σ1 & Hsame & Hg1 & Hstep & Hrep1).
    { destruct (bool_decide (type y = Empty)) eqn:Hty.
      - exists (setGrid g (setHeap (alter (withType Visited) l (heap σ)) σ)).
        split; [done|]. split; [by right|]. split.
        + cbn [animateVisited]. unfold bind at 1. rewrite Hrw. simpl.
          unfold bind at 1. rewrite Hrwl. simpl.
          unfold bind at 1. unfold readCell. rewrite Hy.
          unfold bind at 1. by rewrite Hty.
        + intros l0. simpl. rewrite lookup_alter.
          destruct (decide (l = l0)) as [<-|]; [|by left].
          right. split; [by left|]. exists y, Visited.
          apply bool_decide_eq_true in Hty. by rewrite Hy.
      - exists σ. split; [done|]. split; [by left|]. split.
        + cbn [animateVisited]. unfold bind at 1. rewrite Hrw. simpl.
          unfold bind at 1. rewrite Hrwl. simpl.
          unfold bind at 1. unfold readCell. rewrite Hy.
          unfold bind at 1. by rewrite Hty.
        + apply repainted_refl. }
    destruct (IH σ1) as (h' & g' & Hrun & Hg' & Hrep).
    { intros v' Hv'. destruct (Hvs v') as (l' & Hl' & Hsome); [by right|].
      exists l'. split; [done|].
      destruct (Hrep1 l') as [-> | (_ & y' & t & _ & -> & _)]; [done|by eexists]. }
    exists h', g'. split; [|split].
    + rewrite Hstep, Hrun. destruct Hsame as (?&?&?&?&?&?&?&?).
      destruct σ, σ1; simpl in *. by subst.
    + destruct Hg' as [-> | ->]; [|by right]. done.
    + intros l0.
      assert (l ∈ refsAt g (v :: vs)) as Hlin.
      { apply elem_of_refsAt. exists v. split; [by left|done]. }
      assert (∀ l1, l1 ∈ refsAt g vs → l1 ∈ refsAt g (v :: vs)) as Hmono.
      { intros l1 (v1 & Hv1 & Hl1)%elem_of_refsAt. apply elem_of_refsAt.
        exists v1. split; [by right|done]. }
      destruct (Hrep l0) as [Heq|(Hin & y1 & t & Hy1 & Hy' & Ht1 & Ht)].
      * rewrite Heq.
        destruct (Hrep1 l0) as [Heq1|(->%list_elem_of_singleton & Hr)];
          [by left|by right].
      * destruct (Hrep1 l0)
          as [Heq1|(->%list_elem_of_singleton & y2 & t2 & Hy2 & Hy2' & _ & ->)].
        -- right. split; [by apply Hmono|]. exists y1, t.
           by rewrite <-Heq1.
        -- rewrite Hy2' in Hy1. injection Hy1 as <-. done.
Qed.

(** The second loop paints every cell it is given. *)
Lemma animatePath_spec g vs σ :
  (∀ v, v ∈ vs → is_Some (refAt g (row v) (col v))) →
  ∃ h' g',
    animatePath g vs σ = Ok () (setGrid g' (setHeap h' σ)) ∧
    (g' = grid σ ∨ g' = g) ∧
    repainted (λ _ t', t' = Path) (refsAt g vs) (heap σ) h'.
Proof.
  revert σ. induction vs as [|v vs IH]; intros σ Hvs.
  - exists (heap σ), (grid σ). split; [|split; [by left|apply repainted_refl]].
    by rewrite setHeap_same, setGrid_same.
  - destruct (Hvs v) as (l & Hl); [by left|].
    pose proof Hl as (rw & Hrw & Hrwl)%refAt_index.
    set (σ1 := setGrid g (setHeap (alter (withType Path) l (heap σ)) σ)).
    destruct (IH σ1) as (h' & g' & Hrun & Hg' & Hrep).
    { intros v' Hv'. apply Hvs. by right. }
    exists h', g'. split; [|split].
    + cbn [animatePath]. unfold bind at 1. rewrite Hrw. simpl.
      unfold bind at 1. rewrite Hrwl. simpl.
      unfold bind at 1. unfold writeType, modify.
      unfold bind at 1.
      change (animatePath g vs σ1 = Ok () (setGrid g' (setHeap h' σ))).
      by rewrite Hrun.
    + destruct Hg' as [-> | ->]; by right.
    + intros l0.
      assert (l ∈ refsAt g (v :: vs)) as Hlin.
      { apply elem_of_refsAt. exists v. split; [by left|done]. }
      assert (∀ l1, l1 ∈ refsAt g vs → l1 ∈ refsAt g (v :: vs)) as Hmono.
      { intros l1 (v1 & Hv1 & Hl1)%elem_of_refsAt. apply elem_of_refsAt.
        exists v1. split; [by right|done]. }
      simpl in Hrep.
      destruct (Hrep l0) as [Heq|(Hin & y1 & t & Hy1 & Hy' & ->)].
      * rewrite Heq, lookup_alter.
        destruct (decide (l = l0)) as [<-|]; [|by left].
        destruct (heap σ !! l) as [y|] eqn:Hy; [|by left].
        right. split; [done|]. by exists y, Path.
      * rewrite lookup_alter in Hy1.
        destruct (decide (l = l0)) as [<-|].
        -- destruct (heap σ !! l) as [y|] eqn:Hy; [|done].
           injection Hy1 as <-. right. split; [done|]. by exists y, Path.
        -- right. split; [by apply Hmono|]. by exists y1, Path.
Qed.
End Run.

Section RunSpec.
Import App.

Lemma snapshot_refAt h g (cells : Grid) r c l :
  snapshot h g = Some cells → refAt g r c = Some l →
  ∃ x, h !! l = Some x ∧ cellAt cells r c = Some x.
Proof.
  intros Hsnap%snapshot_Forall2 (Hr & Hc & rw & Hrw & Hl)%refAt_Some.
  destruct (Forall2_lookup_l _ _ _ _ _ Hsnap Hrw) as (cs & Hcs & Hrow).
  destruct (Forall2_lookup_l _ _ _ _ _ Hrow Hl) as (y & Hy & Hly).
  exists y. split; [done|]. apply cellAt_Some. split; [done|].
  split; [done|]. by exists cs.
Qed.

(** A change of the heap that takes every object of the grid to a related
    one takes the cells of the grid to related cells. *)
Lemma snapshot_rel (R : Cell → Cell → Prop) h h' g (cells : Grid) :
  snapshot h g = Some cells →
  (∀ r c l y, refAt g r c = Some l → h !! l = Some y →
              ∃ y', h' !! l = Some y' ∧ R y y') →
  ∃ cells', snapshot h' g = Some cells' ∧ Forall2 (Forall2 R) cells cells'.
Proof.
  intros Hsnap%snapshot_Forall2 Hrel.
  set (F := λ l : ref, default (mkCell 0 0 Empty) (h' !! l)).
  assert (∀ i j rw cs l x,
    g !! i = Some rw → cells !! i = Some cs →
    rw !! j = Some l → cs !! j = Some x →
    h' !! l = Some (F l) ∧ R x (F l)) as Hpt.
  { intros i j rw cs l x Hrw Hcs Hl Hx.
    pose proof (Forall2_lookup_lr _ _ _ _ _ _ Hsnap Hrw Hcs) as Hrow.
    pose proof (Forall2_lookup_lr _ _ _ _ _ _ Hrow Hl Hx) as Hlx.
    simpl in Hlx.
    destruct (Hrel (Z.of_nat i) (Z.of_nat j) l x) as (y' & Hy' & HR);
      [|done|].
    - apply refAt_Some. split; [lia|]. split; [lia|]. exists rw.
      by rewrite !Nat2Z.id.
    - unfold F. by rewrite Hy'. }
  exists (fmap (M:=list) (fmap (M:=list) F) g). split.
  - apply snapshot_Forall2. apply Forall2_fmap_r.
    apply Forall2_same_length_lookup. split; [done|].
    intros i rw rw' Hrw Hrw'. assert (rw' = rw) as -> by congruence.
    destruct (Forall2_lookup_l _ _ _ _ _ Hsnap Hrw) as (cs & Hcs & Hrow).
    apply Forall2_fmap_r. apply Forall2_same_length_lookup. split; [done|].
    intros j l l' Hl Hl'. assert (l' = l) as -> by congruence.
    destruct (Forall2_lookup_l _ _ _ _ _ Hrow Hl) as (x & Hx & _).
    by destruct (Hpt i j rw cs l x).
  - apply Forall2_fmap_r. apply Forall2_same_length_lookup.
    split; [symmetry; by eapply Forall2_length|].
    intros i cs rw Hcs Hrw.
    pose proof (Forall2_lookup_lr _ _ _ _ _ _ Hsnap Hrw Hcs) as Hrow.
    apply Forall2_fmap_r. apply Forall2_same_length_lookup.
    split; [symmetry; by eapply Forall2_length|].
    intros j x l Hx Hl. by destruct (Hpt i j rw cs l x).
Qed.

Lemma Forall2_cellAt (R : Cell → Cell → Prop) (cells cells' : Grid) r c x' :
  Forall2 (Forall2 R) cells cells' → cellAt cells' r c = Some x' →
  ∃ x, cellAt cells r c = Some x ∧ R x x'.
Proof.
  intros HR (Hr & Hc & cs' & Hcs' & Hx')%cellAt_Some.
  destruct (Forall2_lookup_r _ _ _ _ _ HR Hcs') as (cs & Hcs & Hrow).
  destruct (Forall2_lookup_r _ _ _ _ _ Hrow Hx') as (x & Hx & Hxx).
  exists x. split; [|done]. apply cellAt_Some. split; [done|].
  split; [done|]. by exists cs.
Qed.

Lemma Forall2_coord_wf rows cols (R : Cell → Cell → Prop) (cells cells' : Grid) :
  (∀ x x', R x x' → coord x' = coord x) →
  Forall2 (Forall2 R) cells cells' →
  wf_grid rows cols cells → wf_grid rows cols cells'.
Proof.
  intros HR Hrel. unfold wf_grid. intros <-.
  induction Hrel as [|cs cs' cells cells' Hrow _ IH]; [done|].
  rewrite !fmap_cons. f_equal; [|done].
  induction Hrow as [|x x' cs cs' Hx _ IHrow]; [done|].
  rewrite !fmap_cons. f_equal; [by apply HR|done].
Qed.

Lemma interior_spec (s : Cell) rest c v :
  NoDup (coord <$> s :: rest) → last (s :: rest) = Some c →
  v ∈ interior (s :: rest) →
  v ∈ rest ∧ coord v ≠ coord s ∧ coord v ≠ coord c.
Proof.
  intros Hnd Hlast. unfold interior. simpl. rewrite drop_0.
  destruct rest as [|x rest _] using rev_ind;
    [rewrite take_nil; by intros ?%elem_of_nil|].
  rewrite app_comm_cons, last_snoc in Hlast. injection Hlast as <-.
  rewrite length_app. simpl.
  replace (length rest + 1 - 1)%nat with (length rest) by lia.
  rewrite take_app_length. intros Hv.
  rewrite fmap_cons, fmap_app in Hnd. simpl in Hnd.
  apply NoDup_cons in Hnd as [Hs Hnd].
  apply NoDup_app in Hnd as (_ & Hx & _).
  assert (coord v ∈ coord <$> rest) as Hcv by by apply list_elem_of_fmap_2.
  split; [apply elem_of_app; by left|]. split.
  - intros Heq. apply Hs. rewrite <-Heq. apply elem_of_app. by left.
  - intros Heq. apply (Hx (coord v)); [done|]. rewrite Heq. by left.
Qed.

Lemma chosenSearch_facts a rows cols (grid : Grid) s e :
  wf_grid rows cols grid →
  ∃ r, chosenSearch a rows cols grid s e = Returned r ∧
    NoDup (coord <$> visited r) ∧
    (coord s ∉ coord <$> visited r) ∧
    (∀ c, c ∈ visited r →
       enterable rows cols grid c ∧
       ∃ n, walk rows cols grid n (coord s) (coord c)) ∧
    (found r = true →
       (∃ c, coord c = coord e ∧ trail rows cols grid s c (path r)) ∧
       NoDup (coord <$> path r) ∧
       ∀ x, x ∈ path r → x = s ∨ x ∈ visited r) ∧
    (found r = false →
       path r = [] ∧
       ∀ n v, walk rows cols grid n (coord s) v →
              v = coord s ∨ v ∈ coord <$> visited r).
Proof.
  intros Hwf. destruct a; [by apply bfs_facts|by apply dfs_facts].
Qed.

Lemma withoutOverlay_repainted (cells : Grid) :
  Forall2 (Forall2 repaintedCell) cells (retypeAll withoutOverlay cells).
Proof.
  eapply Forall2_impl; [apply (retype_Forall2 withoutOverlay)|].
  intros cs cs' Hrow. eapply Forall2_impl; [done|].
  intros x x' [Hco Hty]. split; [done|]. rewrite Hty.
  unfold overlayOrEmpty. destruct (type x); simpl; auto.
Qed.

(** What the two loops of a run leave of the grid, whichever of the two
    grid arrays is the one last set. *)
Lemma run_paint rows cols h h1 h2 h3 g newGrid g3 (cells : Grid) vs ps :
  snapshot h g = Some cells → wf_grid rows cols cells → h ⊆ h1 →
  Forall2 (Forall2 (λ l c, h1 !! l = Some c)) newGrid
          (retypeAll withoutOverlay cells) →
  Forall (Forall (λ l, h !! l = None)) newGrid →
  repainted (λ t t', t = Empty ∧ t' = Visited) (refsAt g vs) h1 h2 →
  repainted (λ _ t', t' = Path) (refsAt g ps) h2 h3 →
  (∀ v, v ∈ ps →
     cellAt cells (row v) (col v) = Some v ∧ overlayOrEmpty (type v)) →
  g3 = newGrid ∨ g3 = g →
  keeps h h3 ∧
  ∃ cells', snapshot h3 g3 = Some cells' ∧
            Forall2 (Forall2 repaintedCell) cells cells'.
Proof.
  intros Hsnap Hwf Hsub Hnew Hfresh Hrep2 Hrep3 Hps Hg3.
  assert (∀ l y, h !! l = Some y →
    ∃ y3, h3 !! l = Some y3 ∧ coord y3 = coord y ∧
      (type y3 = type y ∨ (type y = Empty ∧ type y3 = Visited) ∨
       (l ∈ refsAt g ps ∧ type y3 = Path))) as Hkey.
  { intros l y Hy. pose proof (lookup_weaken _ _ _ _ Hy Hsub) as Hy1.
    assert (∃ y2, h2 !! l = Some y2 ∧ coord y2 = coord y ∧
              (type y2 = type y ∨ (type y = Empty ∧ type y2 = Visited)))
      as (y2 & Hy2 & Hco2 & Hty2).
    { destruct (Hrep2 l) as [Heq|(_ & y' & t & Hy' & Hy2 & Hte & ->)].
      - exists y. rewrite Heq. auto.
      - rewrite Hy1 in Hy'. injection Hy' as <-.
        exists (withType Visited y). auto. }
    destruct (Hrep3 l) as [Heq|(Hin & y' & t & Hy' & Hy3 & ->)].
    - exists y2. rewrite Heq. split; [done|]. split; [done|].
      destruct Hty2; auto.
    - rewrite Hy2 in Hy'. injection Hy' as <-.
      exists (withType Path y2). split; [done|]. split; [done|]. auto. }
  split.
  { intros l y Hy. destruct (Hkey l y Hy) as (y3 & Hy3 & Hco & _). eauto. }
  destruct Hg3 as [-> | ->].
  - exists (retypeAll withoutOverlay cells).
    split; [|apply withoutOverlay_repainted].
    apply snapshot_Forall2.
    assert (∀ vs' l, h !! l = None → l ∉ refsAt g vs') as Hout.
    { intros vs' l Hnone (v & _ & Hl)%elem_of_refsAt.
      destruct (snapshot_refAt _ _ _ _ _ _ Hsnap Hl) as (x & Hx & _).
      congruence. }
    apply Forall2_same_length_lookup. split; [by eapply Forall2_length|].
    intros i rw cs Hrw Hcs.
    pose proof (Forall2_lookup_lr _ _ _ _ _ _ Hnew Hrw Hcs) as Hrow.
    pose proof (proj1 (Forall_lookup _ _) Hfresh i rw Hrw) as Hfrow.
    apply Forall2_same_length_lookup. split; [by eapply Forall2_length|].
    intros j l x Hl Hx.
    pose proof (Forall2_lookup_lr _ _ _ _ _ _ Hrow Hl Hx) as Hlx.
    pose proof (proj1 (Forall_lookup _ _) Hfrow j l Hl) as Hnone.
    simpl in Hlx, Hnone.
    destruct (Hrep3 l) as [-> | (Hin & _)]; [|by apply Hout in Hin].
    destruct (Hrep2 l) as [-> | (Hin & _)]; [done|by apply Hout in Hin].
  - apply (snapshot_rel repaintedCell h h3 g cells Hsnap).
    intros r c l y Hl Hy.
    destruct (Hkey l y Hy) as (y3 & Hy3 & Hco & Hty).
    exists y3. split; [done|]. split; [done|]. unfold overlayOrEmpty.
    destruct Hty as [Hty|[[Hty Hty3]|[Hin Hty3]]]; [by left|right; auto|].
    right. split; [|auto].
    apply elem_of_refsAt in Hin as (v & Hv & Hlv).
    destruct (Hps v Hv) as [Hcv Htv].
    destruct (snapshot_refAt _ _ _ _ _ _ Hsnap Hlv) as (x & Hx & Hcx).
    assert (y = v) as -> by congruence. done.
Qed.
End RunSpec.

Section RunState.
Import App.

Lemma chosenSearch_eq a rows cols (cells : Grid) sc ec :
  match a with
  | BFS => bfs rows cols cells sc ec
  | DFS => dfs rows cols cells sc ec
  end = chosenSearch a rows cols cells sc ec.
Proof. by destruct a. Qed.

(** A run on a state the handlers keep: the traversal returns, both loops
    find the cells they paint, and what is left is the result, the message
    for it and a grid repainted among empty, visited and path. *)
Lemma visualize_spec σ s e sc ec (cells : Grid) :
  wf_state σ → start σ = Some s → end_ σ = Some e →
  heap σ !! s = Some sc → heap σ !! e = Some ec →
  snapshot (heap σ) (grid σ) = Some cells →
  ∃ r h' g' cells',
    chosenSearch (algorithm σ) (rows σ) (cols σ) cells sc ec = Returned r ∧
    visualizePath σ =
      Ok (Some r) (setIsRunning false (setMessage (runMessage r)
                     (setGrid g' (setHeap h' σ)))) ∧
    keeps (heap σ) h' ∧
    snapshot h' g' = Some cells' ∧
    Forall2 (Forall2 repaintedCell) cells cells'.
Proof.
  intros Hwf Hs He Hsc Hec Hsnap.
  destruct (wf_snapshot σ cells Hwf Hsnap) as (Hgrid & HmS & HmE).
  destruct (chosenSearch_facts (algorithm σ) (rows σ) (cols σ) cells sc ec
              Hgrid) as (r & Hr & _ & _ & Hvis & Hyes & _).
  set (σa := setMessage EmptyString (setIsRunning true σ)).
  destruct (mapGrid_fresh withoutOverlay (grid σ) σa cells)
    as (newGrid & h1 & Hrun1 & Hsub & Hnew & Hfresh).
  { by apply snapshot_Forall2. }
  simpl in Hsub, Hfresh.
  assert (snapshot h1 (grid σ) = Some cells) as Hsnap1.
  { apply snapshot_Forall2. apply snapshot_Forall2 in Hsnap.
    eapply Forall2_impl; [done|]. intros ??. by apply row_mono. }
  set (σb := setGrid newGrid (setHeap h1 σa)).
  destruct (animateVisited_spec (grid σ) (visited r) σb)
    as (h2 & g2 & Hrun2 & Hg2 & Hrep2).
  { intros v Hv. destruct (Hvis v Hv) as ((_ & Hin & _) & _).
    destruct (wf_refAt _ _ _ _ _ _ _ Hsnap1 Hgrid Hin)
      as (l & x & Hl & Hlx & _).
    exists l. split; [done|]. by exists x. }
  simpl in Hg2, Hrep2.
  set (ps := if found r then interior (path r) else []).
  assert (∀ v, v ∈ ps →
    cellAt cells (row v) (col v) = Some v ∧ overlayOrEmpty (type v)) as Hps.
  { unfold ps. destruct (found r) eqn:Hfound; [|by intros v ?%elem_of_nil].
    destruct (Hyes eq_refl) as ((c & Hc & Htrail) & Hnd & _).
    apply trail_shape in Htrail as (rest & Hp & Hlast & Hrest & _).
    rewrite Hp in *. intros v Hv.
    destruct (interior_spec sc rest c v Hnd Hlast Hv) as (Hin & Hns & Hnc).
    pose proof (proj1 (Forall_forall _ _) Hrest v Hin) as (Hat & _ & Hnw).
    split; [done|]. unfold overlayOrEmpty.
    destruct (type v) eqn:Hty; auto.
    - destruct (HmS _ _ _ Hat Hty) as (l & y & Hl & Hy & Hco).
      exfalso. apply Hns. assert (y = sc) as -> by congruence. done.
    - destruct (HmE _ _ _ Hat Hty) as (l & y & Hl & Hy & Hco).
      exfalso. apply Hnc. assert (y = ec) as -> by congruence.
      by rewrite Hc.
    - done. }
  set (σc := setGrid g2 (setHeap h2 σb)).
  destruct (animatePath_spec (grid σ) ps σc) as (h3 & g3 & Hrun3 & Hg3 & Hrep3).
  { intros v Hv. destruct (Hps v Hv) as [Hat _].
    apply (snapshot_cellAt _ _ _ _ _ _ Hsnap) in Hat as (l & Hl & _).
    by exists l. }
  simpl in Hg3, Hrep3.
  destruct (run_paint (rows σ) (cols σ) (heap σ) h1 h2 h3 (grid σ) newGrid g3
              cells (visited r) ps Hsnap Hgrid Hsub Hnew Hfresh Hrep2 Hrep3 Hps)
    as (Hkeeps & cells' & Hsnap3 & Hrel).
  { destruct Hg3 as [-> | ->]; [|by right].
    destruct Hg2 as [-> | ->]; [by left|by right]. }
  exists r, h3, g3, cells'. split; [done|]. split; [|done].
  unfold visualizePath. rewrite Hs, He.
  unfold bind at 1. unfold modify at 1.
  unfold bind at 1. unfold modify at 1.
  unfold bind at 1.
  change (setMessage EmptyString (setIsRunning true σ)) with σa.
  rewrite Hrun1.
  unfold bind at 1. unfold modify at 1.
  unfold bind at 1. unfold readCell at 1.
  change (heap (setGrid newGrid (setHeap h1 σa))) with h1.
  rewrite (lookup_weaken _ _ _ _ Hsc Hsub).
  unfold bind at 1. unfold readCell at 1.
  change (heap (setGrid newGrid (setHeap h1 σa))) with h1.
  rewrite (lookup_weaken _ _ _ _ Hec Hsub).
  unfold bind at 1. unfold readGrid at 1.
  change (heap (setGrid newGrid (setHeap h1 σa))) with h1.
  rewrite Hsnap1.
  rewrite chosenSearch_eq, Hr.
  unfold bind at 1. unfold ret at 1.
  unfold bind at 1.
  change (setGrid newGrid (setHeap h1 σa)) with σb.
  rewrite Hrun2. fold σc.
  unfold runMessage. unfold ps in Hrun3. destruct (found r).
  - unfold bind at 1. unfold bind at 1. rewrite Hrun3. done.
  - change (Ok () σc = Ok () (setGrid g3 (setHeap h3 σc))) in Hrun3.
    assert (σc = setGrid g3 (setHeap h3 σc)) as Heq by congruence.
    unfold bind, modify, ret. by rewrite Heq.
Qed.
End RunState.

(** ** Every state of the page *)

Section Reachable.
Import App.

Lemma includes_runMessage r : includes "found!" (runMessage r) = true.
Proof. unfold runMessage. by destruct (found r). Qed.

Lemma visualize_wf σ s e :
  wf_state σ → start σ = Some s → end_ σ = Some e →
  ∃ r σ', visualizePath σ = Ok (Some r) σ' ∧ wf_state σ' ∧
          rows σ' = rows σ ∧ cols σ' = cols σ ∧
          message σ' = runMessage r.
Proof.
  intros Hwf Hs He.
  destruct (wf_cells σ Hwf) as (cells & Hsnap & Hgrid & HmS & HmE).
  destruct (wf_start σ Hwf s Hs) as (sc & Hsc & _).
  destruct (wf_end σ Hwf e He) as (ec & Hec & _).
  destruct (visualize_spec σ s e sc ec cells Hwf Hs He Hsc Hec Hsnap)
    as (r & h' & g' & cells' & _ & -> & Hkeeps & Hsnap' & Hrel).
  exists r. eexists. split; [done|]. split; [|done].
  assert (∀ t o, t = Start ∨ t = End →
            marked t o (heap σ) cells → marked t o h' cells') as Hmarks.
  { intros t o Ht Hm i j x' Hx' Hty.
    destruct (Forall2_cellAt _ _ _ _ _ _ Hrel Hx') as (x & Hx & _ & Hxx).
    assert (type x = t) as Htx.
    { destruct Hxx as [<-|[_ Hov]]; [done|]. rewrite Hty in Hov.
      unfold overlayOrEmpty in Hov.
      destruct Ht as [-> | ->]; destruct Hov as [?|[?|?]]; done. }
    destruct (Hm i j x Hx Htx) as (l & y & Ho & Hy & Hco).
    destruct (Hkeeps l y Hy) as (y' & Hy' & Hco').
    exists l, y'. split; [done|]. split; [done|]. congruence. }
  split; simpl.
  - exists cells'. split; [done|]. split.
    + eapply Forall2_coord_wf; [|done..]. by intros x x' [? _].
    + split; apply Hmarks; auto.
  - eapply placed_keeps; [done|]. by apply wf_start.
  - eapply placed_keeps; [done|]. by apply wf_end.
  - done.
Qed.

Lemma wf_state_ext σ σ' :
  rows σ' = rows σ → cols σ' = cols σ → heap σ' = heap σ →
  grid σ' = grid σ → start σ' = start σ → end_ σ' = end_ σ →
  isRunning σ' = isRunning σ →
  wf_state σ → wf_state σ'.
Proof.
  intros Hr Hc Hh Hg Hs He Hi [H1 H2 H3 H4].
  split; rewrite ?Hr, ?Hc, ?Hh, ?Hg, ?Hs, ?He, ?Hi; done.
Qed.

(** No action throws, and each leaves a state the handlers keep, with
    dimensions in range and a message that is empty or a run's. *)
Lemma act_wf σ a :
  wf_state σ → offered σ a →
  ∃ σ', act a σ = Ok () σ' ∧ wf_state σ' ∧
    (5 ≤ rows σ ≤ 30 → 5 ≤ rows σ' ≤ 30) ∧
    (5 ≤ cols σ ≤ 40 → 5 ≤ cols σ' ≤ 40) ∧
    (message σ' = message σ ∨ message σ' = EmptyString ∨
     ∃ r, message σ' = runMessage r).
Proof.
  intros Hwf Hoff. pose proof (wf_idle σ Hwf) as Hidle.
  destruct a as [r c|m|a|parsed|parsed| | | |]; simpl.
  - destruct Hoff as [l Hl].
    destruct (wf_cells σ Hwf) as (cells & Hsnap & Hgrid & _).
    destruct (snapshot_refAt _ _ _ _ _ _ Hsnap Hl) as (x & _ & Hx).
    pose proof (wf_cellAt_inside _ _ _ _ _ _ Hgrid Hx) as Hin.
    destruct (click_wf σ r c Hwf Hin) as (σ' & -> & Hwf' & Hr & Hc & Hmsg).
    exists σ'. rewrite Hr, Hc. split; [done|]. split; [done|].
    split; [done|]. split; [done|]. destruct Hmsg; auto.
  - unfold selectMode. rewrite Hidle. eexists. split; [done|].
    split; [by apply (wf_state_ext σ)|]. auto.
  - unfold selectAlgorithm. rewrite Hidle. eexists. split; [done|].
    split; [by apply (wf_state_ext σ)|]. auto.
  - unfold changeRows. rewrite Hidle. cbn zeta.
    case_bool_decide as Hn; [exists σ; repeat (split; [done|]); by auto|].
    destruct (initializeGrid_wf (setRows (clampDimension 30 parsed) σ))
      as (σ' & -> & Hwf' & Hr & Hc & Hmsg); [done|].
    exists σ'. split; [done|]. split; [done|]. rewrite Hr, Hc. simpl.
    split; [intros _; by apply clampDimension_range|]. auto.
  - unfold changeCols. rewrite Hidle. cbn zeta.
    case_bool_decide as Hn; [exists σ; repeat (split; [done|]); by auto|].
    destruct (initializeGrid_wf (setCols (clampDimension 40 parsed) σ))
      as (σ' & -> & Hwf' & Hr & Hc & Hmsg); [done|].
    exists σ'. split; [done|]. split; [done|]. rewrite Hr, Hc. simpl.
    split; [done|]. split; [intros _; by apply clampDimension_range|]. auto.
  - unfold pressVisualize. rewrite Hidle. simpl.
    destruct (start σ) as [s|] eqn:Hs; simpl; [|exists σ; repeat (split; [done|]); by auto].
    destruct (end_ σ) as [e|] eqn:He; simpl; [|exists σ; repeat (split; [done|]); by auto].
    destruct (visualize_wf σ s e Hwf Hs He)
      as (r & σ' & Hrun & Hwf' & Hr & Hc & Hmsg).
    exists σ'. rewrite Hr, Hc.
    split; [unfold bind; by rewrite Hrun|]. split; [done|].
    split; [done|]. split; [done|]. right. right. by exists r.
  - unfold pressButton. rewrite Hidle. unfold clearPath.
    destruct (clear_wf withoutOverlay σ) as (σ' & -> & Hwf' & Hr & Hc & Hmsg);
      [intros t; apply withoutOverlay_mark; auto..|done|].
    exists σ'. rewrite Hr, Hc. repeat (split; [done|]). auto.
  - unfold pressButton. rewrite Hidle. unfold clearWalls.
    destruct (clear_wf withoutWall σ) as (σ' & -> & Hwf' & Hr & Hc & Hmsg);
      [intros t; apply withoutWall_mark; auto..|done|].
    exists σ'. rewrite Hr, Hc. repeat (split; [done|]). auto.
  - unfold pressButton. rewrite Hidle.
    destruct (initializeGrid_wf σ Hidle) as (σ' & -> & Hwf' & Hr & Hc & Hmsg).
    exists σ'. rewrite Hr, Hc. repeat (split; [done|]). auto.
Qed.

Lemma reachable_inv σ :
  reachable σ →
  wf_state σ ∧ 5 ≤ rows σ ≤ 30 ∧ 5 ≤ cols σ ≤ 40 ∧
  (message σ = EmptyString ∨ ∃ r, message σ = runMessage r).
Proof.
  induction 1 as [σ Hinit|σ a σ' _ (Hwf & Hr & Hc & Hmsg) Hoff Hact].
  - destruct (initializeGrid_wf (mounted 15 25) eq_refl)
      as (σ' & Hrun & Hwf & Hr & Hc & Hmsg).
    assert (σ' = σ) as -> by congruence.
    split; [done|]. rewrite Hr, Hc. simpl. split; [lia|]. split; [lia|auto].
  - destruct (act_wf σ a Hwf Hoff) as (σ1 & Hrun & Hwf' & Hr' & Hc' & Hmsg').
    assert (σ1 = σ') as -> by congruence.
    split; [done|]. split; [auto|]. split; [auto|].
    destruct Hmsg' as [-> | [-> | ?]]; auto.
Qed.

Lemma offeredb_true σ a : offeredb σ a = true → offered σ a.
Proof.
  destruct a as [r c| | | | | | | |]; simpl; try done.
  destruct (refAt (App.grid σ) r c) as [l|]; [by exists l|done].
Qed.

Lemma reachable_perform acts σ σ' :
  reachable σ → perform acts σ = Some σ' → reachable σ'.
Proof.
  revert σ. induction acts as [|a acts IH]; intros σ Hσ; simpl.
  - by intros [= <-].
  - destruct (offeredb σ a) eqn:Hoff; [|done].
    destruct (act a σ) as [[] σ1|] eqn:Hact; [|done].
    apply IH. eapply reach_act; [done|by apply offeredb_true|done].
Qed.

Lemma reachable_firstShown : reachable firstShown.
Proof.
  apply reach_mount.
  destruct (initializeGrid_wf (mounted 15 25) eq_refl) as (σ' & Hrun & _).
  unfold firstShown, after, session, handle. unfold bind at 1.
  by rewrite Hrun.
Qed.

Lemma reachable_stateAfter acts : reachable (stateAfter acts).
Proof.
  unfold stateAfter.
  destruct (perform acts firstShown) as [σ|] eqn:Hrun; simpl.
  - eapply reachable_perform; [apply reachable_firstShown|done].
  - apply reachable_firstShown.
Qed.
End Reachable.

(** ** Both searches read nothing of a cell but whether it is a wall *)

Section SimulationBoth.
Context (rows cols : Z) (g1 g2 : Grid).
Context (Hwf1 : wf_grid rows cols g1) (Hwf2 : wf_grid rows cols g2).
Context (Hwalls : ∀ r c c1 c2,
  cellAt g1 r c = Some c1 → cellAt g2 r c = Some c2 →
  (type c1 = Wall ↔ type c2 = Wall)).
Context (take : list (Cell * list Cell) →
                option ((Cell * list Cell) * list (Cell * list Cell))).
Context (Htake : ∀ f1 f2, Forall2 sim_entry f1 f2 →
  match take f1, take f2 with
  | None, None => True
  | Some (x1, r1), Some (x2, r2) => sim_entry x1 x2 ∧ Forall2 sim_entry r1 r2
  | _, _ => False
  end).

Lemma loop_sim_take fuel e1 e2 st1 st2 :
  coord e1 = coord e2 → sim_state st1 st2 →
  sim_outcome (loop rows cols g1 take fuel e1 st1)
              (loop rows cols g2 take fuel e2 st2).
Proof.
  intros [= Her Hec]. revert st1 st2.
  induction fuel as [|fuel IH]; intros [f1 S1 V1] [f2 S2 V2] Hst; [done|].
  destruct Hst as (Hfr & Hset & Hvis).
  cbn [frontier visitedSet visitedCells] in Hfr, Hset, Hvis.
  cbn [loop frontier visitedSet visitedCells].
  pose proof (Htake f1 f2 Hfr) as Ht.
  destruct (take f1) as [[[c1 p1] rest1]|], (take f2) as [[[c2 p2] rest2]|];
    try done.
  destruct Ht as [[Hc Hp] Hrest]. simpl in Hc, Hp.
  pose proof Hc as [= Hr Hk].
  rewrite <-Hr, <-Hk, <-Her, <-Hec.
  destruct (bool_decide (row c1 = row e1) && bool_decide (col c1 = col e1));
    [done|].
  destruct (expand_sim rows cols g1 g2 Hwf1 Hwf2 Hwalls c1 c2 p1 p2 directions
              (mkState rest1 S1 V1) (mkState rest2 S2 V2) Hc Hp)
    as (st1' & st2' & -> & -> & Hst'); [done|].
  by apply IH.
Qed.

Lemma search_sim fuel s1 s2 e1 e2 :
  coord s1 = coord s2 → coord e1 = coord e2 →
  sim_outcome (search rows cols g1 take fuel s1 e1)
              (search rows cols g2 take fuel s2 e2).
Proof.
  intros Hs He. apply loop_sim_take; [done|].
  pose proof Hs as [= Hr Hc]. split; [|split]; simpl.
  - apply Forall2_cons. split; [|constructor]. split; [done|].
    simpl. by rewrite Hs.
  - by rewrite Hr, Hc.
  - done.
Qed.
End SimulationBoth.

Lemma shift_sim (f1 f2 : list (Cell * list Cell)) :
  Forall2 sim_entry f1 f2 →
  match shift f1, shift f2 with
  | None, None => True
  | Some (x1, r1), Some (x2, r2) => sim_entry x1 x2 ∧ Forall2 sim_entry r1 r2
  | _, _ => False
  end.
Proof. by intros [|x1 x2 r1 r2 Hx Hr]. Qed.

Lemma pop_sim (f1 f2 : list (Cell * list Cell)) :
  Forall2 sim_entry f1 f2 →
  match pop f1, pop f2 with
  | None, None => True
  | Some (x1, r1), Some (x2, r2) => sim_entry x1 x2 ∧ Forall2 sim_entry r1 r2
  | _, _ => False
  end.
Proof.
  intros H%Forall2_reverse. unfold pop.
  destruct H as [|x1 x2 r1 r2 Hx Hr]; [done|].
  split; [done|]. by apply Forall2_reverse.
Qed.

Lemma sim_outcome_both o1 o2 r1 :
  sim_outcome o1 o2 → o1 = Returned r1 →
  ∃ r2, o2 = Returned r2 ∧
        coord <$> path r1 = coord <$> path r2 ∧
        coord <$> visited r1 = coord <$> visited r2 ∧
        found r1 = found r2.
Proof.
  intros Hsim ->. destruct o2 as [r2| |]; [|done..]. by exists r2.
Qed.

(** X9.  The outcome of either search depends only on the coordinates of
    start and end and on which cells are walls: on two grids with walls at
    the same places, whatever the other types, [bfs] returns paths and
    visited lists with the same coordinates and the same [found], and so
    does [dfs]. *)
Theorem search_reads_walls_only rows cols g1 g2 s1 s2 e1 e2 :
  wf_grid rows cols g1 → wf_grid rows cols g2 →
  (∀ r c c1 c2, cellAt g1 r c = Some c1 → cellAt g2 r c = Some c2 →
                (type c1 = Wall ↔ type c2 = Wall)) →
  coord s1 = coord s2 → coord e1 = coord e2 →
  ∃ b1 b2 d1 d2,
    bfs rows cols g1 s1 e1 = Returned b1 ∧
    bfs rows cols g2 s2 e2 = Returned b2 ∧
    dfs rows cols g1 s1 e1 = Returned d1 ∧
    dfs rows cols g2 s2 e2 = Returned d2 ∧
    (coord <$> path b1 = coord <$> path b2 ∧
     coord <$> visited b1 = coord <$> visited b2 ∧ found b1 = found b2) ∧
    (coord <$> path d1 = coord <$> path d2 ∧
     coord <$> visited d1 = coord <$> visited d2 ∧ found d1 = found d2).
Proof.
  intros Hwf1 Hwf2 Hwalls Hs He.
  destruct (bfs_generic rows cols g1 Hwf1 s1 e1) as (b1 & Hb1 & _).
  destruct (dfs_generic rows cols g1 Hwf1 s1 e1) as (d1 & Hd1 & _).
  pose proof (search_sim rows cols g1 g2 Hwf1 Hwf2 Hwalls shift shift_sim
                (enough rows cols) s1 s2 e1 e2 Hs He) as Hbs.
  pose proof (search_sim rows cols g1 g2 Hwf1 Hwf2 Hwalls pop pop_sim
                (enough rows cols) s1 s2 e1 e2 Hs He) as Hds.
  destruct (sim_outcome_both _ _ b1 Hbs Hb1) as (b2 & Hb2 & Hb).
  destruct (sim_outcome_both _ _ d1 Hds Hd1) as (d2 & Hd2 & Hd).
  by exists b1, b2, d1, d2.
Qed.

Lemma retypeAll_walls (cells : Grid) r c c1 c2 :
  cellAt cells r c = Some c1 →
  cellAt (App.retypeAll App.withoutOverlay cells) r c = Some c2 →
  (type c1 = Wall ↔ type c2 = Wall).
Proof.
  intros H1 H2. rewrite cellAt_retypeAll, H1 in H2. injection H2 as <-.
  simpl. by destruct (type c1).
Qed.

Lemma search_reads_walls_only_witness :
  ∃ b1 b2 d1 d2,
    bfs 5 5 visualizedGrid (mkCell 0 0 Start) (mkCell 0 3 End) = Returned b1 ∧
    bfs 5 5 (App.retypeAll App.withoutOverlay visualizedGrid)
        (mkCell 0 0 Start) (mkCell 0 3 End) = Returned b2 ∧
    dfs 5 5 visualizedGrid (mkCell 0 0 Start) (mkCell 0 3 End) = Returned d1 ∧
    dfs 5 5 (App.retypeAll App.withoutOverlay visualizedGrid)
        (mkCell 0 0 Start) (mkCell 0 3 End) = Returned d2 ∧
    (coord <$> path b1 = coord <$> path b2 ∧
     coord <$> visited b1 = coord <$> visited b2 ∧ found b1 = found b2) ∧
    (coord <$> path d1 = coord <$> path d2 ∧
     coord <$> visited d1 = coord <$> visited d2 ∧ found d1 = found d2).
Proof.
  apply (search_reads_walls_only 5 5 visualizedGrid
           (App.retypeAll App.withoutOverlay visualizedGrid)).
  - reflexivity.
  - reflexivity.
  - apply retypeAll_walls.
  - reflexivity.
  - reflexivity.
Defined.

(** ** Properties of the page *)

(** X10.  No action the page offers throws: from every state of the page,
    every click on a cell of the grid, every choice in a drop-down, every
    value typed in a dimension input and every button runs its handler to
    the end, and leaves a state of the page. *)
Theorem page_never_throws σ a :
  reachable σ → offered σ a →
  ∃ σ', act a σ = App.Ok () σ' ∧ reachable σ'.
Proof.
  intros Hσ Hoff. destruct (reachable_inv σ Hσ) as (Hwf & _).
  destruct (act_wf σ a Hwf Hoff) as (σ' & Hrun & _).
  exists σ'. split; [done|]. by eapply reach_act.
Qed.

Lemma page_never_throws_witness :
  ∃ σ', act (ClickCell 0 0) firstShown = App.Ok () σ' ∧ reachable σ'.
Proof.
  apply (page_never_throws firstShown (ClickCell 0 0)).
  - apply reachable_firstShown.
  - exists 0%nat. vm_compute. reflexivity.
Defined.

(** X11.  In every state of the page the grid array holds [rows] rows of
    [cols] cell objects, each carrying its own coordinates; [rows] is
    between 5 and 30, [cols] between 5 and 40, and no run is in progress
    between two actions. *)
Theorem page_grid_matches_dimensions σ :
  reachable σ →
  ∃ cells, App.snapshot (App.heap σ) (App.grid σ) = Some cells ∧
           wf_grid (App.rows σ) (App.cols σ) cells ∧
           5 ≤ App.rows σ ≤ 30 ∧ 5 ≤ App.cols σ ≤ 40 ∧
           App.isRunning σ = false.
Proof.
  intros Hσ. destruct (reachable_inv σ Hσ) as (Hwf & Hr & Hc & _).
  destruct (wf_cells σ Hwf) as (cells & Hsnap & Hgrid & _).
  exists cells. split; [done|]. split; [done|]. split; [done|].
  split; [done|]. by apply wf_idle.
Qed.

Lemma page_grid_matches_dimensions_witness :
  ∃ cells,
    App.snapshot (App.heap (stateAfter [ChangeRows (Some 7); ChangeCols None]))
                 (App.grid (stateAfter [ChangeRows (Some 7); ChangeCols None]))
      = Some cells ∧
    wf_grid (App.rows (stateAfter [ChangeRows (Some 7); ChangeCols None]))
            (App.cols (stateAfter [ChangeRows (Some 7); ChangeCols None]))
            cells ∧
    5 ≤ App.rows (stateAfter [ChangeRows (Some 7); ChangeCols None]) ≤ 30 ∧
    5 ≤ App.cols (stateAfter [ChangeRows (Some 7); ChangeCols None]) ≤ 40 ∧
    App.isRunning (stateAfter [ChangeRows (Some 7); ChangeCols None]) = false.
Proof.
  apply (page_grid_matches_dimensions
           (stateAfter [ChangeRows (Some 7); ChangeCols None])).
  apply reachable_stateAfter.
Defined.

(** X12.  In every state of the page at most one cell is shown as start
    and at most one as end: two cells of type [Start] are at the same
    coordinates, and so are two cells of type [End]; such a cell is at the
    coordinates of the object [start], or [end], refers to. *)
Theorem page_one_start_one_end σ :
  reachable σ →
  ∃ cells, App.snapshot (App.heap σ) (App.grid σ) = Some cells ∧
    (∀ r c x r' c' x',
       cellAt cells r c = Some x → cellAt cells r' c' = Some x' →
       type x = type x' → type x = Start ∨ type x = End →
       (r, c) = (r', c')) ∧
    (∀ r c x, cellAt cells r c = Some x → type x = Start →
       coordOf (App.heap σ) (App.start σ) = Some (r, c)) ∧
    (∀ r c x, cellAt cells r c = Some x → type x = End →
       coordOf (App.heap σ) (App.end_ σ) = Some (r, c)).
Proof.
  intros Hσ. destruct (reachable_inv σ Hσ) as (Hwf & _).
  destruct (wf_cells σ Hwf) as (cells & Hsnap & Hgrid & HmS & HmE).
  assert (∀ t o, marked t o (App.heap σ) cells →
            ∀ r c x, cellAt cells r c = Some x → type x = t →
                     coordOf (App.heap σ) o = Some (r, c)) as Hco.
  { intros t o Hm r c x Hx Ht.
    destruct (Hm r c x Hx Ht) as (l & y & -> & Hy & Hco).
    simpl. by rewrite Hy, <-Hco. }
  exists cells. split; [done|]. split; [|split; by eapply Hco].
  intros r c x r' c' x' Hx Hx' Hty [Ht|Ht].
  - pose proof (Hco _ _ HmS r c x Hx Ht) as H1.
    assert (type x' = type x) as Ht' by done. rewrite Ht in Ht'.
    pose proof (Hco _ _ HmS r' c' x' Hx' Ht') as H2.
    rewrite H1 in H2. by injection H2 as -> ->.
  - pose proof (Hco _ _ HmE r c x Hx Ht) as H1.
    assert (type x' = type x) as Ht' by done. rewrite Ht in Ht'.
    pose proof (Hco _ _ HmE r' c' x' Hx' Ht') as H2.
    rewrite H1 in H2. by injection H2 as -> ->.
Qed.

Lemma page_one_start_one_end_witness :
  ∃ cells,
    App.snapshot (App.heap (stateAfter [ClickCell 0 0; ClickCell 0 1]))
                 (App.grid (stateAfter [ClickCell 0 0; ClickCell 0 1]))
      = Some cells ∧
    (∀ r c x r' c' x',
       cellAt cells r c = Some x → cellAt cells r' c' = Some x' →
       type x = type x' → type x = Start ∨ type x = End →
       (r, c) = (r', c')) ∧
    (∀ r c x, cellAt cells r c = Some x → type x = Start →
       coordOf (App.heap (stateAfter [ClickCell 0 0; ClickCell 0 1]))
               (App.start (stateAfter [ClickCell 0 0; ClickCell 0 1]))
         = Some (r, c)) ∧
    (∀ r c x, cellAt cells r c = Some x → type x = End →
       coordOf (App.heap (stateAfter [ClickCell 0 0; ClickCell 0 1]))
               (App.end_ (stateAfter [ClickCell 0 0; ClickCell 0 1]))
         = Some (r, c)).
Proof.
  apply (page_one_start_one_end (stateAfter [ClickCell 0 0; ClickCell 0 1])).
  apply reachable_stateAfter.
Defined.

(** X13.  The message asking to select both points is never on the page:
    the Visualize Path button is disabled as long as one is missing.  A
    message on the page is the one a run ended with, and it is shown in the
    colours of success, also when no path was found. *)
Theorem page_message_is_of_a_run σ :
  reachable σ →
  App.message σ ≠ "Please select both start and end points!" ∧
  (App.message σ = EmptyString ∨
   (∃ r, App.message σ = runMessage r) ∧
   messageClass (App.message σ) = "bg-green-100 text-green-800").
Proof.
  intros Hσ. destruct (reachable_inv σ Hσ) as (_ & _ & _ & [-> | [r ->]]).
  - split; [done|by left].
  - pose proof (includes_runMessage r) as Hinc. split.
    + intros Heq. by rewrite Heq in Hinc.
    + right. split; [by exists r|]. unfold messageClass. by rewrite Hinc.
Qed.

Lemma page_message_is_of_a_run_witness :
  App.message (stateAfter [ClickCell 0 0; PressVisualize]) ≠
    "Please select both start and end points!" ∧
  (App.message (stateAfter [ClickCell 0 0; PressVisualize]) = EmptyString ∨
   (∃ r, App.message (stateAfter [ClickCell 0 0; PressVisualize]) =
         runMessage r) ∧
   messageClass (App.message (stateAfter [ClickCell 0 0; PressVisualize])) =
     "bg-green-100 text-green-800").
Proof.
  apply (page_message_is_of_a_run (stateAfter [ClickCell 0 0; PressVisualize])).
  apply reachable_stateAfter.
Defined.

(** ** Properties of the handlers *)

Lemma ready_endpoints :
  App.start (stateAfter [ClickCell 0 0; ClickCell 0 1]) = Some 0%nat ∧
  App.end_ (stateAfter [ClickCell 0 0; ClickCell 0 1]) = Some 1%nat.
Proof. vm_compute. done. Qed.

(** X14.  With start and end set, a run goes through: [visualizePath]
    returns the result of the chosen traversal on the cells of the grid,
    from the cell object behind [start] to the one behind [end]; it leaves
    the message of that result, [isRunning] false again, and start, end,
    mode, algorithm and dimensions as they were. *)
Theorem visualize_runs_chosen_search σ s e :
  reachable σ → App.start σ = Some s → App.end_ σ = Some e →
  ∃ sc ec cells r σ',
    App.heap σ !! s = Some sc ∧ App.heap σ !! e = Some ec ∧
    App.snapshot (App.heap σ) (App.grid σ) = Some cells ∧
    chosenSearch (App.algorithm σ) (App.rows σ) (App.cols σ) cells sc ec =
      Returned r ∧
    App.visualizePath σ = App.Ok (Some r) σ' ∧
    App.message σ' = runMessage r ∧ App.isRunning σ' = false ∧
    App.start σ' = App.start σ ∧ App.end_ σ' = App.end_ σ ∧
    App.mode σ' = App.mode σ ∧ App.algorithm σ' = App.algorithm σ ∧
    App.rows σ' = App.rows σ ∧ App.cols σ' = App.cols σ.
Proof.
  intros Hσ Hs He. destruct (reachable_inv σ Hσ) as (Hwf & _).
  destruct (wf_cells σ Hwf) as (cells & Hsnap & _).
  destruct (wf_start σ Hwf s Hs) as (sc & Hsc & _).
  destruct (wf_end σ Hwf e He) as (ec & Hec & _).
  destruct (visualize_spec σ s e sc ec cells Hwf Hs He Hsc Hec Hsnap)
    as (r & h' & g' & cells' & Hr & -> & _).
  exists sc, ec, cells, r. eexists. by repeat (split; [done|]).
Qed.

Lemma visualize_runs_chosen_search_witness :
  ∃ sc ec cells r σ',
    App.heap (stateAfter [ClickCell 0 0; ClickCell 0 1]) !! 0%nat = Some sc ∧
    App.heap (stateAfter [ClickCell 0 0; ClickCell 0 1]) !! 1%nat = Some ec ∧
    App.snapshot (App.heap (stateAfter [ClickCell 0 0; ClickCell 0 1]))
                 (App.grid (stateAfter [ClickCell 0 0; ClickCell 0 1]))
      = Some cells ∧
    chosenSearch (App.algorithm (stateAfter [ClickCell 0 0; ClickCell 0 1]))
                 (App.rows (stateAfter [ClickCell 0 0; ClickCell 0 1]))
                 (App.cols (stateAfter [ClickCell 0 0; ClickCell 0 1]))
                 cells sc ec = Returned r ∧
    App.visualizePath (stateAfter [ClickCell 0 0; ClickCell 0 1]) =
      App.Ok (Some r) σ' ∧
    App.message σ' = runMessage r ∧ App.isRunning σ' = false ∧
    App.start σ' = App.start (stateAfter [ClickCell 0 0; ClickCell 0 1]) ∧
    App.end_ σ' = App.end_ (stateAfter [ClickCell 0 0; ClickCell 0 1]) ∧
    App.mode σ' = App.mode (stateAfter [ClickCell 0 0; ClickCell 0 1]) ∧
    App.algorithm σ' =
      App.algorithm (stateAfter [ClickCell 0 0; ClickCell 0 1]) ∧
    App.rows σ' = App.rows (stateAfter [ClickCell 0 0; ClickCell 0 1]) ∧
    App.cols σ' = App.cols (stateAfter [ClickCell 0 0; ClickCell 0 1]).
Proof.
  apply (visualize_runs_chosen_search
           (stateAfter [ClickCell 0 0; ClickCell 0 1]) 0%nat 1%nat).
  - apply reachable_stateAfter.
  - apply ready_endpoints.
  - apply ready_endpoints.
Defined.

(** X15.  A run only repaints among empty, visited and path: every cell
    of the grid it leaves is at the coordinates it had and has the type it
    had, unless it was empty, visited or path and is so again.  No wall,
    start or end cell changes, and none appears. *)
Theorem visualize_keeps_walls_and_marks σ s e :
  reachable σ → App.start σ = Some s → App.end_ σ = Some e →
  ∃ cells r σ' cells',
    App.snapshot (App.heap σ) (App.grid σ) = Some cells ∧
    App.visualizePath σ = App.Ok (Some r) σ' ∧
    App.snapshot (App.heap σ') (App.grid σ') = Some cells' ∧
    Forall2 (Forall2 repaintedCell) cells cells' ∧
    ∀ i j x', cellAt cells' i j = Some x' →
      ∃ x, cellAt cells i j = Some x ∧ coord x' = coord x ∧
           (type x = Wall ↔ type x' = Wall) ∧
           (type x = Start ↔ type x' = Start) ∧
           (type x = End ↔ type x' = End).
Proof.
  intros Hσ Hs He. destruct (reachable_inv σ Hσ) as (Hwf & _).
  destruct (wf_cells σ Hwf) as (cells & Hsnap & _).
  destruct (wf_start σ Hwf s Hs) as (sc & Hsc & _).
  destruct (wf_end σ Hwf e He) as (ec & Hec & _).
  destruct (visualize_spec σ s e sc ec cells Hwf Hs He Hsc Hec Hsnap)
    as (r & h' & g' & cells' & _ & -> & _ & Hsnap' & Hrel).
  exists cells, r. eexists. exists cells'.
  split; [done|]. split; [done|]. split; [done|]. split; [done|].
  intros i j x' Hx'.
  destruct (Forall2_cellAt _ _ _ _ _ _ Hrel Hx') as (x & Hx & Hco & Hty).
  exists x. split; [done|]. split; [done|]. unfold overlayOrEmpty in Hty.
  destruct Hty as [->|[[Ht|[Ht|Ht]] [Ht'|[Ht'|Ht']]]]; [done|..];
    rewrite Ht, Ht'; done.
Qed.

Lemma visualize_keeps_walls_and_marks_witness :
  ∃ cells r σ' cells',
    App.snapshot
      (App.heap (stateAfter [ClickCell 0 0; ClickCell 0 1]))
      (App.grid (stateAfter [ClickCell 0 0; ClickCell 0 1]))
      = Some cells ∧
    App.visualizePath
      (stateAfter [ClickCell 0 0; ClickCell 0 1]) =
      App.Ok (Some r) σ' ∧
    App.snapshot (App.heap σ') (App.grid σ') = Some cells' ∧
    Forall2 (Forall2 repaintedCell) cells cells' ∧
    ∀ i j x', cellAt cells' i j = Some x' →
      ∃ x, cellAt cells i j = Some x ∧ coord x' = coord x ∧
           (type x = Wall ↔ type x' = Wall) ∧
           (type x = Start ↔ type x' = Start) ∧
           (type x = End ↔ type x' = End).
Proof.
  apply (visualize_keeps_walls_and_marks
           (stateAfter [ClickCell 0 0; ClickCell 0 1]) 0%nat 1%nat).
  - apply reachable_stateAfter.
  - apply ready_endpoints.
  - apply ready_endpoints.
Defined.

(** X16.  In Draw Walls mode two clicks on the same cell undo each other:
    a start or end cell is left alone by both, an empty or wall cell is back
    to what it was, and a path or visited cell ends empty; no other cell
    changes, and mode, start and end stay. *)
Theorem wall_click_twice σ r c :
  reachable σ → App.mode σ = App.DrawWalls →
  insideb (App.rows σ) (App.cols σ) (r, c) = true →
  ∃ cells x σ1 σ2,
    App.snapshot (App.heap σ) (App.grid σ) = Some cells ∧
    cellAt cells r c = Some x ∧
    App.handleCellClick r c σ = App.Ok () σ1 ∧
    App.handleCellClick r c σ1 = App.Ok () σ2 ∧
    App.snapshot (App.heap σ2) (App.grid σ2) =
      Some (setType cells r c (App.withoutOverlay (type x))) ∧
    (type x ≠ Path → type x ≠ Visited →
     App.snapshot (App.heap σ2) (App.grid σ2) = Some cells) ∧
    App.mode σ2 = App.DrawWalls ∧
    App.start σ2 = App.start σ ∧ App.end_ σ2 = App.end_ σ.
Proof.
  intros Hσ Hmode Hin. destruct (reachable_inv σ Hσ) as (Hwf & _).
  destruct (wf_cells σ Hwf) as (cells & Hsnap & Hgrid & _).
  destruct (click_wall_spec σ cells r c Hwf Hmode Hsnap Hin)
    as (l & x & Hl & Hx & Hlx & Hsnap1 & Hrun1).
  destruct (click_wf σ r c Hwf Hin) as (σ1 & Hrun1' & Hwf1 & Hr1 & Hc1 & _).
  assert (0 ≤ r ∧ 0 ≤ c) as [Hr Hc].
  { apply insideb_true in Hin. simpl in Hin. lia. }
  assert (∀ t, App.withoutOverlay t = t → type x = t →
            setType cells r c (App.withoutOverlay (type x)) = cells) as Hsame.
  { intros t Ht <-. rewrite Ht. by eapply setType_same. }
  exists cells, x, σ1.
  destruct (bool_decide (type x = Start) || bool_decide (type x = End))
    eqn:Hmark.
  - assert (σ1 = σ) as -> by congruence.
    assert (App.withoutOverlay (type x) = type x) as Hwo.
    { apply orb_true_iff in Hmark as [->%bool_decide_eq_true|
                                      ->%bool_decide_eq_true]; done. }
    exists σ. rewrite Hwo.
    rewrite (setType_same cells r c (type x) x) by done.
    by repeat (split; [done|]).
  - apply orb_false_iff in Hmark as [HnS%bool_decide_eq_false
                                     HnE%bool_decide_eq_false].
    set (t1 := if bool_decide (type x = Wall) then Empty else Wall) in *.
    assert (σ1 = App.setMessage EmptyString (App.setGrid (App.grid σ)
              (App.setHeap (alter (withType t1) l (App.heap σ)) σ)))
      as Hσ1 by congruence.
    assert (App.mode σ1 = App.DrawWalls) as Hmode1 by by rewrite Hσ1.
    assert (App.snapshot (App.heap σ1) (App.grid σ1) =
            Some (setType cells r c t1)) as Hsnap1'.
    { rewrite Hσ1. simpl. apply Hsnap1. }
    assert (insideb (App.rows σ1) (App.cols σ1) (r, c) = true) as Hin1.
    { by rewrite Hr1, Hc1. }
    destruct (click_wall_spec σ1 _ r c Hwf1 Hmode1 Hsnap1' Hin1)
      as (l' & x1 & Hl' & Hx1 & Hlx1 & Hsnap2 & Hrun2).
    rewrite cellAt_setType_eq, Hx in Hx1 by done.
    injection Hx1 as <-. simpl in Hrun2.
    assert (t1 ≠ Start ∧ t1 ≠ End) as [Ht1S Ht1E].
    { unfold t1. by destruct (bool_decide (type x = Wall)). }
    rewrite !bool_decide_false in Hrun2 by done. simpl in Hrun2.
    set (t2 := if bool_decide (t1 = Wall) then Empty else Wall) in *.
    assert (t2 = App.withoutOverlay (type x)) as Ht2.
    { unfold t2, t1. destruct (type x); done. }
    eexists. split; [done|]. split; [done|]. split; [done|].
    split; [exact Hrun2|].
    assert (App.snapshot (alter (withType t2) l' (App.heap σ1)) (App.grid σ1) =
            Some (setType cells r c (App.withoutOverlay (type x)))) as Hfinal.
    { rewrite Hsnap2, setType_setType. by rewrite Ht2. }
    split; [exact Hfinal|]. split.
    + intros HnP HnV. simpl. rewrite Hfinal. f_equal.
      apply (Hsame (type x)); [|done]. by destruct (type x).
    + rewrite Hσ1. done.
Qed.

Lemma wall_click_twice_witness :
  ∃ cells x σ1 σ2,
    App.snapshot
      (App.heap (stateAfter [SelectMode App.DrawWalls]))
      (App.grid (stateAfter [SelectMode App.DrawWalls]))
      = Some cells ∧
    cellAt cells 1 0 = Some x ∧
    App.handleCellClick 1 0
      (stateAfter [SelectMode App.DrawWalls]) =
      App.Ok () σ1 ∧
    App.handleCellClick 1 0 σ1 = App.Ok () σ2 ∧
    App.snapshot (App.heap σ2) (App.grid σ2) =
      Some (setType cells 1 0 (App.withoutOverlay (type x))) ∧
    (type x ≠ Path → type x ≠ Visited →
     App.snapshot (App.heap σ2) (App.grid σ2) = Some cells) ∧
    App.mode σ2 = App.DrawWalls ∧
    App.start σ2 =
      App.start (stateAfter [SelectMode App.DrawWalls]) ∧
    App.end_ σ2 =
      App.end_ (stateAfter [SelectMode App.DrawWalls]).
Proof.
  apply (wall_click_twice
           (stateAfter [SelectMode App.DrawWalls]) 1 0).
  - apply reachable_stateAfter.
  - reflexivity.
  - reflexivity.
Defined.

Lemma coordOf_placed rows cols h o a b :
  placed rows cols h o → coordOf h o = Some (a, b) → 0 ≤ a ∧ 0 ≤ b.
Proof.
  intros Hp Hu. destruct o as [l|]; [|done]. simpl in Hu.
  destruct (Hp l eq_refl) as (y & Hy & (Hr & Hc)%insideb_true).
  rewrite Hy in Hu. injection Hu as <- <-. simpl in Hr, Hc. lia.
Qed.

(** The cells after [if (o) newGrid[o.row][o.col].type = 'empty'] and
    [cell.type = t], one by one. *)
Lemma place_cells (cells : Grid) u r c t x :
  0 ≤ r → 0 ≤ c → (∀ a b, u = Some (a, b) → 0 ≤ a ∧ 0 ≤ b) →
  cellAt cells r c = Some x →
  cellAt (setType (unmark cells u) r c t) r c = Some (withType t x) ∧
  (∀ i j, (i, j) ≠ (r, c) → u ≠ Some (i, j) →
     cellAt (setType (unmark cells u) r c t) i j = cellAt cells i j) ∧
  (∀ i j y, (i, j) ≠ (r, c) → u = Some (i, j) → cellAt cells i j = Some y →
     cellAt (setType (unmark cells u) r c t) i j = Some (withType Empty y)).
Proof.
  intros Hr Hc Hu Hx. split; [|split].
  - rewrite cellAt_setType_eq by done. destruct u as [[a b]|]; simpl.
    + destruct (Hu a b eq_refl) as [Ha Hb].
      destruct (decide ((r, c) = (a, b))) as [[= <- <-]|Hne].
      * rewrite cellAt_setType_eq, Hx by done. done.
      * rewrite cellAt_setType_ne, Hx by done. done.
    + by rewrite Hx.
  - intros i j Hij Hne. rewrite cellAt_setType_ne by done.
    destruct u as [[a b]|]; simpl; [|done].
    destruct (Hu a b eq_refl) as [Ha Hb].
    rewrite cellAt_setType_ne; [done..|]. congruence.
  - intros i j y Hij -> Hy. rewrite cellAt_setType_ne by done. simpl.
    destruct (Hu i j eq_refl) as [Ha Hb].
    by rewrite cellAt_setType_eq, Hy by done.
Qed.

Lemma unmark_type (cells : Grid) u r c x x1 :
  (∀ a b, u = Some (a, b) → 0 ≤ a ∧ 0 ≤ b) →
  cellAt cells r c = Some x → cellAt (unmark cells u) r c = Some x1 →
  x1 = x ∨ x1 = withType Empty x.
Proof.
  intros Hu Hx Hx1. destruct u as [[a b]|]; simpl in Hx1; [|left; congruence].
  destruct (Hu a b eq_refl) as [Ha Hb].
  destruct (decide ((r, c) = (a, b))) as [[= <- <-]|Hne].
  - rewrite cellAt_setType_eq, Hx in Hx1 by done. right. by injection Hx1.
  - rewrite cellAt_setType_ne, Hx in Hx1 by done. left. by injection Hx1.
Qed.

(** X17.  In Set Start mode a click on a cell that is not the end makes
    that cell object the start: the cell gets type [Start], the cell at the
    coordinates of the previous start, if there was one elsewhere, gets
    type [Empty], every other cell is as before, the mode moves on to
    Set End and the message is cleared. *)
Theorem click_places_start σ r c :
  reachable σ → App.mode σ = App.SetStart →
  insideb (App.rows σ) (App.cols σ) (r, c) = true →
  ∃ cells x l,
    App.snapshot (App.heap σ) (App.grid σ) = Some cells ∧
    cellAt cells r c = Some x ∧ refAt (App.grid σ) r c = Some l ∧
    (type x ≠ End →
     ∃ σ' cells',
       App.handleCellClick r c σ = App.Ok () σ' ∧
       App.start σ' = Some l ∧ App.mode σ' = App.SetEnd ∧
       App.end_ σ' = App.end_ σ ∧ App.message σ' = EmptyString ∧
       App.snapshot (App.heap σ') (App.grid σ') = Some cells' ∧
       cellAt cells' r c = Some (withType Start x) ∧
       (∀ i j, (i, j) ≠ (r, c) →
          coordOf (App.heap σ) (App.start σ) ≠ Some (i, j) →
          cellAt cells' i j = cellAt cells i j) ∧
       (∀ i j y, (i, j) ≠ (r, c) →
          coordOf (App.heap σ) (App.start σ) = Some (i, j) →
          cellAt cells i j = Some y →
          cellAt cells' i j = Some (withType Empty y))).
Proof.
  intros Hσ Hmode Hin. destruct (reachable_inv σ Hσ) as (Hwf & _).
  destruct (wf_cells σ Hwf) as (cells & Hsnap & Hgrid & _).
  destruct (click_start_spec σ cells r c Hwf Hmode Hsnap Hin)
    as (l & x1 & h1 & Hl & Hx1 & _ & _ & _ & Hsnap2 & Hrun).
  destruct (wf_refAt _ _ _ _ _ _ _ Hsnap Hgrid Hin)
    as (l0 & x & Hl0 & _ & Hx & _).
  assert (l0 = l) as -> by congruence.
  assert (∀ a b, coordOf (App.heap σ) (App.start σ) = Some (a, b) →
                 0 ≤ a ∧ 0 ≤ b) as Hu.
  { intros a b. eapply coordOf_placed. by apply wf_start. }
  assert (0 ≤ r ∧ 0 ≤ c) as [Hr Hc].
  { apply insideb_true in Hin. simpl in Hin. lia. }
  exists cells, x, l. split; [done|]. split; [done|]. split; [done|].
  intros HnE.
  assert (type x1 ≠ End) as HnE1.
  { destruct (unmark_type _ _ _ _ _ _ Hu Hx Hx1) as [-> | ->]; done. }
  rewrite bool_decide_false in Hrun by done.
  destruct (place_cells cells (coordOf (App.heap σ) (App.start σ)) r c Start x
              Hr Hc Hu Hx) as (Hhere & Hother & Hold).
  eexists. eexists. split; [exact Hrun|]. simpl.
  by repeat (split; [done|]).
Qed.

Lemma click_places_start_witness :
  ∃ cells x l,
    App.snapshot (App.heap firstShown) (App.grid firstShown) = Some cells ∧
    cellAt cells 2 3 = Some x ∧ refAt (App.grid firstShown) 2 3 = Some l ∧
    (type x ≠ End →
     ∃ σ' cells',
       App.handleCellClick 2 3 firstShown = App.Ok () σ' ∧
       App.start σ' = Some l ∧ App.mode σ' = App.SetEnd ∧
       App.end_ σ' = App.end_ firstShown ∧ App.message σ' = EmptyString ∧
       App.snapshot (App.heap σ') (App.grid σ') = Some cells' ∧
       cellAt cells' 2 3 = Some (withType Start x) ∧
       (∀ i j, (i, j) ≠ (2, 3) →
          coordOf (App.heap firstShown) (App.start firstShown) ≠ Some (i, j) →
          cellAt cells' i j = cellAt cells i j) ∧
       (∀ i j y, (i, j) ≠ (2, 3) →
          coordOf (App.heap firstShown) (App.start firstShown) = Some (i, j) →
          cellAt cells i j = Some y →
          cellAt cells' i j = Some (withType Empty y))).
Proof.
  apply (click_places_start firstShown 2 3).
  - apply reachable_firstShown.
  - reflexivity.
  - reflexivity.
Defined.

(** X18.  In Set End mode a click on a cell that is not the start makes
    that cell object the end: the cell gets type [End], the cell at the
    coordinates of the previous end, if there was one elsewhere, gets type
    [Empty], every other cell is as before, the mode moves on to Draw Walls
    and the message is cleared. *)
Theorem click_places_end σ r c :
  reachable σ → App.mode σ = App.SetEnd →
  insideb (App.rows σ) (App.cols σ) (r, c) = true →
  ∃ cells x l,
    App.snapshot (App.heap σ) (App.grid σ) = Some cells ∧
    cellAt cells r c = Some x ∧ refAt (App.grid σ) r c = Some l ∧
    (type x ≠ Start →
     ∃ σ' cells',
       App.handleCellClick r c σ = App.Ok () σ' ∧
       App.end_ σ' = Some l ∧ App.mode σ' = App.DrawWalls ∧
       App.start σ' = App.start σ ∧ App.message σ' = EmptyString ∧
       App.snapshot (App.heap σ') (App.grid σ') = Some cells' ∧
       cellAt cells' r c = Some (withType End x) ∧
       (∀ i j, (i, j) ≠ (r, c) →
          coordOf (App.heap σ) (App.end_ σ) ≠ Some (i, j) →
          cellAt cells' i j = cellAt cells i j) ∧
       (∀ i j y, (i, j) ≠ (r, c) →
          coordOf (App.heap σ) (App.end_ σ) = Some (i, j) →
          cellAt cells i j = Some y →
          cellAt cells' i j = Some (withType Empty y))).
Proof.
  intros Hσ Hmode Hin. destruct (reachable_inv σ Hσ) as (Hwf & _).
  destruct (wf_cells σ Hwf) as (cells & Hsnap & Hgrid & _).
  destruct (click_end_spec σ cells r c Hwf Hmode Hsnap Hin)
    as (l & x1 & h1 & Hl & Hx1 & _ & _ & _ & Hsnap2 & Hrun).
  destruct (wf_refAt _ _ _ _ _ _ _ Hsnap Hgrid Hin)
    as (l0 & x & Hl0 & _ & Hx & _).
  assert (l0 = l) as -> by congruence.
  assert (∀ a b, coordOf (App.heap σ) (App.end_ σ) = Some (a, b) →
                 0 ≤ a ∧ 0 ≤ b) as Hu.
  { intros a b. eapply coordOf_placed. by apply wf_end. }
  assert (0 ≤ r ∧ 0 ≤ c) as [Hr Hc].
  { apply insideb_true in Hin. simpl in Hin. lia. }
  exists cells, x, l. split; [done|]. split; [done|]. split; [done|].
  intros HnS.
  assert (type x1 ≠ Start) as HnS1.
  { destruct (unmark_type _ _ _ _ _ _ Hu Hx Hx1) as [-> | ->]; done. }
  rewrite bool_decide_false in Hrun by done.
  destruct (place_cells cells (coordOf (App.heap σ) (App.end_ σ)) r c End x
              Hr Hc Hu Hx) as (Hhere & Hother & Hold).
  eexists. eexists. split; [exact Hrun|]. simpl.
  by repeat (split; [done|]).
Qed.

Lemma click_places_end_witness :
  ∃ cells x l,
    App.snapshot (App.heap (stateAfter [SelectMode App.SetEnd]))
                 (App.grid (stateAfter [SelectMode App.SetEnd])) = Some cells ∧
    cellAt cells 2 3 = Some x ∧
    refAt (App.grid (stateAfter [SelectMode App.SetEnd])) 2 3 = Some l ∧
    (type x ≠ Start →
     ∃ σ' cells',
       App.handleCellClick 2 3 (stateAfter [SelectMode App.SetEnd]) = App.Ok () σ' ∧
       App.end_ σ' = Some l ∧ App.mode σ' = App.DrawWalls ∧
       App.start σ' = App.start (stateAfter [SelectMode App.SetEnd]) ∧
       App.message σ' = EmptyString ∧
       App.snapshot (App.heap σ') (App.grid σ') = Some cells' ∧
       cellAt cells' 2 3 = Some (withType End x) ∧
       (∀ i j, (i, j) ≠ (2, 3) →
          coordOf (App.heap (stateAfter [SelectMode App.SetEnd]))
                  (App.end_ (stateAfter [SelectMode App.SetEnd])) ≠ Some (i, j) →
          cellAt cells' i j = cellAt cells i j) ∧
       (∀ i j y, (i, j) ≠ (2, 3) →
          coordOf (App.heap (stateAfter [SelectMode App.SetEnd]))
                  (App.end_ (stateAfter [SelectMode App.SetEnd])) = Some (i, j) →
          cellAt cells i j = Some y →
          cellAt cells' i j = Some (withType Empty y))).
Proof.
  apply (click_places_end (stateAfter [SelectMode App.SetEnd]) 2 3).
  - apply reachable_stateAfter.
  - reflexivity.
  - reflexivity.
Defined.

Lemma retypeAll_compose f g (cells : Grid) :
  App.retypeAll f (App.retypeAll g cells) = App.retypeAll (f ∘ g) cells.
Proof.
  unfold App.retypeAll. rewrite <-list_fmap_compose. apply list_fmap_ext.
  intros _ rw _. simpl. rewrite <-list_fmap_compose. by apply list_fmap_ext.
Qed.

Lemma retypeAll_ext f g (cells : Grid) :
  (∀ t, f t = g t) → App.retypeAll f cells = App.retypeAll g cells.
Proof.
  intros Hfg. unfold App.retypeAll. apply list_fmap_ext. intros _ rw _.
  apply list_fmap_ext. intros _ x _. unfold App.retype. by rewrite Hfg.
Qed.

(** X19.  Clear Path and Clear Walls commute: pressed in either order
    they leave the same cells, those of the grid with every path, visited
    and wall cell made empty and every other cell as it was. *)
Theorem clears_commute σ (cells : Grid) :
  App.snapshot (App.heap σ) (App.grid σ) = Some cells →
  ∃ σ1 σ2 σ1' σ2' final,
    App.clearPath σ = App.Ok () σ1 ∧ App.clearWalls σ1 = App.Ok () σ2 ∧
    App.clearWalls σ = App.Ok () σ1' ∧ App.clearPath σ1' = App.Ok () σ2' ∧
    App.snapshot (App.heap σ2) (App.grid σ2) = Some final ∧
    App.snapshot (App.heap σ2') (App.grid σ2') = Some final ∧
    Forall2 (Forall2 (λ x x',
      coord x' = coord x ∧
      type x' = match type x with
                | Path | Visited | Wall => Empty
                | t => t
                end)) cells final.
Proof.
  intros Hsnap.
  destruct (clear_spec App.withoutOverlay σ cells Hsnap)
    as (g1 & h1 & Hrun1 & Hsnap1).
  destruct (clear_spec App.withoutWall
              (App.setMessage EmptyString (App.setGrid g1 (App.setHeap h1 σ)))
              _ Hsnap1) as (g2 & h2 & Hrun2 & Hsnap2).
  destruct (clear_spec App.withoutWall σ cells Hsnap)
    as (g1' & h1' & Hrun1' & Hsnap1').
  destruct (clear_spec App.withoutOverlay
              (App.setMessage EmptyString (App.setGrid g1' (App.setHeap h1' σ)))
              _ Hsnap1') as (g2' & h2' & Hrun2' & Hsnap2').
  do 4 eexists. exists (App.retypeAll (App.withoutWall ∘ App.withoutOverlay) cells).
  split; [exact Hrun1|]. split; [exact Hrun2|].
  split; [exact Hrun1'|]. split; [exact Hrun2'|].
  split; [|split].
  - simpl. by rewrite Hsnap2, retypeAll_compose.
  - simpl. rewrite Hsnap2', retypeAll_compose. f_equal.
    apply retypeAll_ext. intros t. by destruct t.
  - eapply Forall2_impl; [apply retype_Forall2|].
    intros rw rw' Hrw. eapply Forall2_impl; [done|].
    intros x x' [Hco Hty]. split; [done|]. rewrite Hty. by destruct (type x).
Qed.

Lemma clears_commute_witness :
  ∃ σ1 σ2 σ1' σ2' final,
    App.clearPath App.visualized = App.Ok () σ1 ∧
    App.clearWalls σ1 = App.Ok () σ2 ∧
    App.clearWalls App.visualized = App.Ok () σ1' ∧
    App.clearPath σ1' = App.Ok () σ2' ∧
    App.snapshot (App.heap σ2) (App.grid σ2) = Some final ∧
    App.snapshot (App.heap σ2') (App.grid σ2') = Some final ∧
    Forall2 (Forall2 (λ x x',
      coord x' = coord x ∧
      type x' = match type x with
                | Path | Visited | Wall => Empty
                | t => t
                end)) visualizedGrid final.
Proof.
  apply (clears_commute App.visualized visualizedGrid).
  vm_compute. reflexivity.
Defined.

(** X20.  [initializeGrid] never fails: on any state it leaves a grid of
    [rows] by [cols] new cell objects, all empty and each with its own
    coordinates, no start, no end and no message; the mode, the algorithm
    and the objects there were are untouched. *)
Theorem initializeGrid_blank σ :
  ∃ σ', App.initializeGrid σ = App.Ok () σ' ∧
    App.snapshot (App.heap σ') (App.grid σ') =
      Some (blankGrid (App.rows σ) (App.cols σ)) ∧
    wf_grid (App.rows σ) (App.cols σ) (blankGrid (App.rows σ) (App.cols σ)) ∧
    (∀ r c x, cellAt (blankGrid (App.rows σ) (App.cols σ)) r c = Some x →
              type x = Empty) ∧
    App.start σ' = None ∧ App.end_ σ' = None ∧
    App.message σ' = EmptyString ∧
    App.mode σ' = App.mode σ ∧ App.algorithm σ' = App.algorithm σ ∧
    App.isRunning σ' = App.isRunning σ ∧
    App.rows σ' = App.rows σ ∧ App.cols σ' = App.cols σ ∧
    App.heap σ ⊆ App.heap σ'.
Proof.
  destruct (initializeGrid_spec σ) as (g & h' & -> & Hsub & Hsnap).
  eexists. split; [done|]. split; [done|]. split; [apply blankGrid_wf|].
  split; [apply blankGrid_Empty|]. by repeat (split; [done|]).
Qed.

(** X21.  [getCellColor] tells the six cell types apart: two types have
    the same class string only if they are the same type. *)
Theorem getCellColor_distinguishes t t' :
  getCellColor t = getCellColor t' ↔ t = t'.
Proof.
  split; [|by intros ->]. by destruct t, t'.
Qed.

(** X22.  Whatever is typed into the Rows input, the number of rows it
    sets is between 5 and 30: a value in that range is taken as it is, a
    smaller value, zero or no number gives 5, a larger one 30.  When the
    number changes, the grid is made anew with that many rows, all cells
    empty, and start and end are forgotten; when it does not, nothing
    happens.  The Columns input does the same between 5 and 40. *)
Theorem change_dimension σ parsed :
  reachable σ →
  (∃ σ', changeRows parsed σ = App.Ok () σ' ∧
     App.rows σ' = clampDimension 30 parsed ∧ 5 ≤ App.rows σ' ≤ 30 ∧
     App.cols σ' = App.cols σ ∧
     (∀ n, parsed = Some n → 5 ≤ n ≤ 30 → App.rows σ' = n) ∧
     (∀ n, parsed = Some n → n < 5 → App.rows σ' = 5) ∧
     (parsed = None → App.rows σ' = 5) ∧
     (∀ n, parsed = Some n → 30 < n → App.rows σ' = 30) ∧
     (App.rows σ' = App.rows σ → σ' = σ) ∧
     (App.rows σ' ≠ App.rows σ →
        App.snapshot (App.heap σ') (App.grid σ') =
          Some (blankGrid (App.rows σ') (App.cols σ')) ∧
        App.start σ' = None ∧ App.end_ σ' = None)) ∧
  (∃ σ', changeCols parsed σ = App.Ok () σ' ∧
     App.cols σ' = clampDimension 40 parsed ∧ 5 ≤ App.cols σ' ≤ 40 ∧
     App.rows σ' = App.rows σ ∧
     (∀ n, parsed = Some n → 5 ≤ n ≤ 40 → App.cols σ' = n) ∧
     (∀ n, parsed = Some n → n < 5 → App.cols σ' = 5) ∧
     (parsed = None → App.cols σ' = 5) ∧
     (∀ n, parsed = Some n → 40 < n → App.cols σ' = 40) ∧
     (App.cols σ' = App.cols σ → σ' = σ) ∧
     (App.cols σ' ≠ App.cols σ →
        App.snapshot (App.heap σ') (App.grid σ') =
          Some (blankGrid (App.rows σ') (App.cols σ')) ∧
        App.start σ' = None ∧ App.end_ σ' = None)).
Proof.
  intros Hσ. destruct (reachable_inv σ Hσ) as (Hwf & _).
  pose proof (wf_idle σ Hwf) as Hidle.
  assert (∀ hi, 5 ≤ hi →
    (∀ n, parsed = Some n → 5 ≤ n ≤ hi → clampDimension hi parsed = n) ∧
    (∀ n, parsed = Some n → n < 5 → clampDimension hi parsed = 5) ∧
    (parsed = None → clampDimension hi parsed = 5) ∧
    (∀ n, parsed = Some n → hi < n → clampDimension hi parsed = hi))
    as Hclamp.
  { intros hi Hhi. unfold clampDimension, orFive.
    repeat split; [intros n -> Hn|intros n -> Hn|intros ->|intros n -> Hn];
      try case_bool_decide; lia. }
  split.
  - unfold changeRows. rewrite Hidle. cbn zeta.
    pose proof (clampDimension_range 30 parsed ltac:(lia)) as Hrange.
    destruct (Hclamp 30 ltac:(lia)) as (H1 & H2 & H3 & H4).
    case_bool_decide as Hn.
    + exists σ. rewrite <-Hn. by repeat (split; [done|]).
    + destruct (initializeGrid_spec (setRows (clampDimension 30 parsed) σ))
        as (g & h' & -> & _ & Hsnap).
      eexists. split; [done|]. simpl. by repeat (split; [done|]).
  - unfold changeCols. rewrite Hidle. cbn zeta.
    pose proof (clampDimension_range 40 parsed ltac:(lia)) as Hrange.
    destruct (Hclamp 40 ltac:(lia)) as (H1 & H2 & H3 & H4).
    case_bool_decide as Hn.
    + exists σ. rewrite <-Hn. by repeat (split; [done|]).
    + destruct (initializeGrid_spec (setCols (clampDimension 40 parsed) σ))
        as (g & h' & -> & _ & Hsnap).
      eexists. split; [done|]. simpl. by repeat (split; [done|]).
Qed.

Lemma change_dimension_witness :
  (∃ σ', changeRows (Some 7) firstShown = App.Ok () σ' ∧
     App.rows σ' = clampDimension 30 (Some 7) ∧ 5 ≤ App.rows σ' ≤ 30 ∧
     App.cols σ' = App.cols firstShown ∧
     (∀ n, Some 7 = Some n → 5 ≤ n ≤ 30 → App.rows σ' = n) ∧
     (∀ n, Some 7 = Some n → n < 5 → App.rows σ' = 5) ∧
     (Some 7 = None → App.rows σ' = 5) ∧
     (∀ n, Some 7 = Some n → 30 < n → App.rows σ' = 30) ∧
     (App.rows σ' = App.rows firstShown → σ' = firstShown) ∧
     (App.rows σ' ≠ App.rows firstShown →
        App.snapshot (App.heap σ') (App.grid σ') =
          Some (blankGrid (App.rows σ') (App.cols σ')) ∧
        App.start σ' = None ∧ App.end_ σ' = None)) ∧
  (∃ σ', changeCols (Some 7) firstShown = App.Ok () σ' ∧
     App.cols σ' = clampDimension 40 (Some 7) ∧ 5 ≤ App.cols σ' ≤ 40 ∧
     App.rows σ' = App.rows firstShown ∧
     (∀ n, Some 7 = Some n → 5 ≤ n ≤ 40 → App.cols σ' = n) ∧
     (∀ n, Some 7 = Some n → n < 5 → App.cols σ' = 5) ∧
     (Some 7 = None → App.cols σ' = 5) ∧
     (∀ n, Some 7 = Some n → 40 < n → App.cols σ' = 40) ∧
     (App.cols σ' = App.cols firstShown → σ' = firstShown) ∧
     (App.cols σ' ≠ App.cols firstShown →
        App.snapshot (App.heap σ') (App.grid σ') =
          Some (blankGrid (App.rows σ') (App.cols σ')) ∧
        App.start σ' = None ∧ App.end_ σ' = None)).
Proof.
  apply (change_dimension firstShown (Some 7)). apply reachable_firstShown.
Defined.
